(** * SAT solver suite: DIMACS parser, Sudoku encoder, DPLL-JW, CDCL,
      WalkSAT and probSAT, embedded from the Python sources.

    Conventions of the embedding.
    - Python [int] is [Z]; a literal is a [Z], a clause a [list Z].
    - Python [float] is the kernel's binary64 [float] (round to nearest even),
      which is the arithmetic CPython uses.
    - A [dict] whose iteration order is never observed is a [gmap]; a dict
      that is iterated is an association list kept in insertion order.
    - Text is a [list ascii]: a [str] whose characters lie in U+0000 to
      U+00FF, each character given by its code point.
    - A Python exception is [Raised]; a loop that the source writes as
      [while True] is run with fuel and yields [Starved] when it runs out. *)

From Stdlib Require Import ZArith List Ascii String Decimal DecimalZ Floats Lia Bool.
From stdpp Require Import base option list gmap.
Import ListNotations.
Open Scope Z_scope.

(** ** Outcomes of a Python computation *)

Inductive pyerr := ValueError | IndexError | KeyError | TypeError.

Inductive outcome (A : Type) :=
| Done (a : A)
| Raised (e : pyerr)
| Starved.
Arguments Done {A} a.
Arguments Raised {A} e.
Arguments Starved {A}.

Definition obind {A B} (m : outcome A) (k : A -> outcome B) : outcome B :=
  match m with
  | Done a => k a
  | Raised e => Raised e
  | Starved => Starved
  end.

#[global] Instance outcome_ret : MRet outcome := fun A a => Done a.
#[global] Instance outcome_bind : MBind outcome := fun A B k m => obind m k.

(** [mapO f l]: a list comprehension whose body may raise, evaluated left to
    right. *)
Fixpoint mapO {A B} (f : A -> outcome B) (l : list A) : outcome (list B) :=
  match l with
  | [] => Done []
  | x :: l' => y ← f x; ys ← mapO f l'; Done (y :: ys)
  end.

(** [foldO f l s]: a [for] loop threading the state [s], leaving at the first
    exception. *)
Fixpoint foldO {A S} (f : S -> A -> outcome S) (l : list A) (s : S) : outcome S :=
  match l with
  | [] => Done s
  | x :: l' => s' ← f s x; foldO f l' s'
  end.

Definition range (n : nat) : list Z := map Z.of_nat (seq 0 n).
Definition range_from (a b : nat) : list Z := map Z.of_nat (seq a (b - a)).

(** The record a solver's [run_solver] returns: a [dict] from field names to
    values, in insertion order. *)
Inductive pyval :=
| VStr (s : string)
| VInt (z : Z)
| VAssign (a : gmap Z bool).

Definition record := list (string * pyval).

Fixpoint field (k : string) (r : record) : option pyval :=
  match r with
  | [] => None
  | (k', v) :: r' => if String.eqb k' k then Some v else field k r'
  end.

(** [x in l] on a list of integers. *)
Definition mem (x : Z) (l : list Z) : bool := existsb (Z.eqb x) l.

(** The truth test the solvers apply to a literal under the value of its
    variable: [(lit > 0 and val) or (lit < 0 and not val)]. *)
Definition lit_sat (lit : Z) (val : bool) : bool :=
  ((0 <? lit) && val) || ((lit <? 0) && negb val).

(** ** utils/cnf_parser.py *)

Module Parser.

Record CNFFormula := {
  num_vars : Z;
  num_clauses : Z;
  clauses : list (list Z)
}.

Definition text := list ascii.

(** [str.isspace], which [str.strip] and [str.split] go by: TAB, LF, VT, FF,
    CR, FS, GS, RS, US, space, NEL (U+0085) and the no-break space
    (U+00A0). *)
Definition is_space (c : ascii) : bool :=
  let n := Z.of_nat (nat_of_ascii c) in
  ((9 <=? n) && (n <=? 13)) || ((28 <=? n) && (n <=? 32)) || (n =? 133) || (n =? 160).

(** Line ends of a file opened in text mode (universal newlines). A CR LF
    pair gives one extra empty line here, which the parser skips. *)
Definition is_newline (c : ascii) : bool :=
  let n := Z.of_nat (nat_of_ascii c) in (n =? 10) || (n =? 13).

Fixpoint lstrip (s : text) : text :=
  match s with
  | [] => []
  | c :: s' => if is_space c then lstrip s' else s
  end.

(** [str.strip()] *)
Definition strip (s : text) : text := rev (lstrip (rev (lstrip s))).

(** [str.split()]: maximal runs of non-blank characters; [cur] is the run
    being read, last character first. *)
Fixpoint split_from (cur : text) (s : text) : list text :=
  match s with
  | [] => match cur with [] => [] | _ => [rev cur] end
  | c :: s' =>
      if is_space c
      then match cur with
           | [] => split_from [] s'
           | _ => rev cur :: split_from [] s'
           end
      else split_from (c :: cur) s'
  end.

Definition split (s : text) : list text := split_from [] s.

(** [for raw in handle]: the text cut at every line end. *)
Fixpoint lines_from (cur : text) (s : text) : list text :=
  match s with
  | [] => [rev cur]
  | c :: s' =>
      if is_newline c then rev cur :: lines_from [] s'
      else lines_from (c :: cur) s'
  end.

Definition lines (s : text) : list text := lines_from [] s.

Definition startswith (c : ascii) (s : text) : bool :=
  match s with
  | x :: _ => Ascii.eqb x c
  | [] => false
  end.

Definition digit_of (c : ascii) : option Z :=
  let n := Z.of_nat (nat_of_ascii c) in
  if (48 <=? n) && (n <=? 57) then Some (n - 48) else None.

Inductive int_state := AtStart | AfterDigit | AfterUnderscore.

(** The digits of an [int()] literal: decimal digits, single underscores
    allowed between two digits. *)
Fixpoint int_digits (acc : Z) (st : int_state) (s : text) : option Z :=
  match s with
  | [] => match st with AfterDigit => Some acc | _ => None end
  | c :: s' =>
      match digit_of c with
      | Some d => int_digits (10 * acc + d) AfterDigit s'
      | None =>
          if Ascii.eqb c "_"
          then match st with
               | AfterDigit => int_digits acc AfterUnderscore s'
               | _ => None
               end
          else None
      end
  end.

(** [int(value)] on a token without blanks. *)
Definition py_int (s : text) : outcome Z :=
  let body :=
    match s with
    | c :: s' =>
        if Ascii.eqb c "-" then option_map Z.opp (int_digits 0 AtStart s')
        else if Ascii.eqb c "+" then int_digits 0 AtStart s'
        else int_digits 0 AtStart s
    | [] => None
    end in
  match body with
  | Some z => Done z
  | None => Raised ValueError
  end.

Definition text_eqb (a b : text) : bool := bool_decide (a = b).

Definition zero_token : text := ["0"%char].

(** One iteration of the loop over the lines of the file. *)
Definition parse_line (f : CNFFormula) (raw : text) : outcome CNFFormula :=
  let line := strip raw in
  match line with
  | [] => Done f
  | _ =>
      if startswith "c" line then Done f
      else if startswith "p" line then
        let parts := split line in
        if (4 <=? length parts)%nat then
          nv ← py_int (nth 2 parts []);
          nc ← py_int (nth 3 parts []);
          Done {| num_vars := nv; num_clauses := nc; clauses := clauses f |}
        else Done f
      else
        literals ← mapO py_int (filter (fun v => negb (text_eqb v zero_token)) (split line));
        match literals with
        | [] => Done f
        | _ => Done {| num_vars := num_vars f; num_clauses := num_clauses f;
                       clauses := clauses f ++ [literals] |}
        end
  end.

(** [parse_dimacs], given the contents of the file at [path]. *)
Definition parse_dimacs (data : text) : outcome CNFFormula :=
  f ← foldO parse_line (lines data) {| num_vars := 0; num_clauses := 0; clauses := [] |};
  Done (if num_clauses f =? 0
        then {| num_vars := num_vars f;
                num_clauses := Z.of_nat (length (clauses f));
                clauses := clauses f |}
        else f).

(** [str.splitlines()]: LF, VT, FF, CR, FS, GS, RS and NEL (U+0085) end a
    line, CR LF counts once, and a text that ends with a line end has no
    empty last line. *)
Definition is_linebreak (c : ascii) : bool :=
  let n := Z.of_nat (nat_of_ascii c) in
  ((10 <=? n) && (n <=? 13)) || ((28 <=? n) && (n <=? 30)) || (n =? 133).

Fixpoint splitlines_from (cur : text) (s : text) : list text :=
  match s with
  | [] => match cur with [] => [] | _ => [rev cur] end
  | c :: s' =>
      if is_linebreak c then
        rev cur ::
        match s' with
        | c' :: s'' =>
            if (Z.of_nat (nat_of_ascii c) =? 13) && (Z.of_nat (nat_of_ascii c') =? 10)
            then splitlines_from [] s''
            else splitlines_from [] s'
        | [] => []
        end
      else splitlines_from (c :: cur) s'
  end.

Definition splitlines (s : text) : list text := splitlines_from [] s.

Definition parse_from_string (data : text) : outcome CNFFormula :=
  f ← foldO parse_line (splitlines data) {| num_vars := 0; num_clauses := 0; clauses := [] |};
  Done (if num_clauses f =? 0
        then {| num_vars := num_vars f;
                num_clauses := Z.of_nat (length (clauses f));
                clauses := clauses f |}
        else f).

End Parser.

(** ** utils/sudoku_encoder.py *)

Module Sudoku.

Definition DIGITS : list Z := range_from 1 10.
Definition SIZE : Z := 9.
Definition BOX : Z := 3.

Definition var_index (row col value : Z) : Z :=
  row * SIZE * SIZE + col * SIZE + value.

Definition cell_clauses : list (list Z) :=
  flat_map (fun r =>
    flat_map (fun c =>
      map (fun v => var_index r c v) DIGITS ::
      flat_map (fun v1 =>
        flat_map (fun v2 =>
          if v1 <? v2 then [[- var_index r c v1; - var_index r c v2]] else [])
          DIGITS) DIGITS)
      (range 9)) (range 9).

Definition row_clauses : list (list Z) :=
  flat_map (fun r =>
    flat_map (fun v =>
      map (fun c => var_index r c v) (range 9) ::
      flat_map (fun c1 =>
        map (fun c2 => [- var_index r (Z.of_nat c1) v; - var_index r c2 v])
            (range_from (c1 + 1) 9)) (seq 0 9))
      DIGITS) (range 9).

Definition column_clauses : list (list Z) :=
  flat_map (fun c =>
    flat_map (fun v =>
      map (fun r => var_index r c v) (range 9) ::
      flat_map (fun r1 =>
        map (fun r2 => [- var_index (Z.of_nat r1) c v; - var_index r2 c v])
            (range_from (r1 + 1) 9)) (seq 0 9))
      DIGITS) (range 9).

(** [range(0, SIZE, BOX)] *)
Definition box_origins : list Z := [0; 3; 6].

Definition box_clauses : list (list Z) :=
  flat_map (fun br =>
    flat_map (fun bc =>
      let cells := flat_map (fun dr => map (fun dc => (br + dr, bc + dc)) (range 3)) (range 3) in
      flat_map (fun v =>
        map (fun rc => var_index (fst rc) (snd rc) v) cells ::
        flat_map (fun i =>
          flat_map (fun j =>
            match nth_error cells i, nth_error cells j with
            | Some (r1, c1), Some (r2, c2) => [[- var_index r1 c1 v; - var_index r2 c2 v]]
            | _, _ => []
            end) (seq (i + 1) (length cells - (i + 1)))) (seq 0 (length cells)))
        DIGITS) box_origins) box_origins.

(** [puzzle[r][c]] *)
Definition cell (puzzle : list (list Z)) (r c : nat) : outcome Z :=
  match nth_error puzzle r with
  | Some row => match nth_error row c with
                | Some v => Done v
                | None => Raised IndexError
                end
  | None => Raised IndexError
  end.

Definition clue_clauses (puzzle : list (list Z)) : outcome (list (list Z)) :=
  foldO (fun acc r =>
    foldO (fun acc c =>
      value ← cell puzzle r c;
      Done (if value =? 0 then acc else acc ++ [[var_index (Z.of_nat r) (Z.of_nat c) value]]))
      (seq 0 9) acc) (seq 0 9) [].

Definition encode (puzzle : list (list Z)) : outcome (list (list Z)) :=
  clues ← clue_clauses puzzle;
  Done (cell_clauses ++ row_clauses ++ column_clauses ++ box_clauses ++ clues).

(** [str(lit)] *)
Definition digit_char (d : Z) : ascii := ascii_of_nat (Z.to_nat (48 + d)).

Fixpoint uint_chars (u : Decimal.uint) : Parser.text :=
  match u with
  | Decimal.Nil => []
  | Decimal.D0 u' => digit_char 0 :: uint_chars u'
  | Decimal.D1 u' => digit_char 1 :: uint_chars u'
  | Decimal.D2 u' => digit_char 2 :: uint_chars u'
  | Decimal.D3 u' => digit_char 3 :: uint_chars u'
  | Decimal.D4 u' => digit_char 4 :: uint_chars u'
  | Decimal.D5 u' => digit_char 5 :: uint_chars u'
  | Decimal.D6 u' => digit_char 6 :: uint_chars u'
  | Decimal.D7 u' => digit_char 7 :: uint_chars u'
  | Decimal.D8 u' => digit_char 8 :: uint_chars u'
  | Decimal.D9 u' => digit_char 9 :: uint_chars u'
  end.

Definition str_Z (z : Z) : Parser.text :=
  match Z.to_int z with
  | Decimal.Pos u => uint_chars u
  | Decimal.Neg u => "-"%char :: uint_chars u
  end.

Definition space : ascii := " "%char.
Definition newline : ascii := ascii_of_nat 10.

(** [" ".join(tokens)] *)
Fixpoint join_space (tokens : list Parser.text) : Parser.text :=
  match tokens with
  | [] => []
  | [t] => t
  | t :: rest => t ++ space :: join_space rest
  end.

Definition clause_line (clause : list Z) : Parser.text :=
  join_space (map str_Z clause) ++ [space; "0"%char; newline].

Definition header_line (n : nat) : Parser.text :=
  list_ascii_of_string "p cnf " ++ str_Z (SIZE * SIZE * SIZE) ++ space :: str_Z (Z.of_nat n) ++ [newline].

(** [write_dimacs]: the text written to [path]. *)
Definition write_dimacs (clauses : list (list Z)) : Parser.text :=
  header_line (length clauses) ++ concat (map clause_line clauses).

(** [parse_puzzle], given the text [path.read_text()] returns. *)
Definition parse_puzzle (data : Parser.text) : outcome (list (list Z)) :=
  rows ← foldO (fun rows line =>
                  let text := Parser.strip line in
                  match text with
                  | [] => Done rows
                  | _ =>
                      if negb (length text =? 9)%nat then Raised ValueError
                      else row ← mapO (fun ch => Parser.py_int [ch]) text;
                           Done (rows ++ [row])
                  end) (Parser.splitlines data) [];
  if negb (length rows =? 9)%nat then Raised ValueError else Done rows.

(** [main]: from the text of [--input] to the text written to [--output]. *)
Definition main (input : Parser.text) : outcome Parser.text :=
  puzzle ← parse_puzzle input;
  clauses ← encode puzzle;
  Done (write_dimacs clauses).

End Sudoku.

(** ** solvers/dpll_jw.py *)

Module DPLL.

Record SolverStats := {
  decisions : Z;
  unit_propagations : Z;
  pure_eliminations : Z
}.

Definition stats0 : SolverStats :=
  {| decisions := 0; unit_propagations := 0; pure_eliminations := 0 |}.

(** The loop of [assign_literal] over the clauses; [None] is the conflict
    exit (a clause reduced to nothing). *)
Fixpoint reduce_clauses (literal : Z) (clauses : list (list Z)) : option (list (list Z)) :=
  match clauses with
  | [] => Some []
  | clause :: rest =>
      if mem literal clause then reduce_clauses literal rest
      else if mem (- literal) clause then
        match filter (fun lit => negb (lit =? - literal)) clause with
        | [] => None
        | reduced => option_map (cons reduced) (reduce_clauses literal rest)
        end
      else option_map (cons clause) (reduce_clauses literal rest)
  end.

(** [assign_literal]: the clause set, the conflict flag, and the assignment
    as the call leaves it (the dict is updated in place). *)
Definition assign_literal (clauses : list (list Z)) (assignment : gmap Z bool) (literal : Z)
  : list (list Z) * bool * gmap Z bool :=
  let var := Z.abs literal in
  let value := 0 <? literal in
  match assignment !! var with
  | Some existing =>
      if negb (Bool.eqb existing value) then (clauses, true, assignment)
      else match reduce_clauses literal clauses with
           | Some updated => (updated, false, <[var := value]> assignment)
           | None => (clauses, true, <[var := value]> assignment)
           end
  | None =>
      match reduce_clauses literal clauses with
      | Some updated => (updated, false, <[var := value]> assignment)
      | None => (clauses, true, <[var := value]> assignment)
      end
  end.

(** The scan of one clause: [None] when a literal is satisfied (the [break]),
    otherwise the undecided literals in order. *)
Fixpoint undecided_of (assignment : gmap Z bool) (clause : list Z) : option (list Z) :=
  match clause with
  | [] => Some []
  | lit :: rest =>
      match assignment !! Z.abs lit with
      | None => option_map (cons lit) (undecided_of assignment rest)
      | Some val => if lit_sat lit val then None else undecided_of assignment rest
      end
  end.

Inductive scan := ScanConflict | ScanUnit (l : Z) | ScanNone.

Fixpoint find_unit (assignment : gmap Z bool) (current : list (list Z)) : scan :=
  match current with
  | [] => ScanNone
  | clause :: rest =>
      match undecided_of assignment clause with
      | None => find_unit assignment rest
      | Some [] => ScanConflict
      | Some [l] => ScanUnit l
      | Some _ => find_unit assignment rest
      end
  end.

Definition bump_units (s : SolverStats) : SolverStats :=
  {| decisions := decisions s; unit_propagations := unit_propagations s + 1;
     pure_eliminations := pure_eliminations s |}.
Definition bump_pures (s : SolverStats) : SolverStats :=
  {| decisions := decisions s; unit_propagations := unit_propagations s;
     pure_eliminations := pure_eliminations s + 1 |}.
Definition bump_decisions (s : SolverStats) : SolverStats :=
  {| decisions := decisions s + 1; unit_propagations := unit_propagations s;
     pure_eliminations := pure_eliminations s |}.

Fixpoint unit_propagate (fuel : nat) (current : list (list Z)) (assignment : gmap Z bool)
  (stats : SolverStats) : outcome (list (list Z) * bool * gmap Z bool * SolverStats) :=
  match fuel with
  | O => Starved
  | S fuel' =>
      match find_unit assignment current with
      | ScanConflict => Done (current, true, assignment, stats)
      | ScanNone => Done (current, false, assignment, stats)
      | ScanUnit unit_literal =>
          let stats' := bump_units stats in
          let '(current', conflict, assignment') := assign_literal current assignment unit_literal in
          if conflict then Done (current', true, assignment', stats')
          else unit_propagate fuel' current' assignment' stats'
      end
  end.

(** [d[k] = d.get(k, 0) + v] on a dict kept in insertion order. *)
Fixpoint dict_add {V} (add : V -> V -> V) (d : list (Z * V)) (k : Z) (v : V) : list (Z * V) :=
  match d with
  | [] => [(k, v)]
  | (k', n) :: d' => if k' =? k then (k', add n v) :: d' else (k', n) :: dict_add add d' k v
  end.

Definition dict_has {V} (d : list (Z * V)) (k : Z) : bool :=
  existsb (fun kv => fst kv =? k) d.

Fixpoint count_clause (assignment : gmap Z bool) (clause : list Z) (counts : list (Z * Z))
  : list (Z * Z) :=
  match clause with
  | [] => counts
  | lit :: rest =>
      match assignment !! Z.abs lit with
      | None => count_clause assignment rest (dict_add Z.add counts lit 1)
      | Some val => if lit_sat lit val then counts else count_clause assignment rest counts
      end
  end.

Definition literal_counts (assignment : gmap Z bool) (clauses : list (list Z)) : list (Z * Z) :=
  fold_left (fun counts clause => count_clause assignment clause counts) clauses [].

Fixpoint assign_pures (pure_literals : list Z) (current : list (list Z))
  (assignment : gmap Z bool) (stats : SolverStats)
  : list (list Z) * bool * gmap Z bool * SolverStats :=
  match pure_literals with
  | [] => (current, false, assignment, stats)
  | lit :: rest =>
      let stats' := bump_pures stats in
      let '(current', conflict, assignment') := assign_literal current assignment lit in
      if conflict then (current', true, assignment', stats')
      else assign_pures rest current' assignment' stats'
  end.

Definition pure_literal_elimination (clauses : list (list Z)) (assignment : gmap Z bool)
  (stats : SolverStats) : list (list Z) * bool * gmap Z bool * SolverStats :=
  let counts := literal_counts assignment clauses in
  let pure_literals :=
    map fst (filter (fun kv => negb (dict_has counts (- fst kv))) counts) in
  match pure_literals with
  | [] => (clauses, false, assignment, stats)
  | _ => assign_pures pure_literals clauses assignment stats
  end.

(** [math.pow(2.0, -n)]: a power of two, exact down to the smallest
    subnormal and zero below it. *)
Fixpoint half_pow (n : nat) : float :=
  match n with
  | O => 1%float
  | S n' => PrimFloat.mul 0.5%float (half_pow n')
  end.

Fixpoint score_clause (assignment : gmap Z bool) (weight : float) (clause : list Z)
  (scores : list (Z * float)) : list (Z * float) :=
  match clause with
  | [] => scores
  | lit :: rest =>
      match assignment !! Z.abs lit with
      | None => score_clause assignment weight rest (dict_add PrimFloat.add scores lit weight)
      | Some val => if lit_sat lit val then scores else score_clause assignment weight rest scores
      end
  end.

Definition jw_scores (assignment : gmap Z bool) (clauses : list (list Z)) : list (Z * float) :=
  fold_left (fun scores clause =>
    let weight := match clause with [] => 0%float | _ => half_pow (length clause) end in
    score_clause assignment weight clause scores) clauses [].

(** [max(items, key=lambda item: item[1])]: the first item of greatest key. *)
Fixpoint max_item (best : Z * float) (items : list (Z * float)) : Z * float :=
  match items with
  | [] => best
  | item :: rest =>
      if PrimFloat.ltb (snd best) (snd item) then max_item item rest else max_item best rest
  end.

Definition first_unassigned (assignment : gmap Z bool) (clauses : list (list Z)) : option Z :=
  find (fun lit => negb (bool_decide (is_Some (assignment !! Z.abs lit)))) (concat clauses).

Definition pick_literal (clauses : list (list Z)) (assignment : gmap Z bool) : outcome Z :=
  match jw_scores assignment clauses with
  | [] =>
      match first_unassigned assignment clauses with
      | Some lit => Done lit
      | None => Raised ValueError
      end
  | item :: rest => Done (fst (max_item item rest))
  end.

Fixpoint dpll (fuel : nat) (clauses : list (list Z)) (assignment : gmap Z bool)
  (stats : SolverStats) : outcome (bool * gmap Z bool * SolverStats) :=
  match fuel with
  | O => Starved
  | S fuel' =>
      '(current, conflict, assignment, stats) ← unit_propagate fuel clauses assignment stats;
      if (conflict : bool) then Done (false, assignment, stats)
      else
        let '(current, conflict, assignment, stats) :=
          pure_literal_elimination current assignment stats in
        if (conflict : bool) then Done (false, assignment, stats)
        else
          match current with
          | [] => Done (true, assignment, stats)
          | _ =>
              literal ← pick_literal current assignment;
              let var := Z.abs literal in
              let branch (trial_literal : Z) (stats : SolverStats)
                : outcome (option (gmap Z bool) * SolverStats) :=
                let stats := bump_decisions stats in
                let '(new_clauses, branch_conflict, trial_assignment) :=
                  assign_literal current assignment trial_literal in
                if (branch_conflict : bool) then Done (None, stats)
                else
                  '(result, final_assignment, stats) ← dpll fuel' new_clauses trial_assignment stats;
                  Done (if (result : bool) then Some final_assignment else None, stats) in
              '(r1, stats) ← branch var stats;
              match r1 with
              | Some final_assignment => Done (true, final_assignment, stats)
              | None =>
                  '(r2, stats) ← branch (- var) stats;
                  match r2 with
                  | Some final_assignment => Done (true, final_assignment, stats)
                  | None => Done (false, assignment, stats)
                  end
              end
          end
  end.

Definition run_solver (fuel : nat) (data : Parser.text) : outcome record :=
  formula ← Parser.parse_dimacs data;
  '(sat, assignment, stats) ← dpll fuel (Parser.clauses formula) ∅ stats0;
  Done [ ("solver", VStr "dpll_jw");
         ("status", VStr (if (sat : bool) then "SAT" else "UNSAT"));
         ("decisions", VInt (decisions stats));
         ("unit_propagations", VInt (unit_propagations stats));
         ("pure_eliminations", VInt (pure_eliminations stats));
         ("assignment", VAssign (if sat then assignment else ∅));
         ("num_vars", VInt (Parser.num_vars formula));
         ("num_clauses", VInt (Parser.num_clauses formula)) ]%string.

End DPLL.

(** ** solvers/walksat.py and solvers/probsat.py *)

(** Python's [random] module: a generator state with the draws the solvers
    make. [randbelow n] is the index drawn by [random.choice] on a sequence
    of length [n], [random] is [random.random()], and [seed] the state
    [random.seed(n)] installs. *)
Record Rng := {
  gen : Type;
  randbelow : nat -> gen -> nat * gen;
  random : gen -> float * gen;
  seed : Z -> gen
}.

(** The helpers the two local-search files define word for word alike. *)
Module LocalSearch.

Record SolverStats := {
  flips : Z;
  restarts : Z
}.

Definition stats0 : SolverStats := {| flips := 0; restarts := 0 |}.
Definition bump_flips (s : SolverStats) : SolverStats :=
  {| flips := flips s + 1; restarts := restarts s |}.
Definition bump_restarts (s : SolverStats) : SolverStats :=
  {| flips := flips s; restarts := restarts s + 1 |}.

(** [random.choice(seq)] *)
Definition choice (R : Rng) {A} (l : list A) (g : gen R) : outcome (A * gen R) :=
  match l with
  | [] => Raised IndexError
  | _ =>
      let '(i, g') := randbelow R (length l) g in
      match nth_error l i with
      | Some x => Done (x, g')
      | None => Raised IndexError
      end
  end.

Definition initialize_assignment (R : Rng) (num_vars : Z) (g : gen R)
  : outcome (gmap Z bool * gen R) :=
  foldO (fun '(a, g) var =>
           '(b, g') ← choice R [true; false] g;
           Done (<[var := b]> a, g'))
        (range_from 1 (Z.to_nat num_vars + 1)) (∅, g).

Fixpoint clause_value (clause : list Z) (assignment : gmap Z bool) : bool :=
  match clause with
  | [] => false
  | lit :: rest =>
      match assignment !! Z.abs lit with
      | None => clause_value rest assignment
      | Some val => if lit_sat lit val then true else clause_value rest assignment
      end
  end.

Definition unsatisfied_clauses (clauses : list (list Z)) (assignment : gmap Z bool)
  : list (list Z) :=
  filter (fun clause => negb (clause_value clause assignment)) clauses.

Definition flip_variable (assignment : gmap Z bool) (var : Z) : outcome (gmap Z bool) :=
  match assignment !! var with
  | Some b => Done (<[var := negb b]> assignment)
  | None => Raised KeyError
  end.

(** The result record both files build; [best_assignment] is tested for
    truth, so the empty dict counts as no assignment. *)
Definition result (name : string) (formula : Parser.CNFFormula) (stats : SolverStats)
  (best_assignment : option (gmap Z bool)) : record :=
  let truthy := match best_assignment with
                | Some a => negb (bool_decide (a = ∅))
                | None => false
                end in
  [ ("solver", VStr name);
    ("status", VStr (if truthy then "SAT" else "UNKNOWN"));
    ("flips", VInt (flips stats));
    ("restarts", VInt (restarts stats));
    ("num_vars", VInt (Parser.num_vars formula));
    ("num_clauses", VInt (Parser.num_clauses formula));
    ("assignment", VAssign (match best_assignment with
                            | Some a => if truthy then a else ∅
                            | None => ∅
                            end)) ]%string.

(** The restart loop of [run_solver], over the attempt function of the
    solver. *)
Fixpoint attempts (R : Rng)
  (attempt : SolverStats -> gen R -> outcome (option (gmap Z bool) * SolverStats * gen R))
  (n : nat) (stats : SolverStats) (g : gen R)
  : outcome (option (gmap Z bool) * SolverStats * gen R) :=
  match n with
  | O => Done (None, stats, g)
  | S n' =>
      '(r, stats, g) ← attempt stats g;
      match r with
      | Some a => Done (Some a, stats, g)
      | None => attempts R attempt n' (bump_restarts stats) g
      end
  end.

End LocalSearch.

Module WalkSAT.
Import LocalSearch.

(** The greedy scan of [walk_sat]: [best_score] starts at infinity ([None]). *)
Fixpoint best_flip (clauses : list (list Z)) (assignment : gmap Z bool) (clause : list Z)
  (best_var : option Z) (best_score : option nat) : outcome (option Z) :=
  match clause with
  | [] => Done best_var
  | lit :: rest =>
      let var := Z.abs lit in
      flipped ← flip_variable assignment var;
      let broken := length (unsatisfied_clauses clauses flipped) in
      _ ← flip_variable flipped var;
      let better := match best_score with
                    | None => true
                    | Some b => (broken <? b)%nat
                    end in
      if better then best_flip clauses assignment rest (Some var) (Some broken)
      else best_flip clauses assignment rest best_var best_score
  end.

Fixpoint walk_steps (R : Rng) (steps : nat) (clauses : list (list Z)) (noise : float)
  (assignment : gmap Z bool) (stats : SolverStats) (g : gen R)
  : outcome (option (gmap Z bool) * SolverStats * gen R) :=
  match steps with
  | O => Done (None, stats, g)
  | S steps' =>
      match unsatisfied_clauses clauses assignment with
      | [] => Done (Some assignment, stats, g)
      | unsatisfied =>
          '(clause, g) ← choice R unsatisfied g;
          let stats := bump_flips stats in
          let '(x, g) := random R g in
          if PrimFloat.ltb x noise then
            '(lit, g) ← choice R clause g;
            assignment ← flip_variable assignment (Z.abs lit);
            walk_steps R steps' clauses noise assignment stats g
          else
            best ← best_flip clauses assignment clause None None;
            '(best_var, g) ← match best with
                             | Some v => Done (v, g)
                             | None => '(lit, g) ← choice R clause g; Done (Z.abs lit, g)
                             end;
            assignment ← flip_variable assignment best_var;
            walk_steps R steps' clauses noise assignment stats g
      end
  end.

Definition walk_sat (R : Rng) (clauses : list (list Z)) (num_vars max_flips : Z) (noise : float)
  (stats : SolverStats) (g : gen R) : outcome (option (gmap Z bool) * SolverStats * gen R) :=
  '(assignment, g) ← initialize_assignment R num_vars g;
  walk_steps R (Z.to_nat max_flips) clauses noise assignment stats g.

Definition run_solver (R : Rng) (data : Parser.text) (max_flips : Z) (noise : float)
  (restarts : Z) (g : gen R) : outcome (record * gen R) :=
  formula ← Parser.parse_dimacs data;
  '(best, stats, g) ←
    attempts R (walk_sat R (Parser.clauses formula) (Parser.num_vars formula) max_flips noise)
             (Z.to_nat restarts) stats0 g;
  Done (result "walksat" formula stats best, g).

(** [main]: [ambient] is the state of the module-level generator when the
    process reaches [main]; [--seed] replaces it. The record is the one
    printed, without the [wall_time] the clock adds. *)
Definition main (R : Rng) (data : Parser.text) (max_flips : Z) (noise : float) (restarts : Z)
  (seed_arg : option Z) (ambient : gen R) : outcome record :=
  let g := match seed_arg with Some n => seed R n | None => ambient end in
  '(r, _) ← run_solver R data max_flips noise restarts g;
  Done r.

End WalkSAT.

Module ProbSAT.
Import LocalSearch.

Section Pow.
(** [math.pow(epsilon, n)] of the C library, for an integer [n]. *)
Variable math_pow : float -> Z -> float.

Definition break_score (clauses : list (list Z)) (assignment : gmap Z bool) (var : Z)
  : outcome Z :=
  flipped ← flip_variable assignment var;
  let score := Z.of_nat (length (unsatisfied_clauses clauses flipped)) in
  _ ← flip_variable flipped var;
  Done score.

Fixpoint weigh (clauses : list (list Z)) (assignment : gmap Z bool) (epsilon : float)
  (clause : list Z) (scores : list (Z * float)) (total : float)
  : outcome (list (Z * float) * float) :=
  match clause with
  | [] => Done (scores, total)
  | lit :: rest =>
      let var := Z.abs lit in
      b ← break_score clauses assignment var;
      let score := math_pow epsilon b in
      weigh clauses assignment epsilon rest (scores ++ [(var, score)]) (PrimFloat.add total score)
  end.

Fixpoint sample (r accum : float) (scores : list (Z * float)) : option Z :=
  match scores with
  | [] => None
  | (var, score) :: rest =>
      let accum := PrimFloat.add accum score in
      if PrimFloat.leb r accum then Some var else sample r accum rest
  end.

Definition select_variable_probabilistic (R : Rng) (clause : list Z) (clauses : list (list Z))
  (assignment : gmap Z bool) (epsilon : float) (g : gen R) : outcome (Z * gen R) :=
  '(scores, total) ← weigh clauses assignment epsilon clause [] 0%float;
  let '(x, g) := random R g in
  let r := PrimFloat.mul x total in
  match sample r 0%float scores with
  | Some var => Done (var, g)
  | None => match last scores with
            | Some (var, _) => Done (var, g)
            | None => Raised IndexError
            end
  end.

Fixpoint prob_steps (R : Rng) (steps : nat) (clauses : list (list Z)) (epsilon : float)
  (assignment : gmap Z bool) (stats : SolverStats) (g : gen R)
  : outcome (option (gmap Z bool) * SolverStats * gen R) :=
  match steps with
  | O => Done (None, stats, g)
  | S steps' =>
      match unsatisfied_clauses clauses assignment with
      | [] => Done (Some assignment, stats, g)
      | unsatisfied =>
          '(clause, g) ← choice R unsatisfied g;
          '(var, g) ← select_variable_probabilistic R clause clauses assignment epsilon g;
          assignment ← flip_variable assignment var;
          prob_steps R steps' clauses epsilon assignment (bump_flips stats) g
      end
  end.

Definition prob_sat (R : Rng) (clauses : list (list Z)) (num_vars max_flips : Z)
  (epsilon : float) (stats : SolverStats) (g : gen R)
  : outcome (option (gmap Z bool) * SolverStats * gen R) :=
  '(assignment, g) ← initialize_assignment R num_vars g;
  prob_steps R (Z.to_nat max_flips) clauses epsilon assignment stats g.

Definition run_solver (R : Rng) (data : Parser.text) (max_flips : Z) (epsilon : float)
  (restarts : Z) (g : gen R) : outcome (record * gen R) :=
  formula ← Parser.parse_dimacs data;
  '(best, stats, g) ←
    attempts R (prob_sat R (Parser.clauses formula) (Parser.num_vars formula) max_flips epsilon)
             (Z.to_nat restarts) stats0 g;
  Done (result "probsat" formula stats best, g).

Definition main (R : Rng) (data : Parser.text) (max_flips : Z) (epsilon : float) (restarts : Z)
  (seed_arg : option Z) (ambient : gen R) : outcome record :=
  let g := match seed_arg with Some n => seed R n | None => ambient end in
  '(r, _) ← run_solver R data max_flips epsilon restarts g;
  Done r.

End Pow.
End ProbSAT.

(** ** solvers/cdcl.py *)

Module CDCL.

Record SolverStats := {
  decisions : Z;
  conflicts : Z;
  learned_clauses : Z;
  restarts : Z
}.

Definition stats0 : SolverStats :=
  {| decisions := 0; conflicts := 0; learned_clauses := 0; restarts := 0 |}.
Definition bump_decisions (s : SolverStats) : SolverStats :=
  {| decisions := decisions s + 1; conflicts := conflicts s;
     learned_clauses := learned_clauses s; restarts := restarts s |}.
Definition bump_conflicts (s : SolverStats) : SolverStats :=
  {| decisions := decisions s; conflicts := conflicts s + 1;
     learned_clauses := learned_clauses s; restarts := restarts s |}.
Definition bump_learned (s : SolverStats) : SolverStats :=
  {| decisions := decisions s; conflicts := conflicts s;
     learned_clauses := learned_clauses s + 1; restarts := restarts s |}.
Definition bump_restarts (s : SolverStats) : SolverStats :=
  {| decisions := decisions s; conflicts := conflicts s;
     learned_clauses := learned_clauses s; restarts := restarts s + 1 |}.

(** *** PriorityQueue

    [heapq] over tuples [(-score, var)]: the heap is kept as the multiset of
    its items, [heappop] takes a least one out. *)
Record PriorityQueue := {
  heap : list (float * Z);
  entries : gmap Z float
}.

(** [a < b] on tuples [(float, int)]. *)
Definition tuple_ltb (a b : float * Z) : bool :=
  if PrimFloat.eqb (fst a) (fst b) then snd a <? snd b
  else PrimFloat.ltb (fst a) (fst b).

Fixpoint heappop (h : list (float * Z)) : option ((float * Z) * list (float * Z)) :=
  match h with
  | [] => None
  | x :: r =>
      match heappop r with
      | None => Some (x, [])
      | Some (m, r') => if tuple_ltb m x then Some (m, x :: r') else Some (x, r)
      end
  end.

Definition push (q : PriorityQueue) (var : Z) (score : float) : PriorityQueue :=
  {| heap := (PrimFloat.opp score, var) :: heap q;
     entries := <[var := score]> (entries q) |}.

(** The loop of [pop]; it runs at most once per item of the heap. *)
Fixpoint pop_loop (n : nat) (h : list (float * Z)) (entries : gmap Z float)
  (assignment : gmap Z bool) : option Z * list (float * Z) :=
  match n with
  | O => (None, h)
  | S n' =>
      match heappop h with
      | None => (None, h)
      | Some ((score, var), h') =>
          match assignment !! var with
          | Some _ => pop_loop n' h' entries assignment
          | None =>
              match entries !! var with
              | None => pop_loop n' h' entries assignment
              | Some current =>
                  if negb (PrimFloat.eqb (PrimFloat.opp score) current)
                  then pop_loop n' h' entries assignment
                  else (Some var, h')
              end
          end
      end
  end.

Definition pop (q : PriorityQueue) (assignment : gmap Z bool) : option Z * PriorityQueue :=
  let '(r, h) := pop_loop (length (heap q)) (heap q) (entries q) assignment in
  (r, {| heap := h; entries := entries q |}).

Definition update := push.

(** *** SolverState *)
Record SolverState := {
  formula : list (list Z);
  assignment : gmap Z bool;
  decision_levels : gmap Z Z;
  reason : gmap Z (list Z);
  level_literals : list Z;
  watches : gmap Z (list nat);
  watch_map : gmap nat (Z * Z);
  vsids : gmap Z float;
  queue : PriorityQueue;
  phase : gmap Z bool;
  decision_level : Z;
  decay : float
}.

Definition add_watch (watches : gmap Z (list nat)) (literal : Z) (clause_idx : nat)
  : gmap Z (list nat) :=
  let l := default [] (watches !! literal) in
  <[literal := if bool_decide (clause_idx ∈ l) then l else l ++ [clause_idx]]> watches.

(** [list.remove(x)]: the first occurrence goes. *)
Fixpoint remove_first {A} `{EqDecision A} (x : A) (l : list A) : list A :=
  match l with
  | [] => []
  | y :: l' => if bool_decide (y = x) then l' else y :: remove_first x l'
  end.

Definition remove_watch (watches : gmap Z (list nat)) (literal : Z) (clause_idx : nat)
  : gmap Z (list nat) :=
  match watches !! literal with
  | None => watches
  | Some [] => watches
  | Some watchers => <[literal := remove_first clause_idx watchers]> watches
  end.

Definition update_watch (watches : gmap Z (list nat)) (clause_idx : nat)
  (old_literal new_literal : Z) : gmap Z (list nat) :=
  add_watch (remove_watch watches old_literal clause_idx) new_literal clause_idx.

Definition init_watch (acc : gmap Z (list nat) * gmap nat (Z * Z)) (idx : nat) (clause : list Z)
  : outcome (gmap Z (list nat) * gmap nat (Z * Z)) :=
  let '(watches, watch_map) := acc in
  match clause with
  | [] => Raised IndexError
  | [c0] => Done (add_watch watches c0 idx, <[idx := (c0, c0)]> watch_map)
  | c0 :: c1 :: _ =>
      Done (add_watch (add_watch watches c0 idx) c1 idx, <[idx := (c0, c1)]> watch_map)
  end.

Fixpoint init_watches (idx : nat) (formula : list (list Z))
  (acc : gmap Z (list nat) * gmap nat (Z * Z))
  : outcome (gmap Z (list nat) * gmap nat (Z * Z)) :=
  match formula with
  | [] => Done acc
  | clause :: rest => acc' ← init_watch acc idx clause; init_watches (S idx) rest acc'
  end.

Definition count_vars (formula : list (list Z)) : gmap Z float :=
  fold_left (fun vsids lit =>
               let var := Z.abs lit in
               <[var := PrimFloat.add (default 0%float (vsids !! var)) 1%float]> vsids)
            (concat formula) ∅.

Definition push_all (vsids : gmap Z float) (q : PriorityQueue) : PriorityQueue :=
  fold_left (fun q '(var, score) => push q var score) (map_to_list vsids) q.

Definition decay_default : float := 0x1.e666666666666p-1%float.

Definition initialize_state (formula : list (list Z)) : outcome SolverState :=
  '(watches, watch_map) ← init_watches 0 formula (∅, ∅);
  let vsids := count_vars formula in
  let queue := push_all vsids {| heap := []; entries := ∅ |} in
  Done {| formula := formula; assignment := ∅; decision_levels := ∅; reason := ∅;
          level_literals := []; watches := watches; watch_map := watch_map;
          vsids := vsids; queue := queue; phase := (fun _ => true) <$> vsids;
          decision_level := 0; decay := decay_default |}.

Definition value_of (literal : Z) (assignment : gmap Z bool) : option bool :=
  match assignment !! Z.abs literal with
  | None => None
  | Some val => Some (if 0 <? literal then val else negb val)
  end.

(** *** propagate *)

(** The scan of a clause for a replacement watch. *)
Fixpoint find_candidate (assignment : gmap Z bool) (w1 w2 : Z) (clause : list Z) : option Z :=
  match clause with
  | [] => None
  | candidate :: rest =>
      if (candidate =? w1) || (candidate =? w2) then find_candidate assignment w1 w2 rest
      else match value_of candidate assignment with
           | Some false => find_candidate assignment w1 w2 rest
           | _ => Some candidate
           end
  end.

(** The assignment of an implied or asserted literal with its reason. *)
Definition set_literal (st : SolverState) (lit : Z) (why : list Z) : SolverState :=
  let var := Z.abs lit in
  {| formula := formula st;
     assignment := <[var := 0 <? lit]> (assignment st);
     decision_levels := <[var := decision_level st]> (decision_levels st);
     reason := <[var := why]> (reason st);
     level_literals := level_literals st ++ [lit];
     watches := watches st; watch_map := watch_map st;
     vsids := vsids st; queue := queue st;
     phase := <[var := 0 <? lit]> (phase st);
     decision_level := decision_level st; decay := decay st |}.

Definition set_watch (st : SolverState) (clause_idx : nat) (wpair : Z * Z)
  (old_literal new_literal : Z) : SolverState :=
  {| formula := formula st; assignment := assignment st;
     decision_levels := decision_levels st; reason := reason st;
     level_literals := level_literals st;
     watches := update_watch (watches st) clause_idx old_literal new_literal;
     watch_map := <[clause_idx := wpair]> (watch_map st);
     vsids := vsids st; queue := queue st; phase := phase st;
     decision_level := decision_level st; decay := decay st |}.

Inductive visit :=
| VisitNext (st : SolverState)
| VisitImplied (st : SolverState) (other : Z)
| VisitConflict (st : SolverState) (clause : list Z).

(** The body of [for clause_idx in watchers]. *)
Definition visit_clause (st : SolverState) (opposite : Z) (clause_idx : nat) : outcome visit :=
  match nth_error (formula st) clause_idx with
  | None => Raised IndexError
  | Some clause =>
      match watch_map st !! clause_idx with
      | None => Raised KeyError
      | Some (w1, w2) =>
          let other := if w1 =? opposite then w2 else w1 in
          match value_of other (assignment st) with
          | Some true => Done (VisitNext st)
          | _ =>
              match find_candidate (assignment st) w1 w2 clause with
              | Some candidate =>
                  let wpair := if w1 =? opposite then (candidate, w2) else (w1, candidate) in
                  Done (VisitNext (set_watch st clause_idx wpair opposite candidate))
              | None =>
                  match value_of other (assignment st) with
                  | Some false => Done (VisitConflict st clause)
                  | _ => Done (VisitImplied (set_literal st other clause) other)
                  end
              end
          end
      end
  end.

(** The queue of [propagate] is held top first: [queue.pop()] takes the head
    and [queue.append(x)] conses. *)
Fixpoint visit_watchers (st : SolverState) (opposite : Z) (watchers : list nat)
  (queue : list Z) : outcome (SolverState * list Z * option (list Z)) :=
  match watchers with
  | [] => Done (st, queue, None)
  | clause_idx :: rest =>
      v ← visit_clause st opposite clause_idx;
      match v with
      | VisitNext st' => visit_watchers st' opposite rest queue
      | VisitImplied st' other => visit_watchers st' opposite rest (other :: queue)
      | VisitConflict st' clause => Done (st', queue, Some clause)
      end
  end.

Fixpoint propagate_loop (fuel : nat) (st : SolverState) (queue : list Z)
  : outcome (SolverState * option (list Z)) :=
  match fuel with
  | O => Starved
  | S fuel' =>
      match queue with
      | [] => Done (st, None)
      | literal :: queue =>
          let opposite := - literal in
          let watchers := default [] (watches st !! opposite) in
          '(st, queue, conflict) ← visit_watchers st opposite watchers queue;
          match conflict with
          | Some clause => Done (st, Some clause)
          | None => propagate_loop fuel' st queue
          end
      end
  end.

Definition propagate (fuel : nat) (st : SolverState) (stats : SolverStats)
  : outcome (SolverState * SolverStats * option (list Z)) :=
  '(st, conflict) ← propagate_loop fuel st (rev (level_literals st));
  match conflict with
  | Some clause => Done (st, bump_conflicts stats, Some clause)
  | None => Done (st, stats, None)
  end.

(** *** analyze_conflict *)

Definition level_of (st : SolverState) (lit : Z) (dflt : Z) : Z :=
  default dflt (decision_levels st !! Z.abs lit).

Definition count_curr_level (st : SolverState) (clause : list Z) : nat :=
  length (filter (fun lit => level_of st lit (-1) =? decision_level st) clause).

(** The two loops of [resolve]; [present] is the set kept beside the list. *)
Fixpoint resolve_own (pivot_var : Z) (clause : list Z) (resolvent : list Z) (present : gset Z)
  : list Z * gset Z :=
  match clause with
  | [] => (resolvent, present)
  | lit :: rest =>
      if Z.abs lit =? pivot_var then resolve_own pivot_var rest resolvent present
      else if bool_decide (- lit ∈ present) then resolve_own pivot_var rest resolvent present
      else if bool_decide (lit ∈ present) then resolve_own pivot_var rest resolvent present
      else resolve_own pivot_var rest (resolvent ++ [lit]) ({[lit]} ∪ present)
  end.

Fixpoint resolve_reason (pivot_var : Z) (why : list Z) (resolvent : list Z) (present : gset Z)
  : list Z * gset Z :=
  match why with
  | [] => (resolvent, present)
  | lit :: rest =>
      if Z.abs lit =? pivot_var then resolve_reason pivot_var rest resolvent present
      else if bool_decide (- lit ∈ present) then
        if mem (- lit) resolvent
        then resolve_reason pivot_var rest (remove_first (- lit) resolvent) (present ∖ {[- lit]})
        else resolve_reason pivot_var rest resolvent present
      else if bool_decide (lit ∈ present) then resolve_reason pivot_var rest resolvent present
      else resolve_reason pivot_var rest (resolvent ++ [lit]) ({[lit]} ∪ present)
  end.

Definition resolve (st : SolverState) (clause : list Z) (pivot_var : Z) : list Z :=
  match reason st !! pivot_var with
  | None | Some [] => clause
  | Some why =>
      let '(resolvent, present) := resolve_own pivot_var clause [] ∅ in
      fst (resolve_reason pivot_var why resolvent present)
  end.

Definition find_pivot (st : SolverState) (learned : list Z) : option Z :=
  option_map Z.abs
    (find (fun assigned_lit =>
             existsb (fun l => Z.abs l =? Z.abs assigned_lit) learned
             && (level_of st assigned_lit (-1) =? decision_level st))
          (rev (level_literals st))).

Fixpoint analyze_loop (fuel : nat) (st : SolverState) (learned : list Z) : outcome (list Z) :=
  match fuel with
  | O => Starved
  | S fuel' =>
      if (1 <? count_curr_level st learned)%nat then
        match find_pivot st learned with
        | None => Done learned
        | Some pivot_var => analyze_loop fuel' st (resolve st learned pivot_var)
        end
      else Done learned
  end.

Definition backjump_level (st : SolverState) (learned : list Z) : Z :=
  fold_left (fun backjump lit =>
               let lvl := level_of st lit 0 in
               if negb (lvl =? decision_level st) && (backjump <? lvl) then lvl else backjump)
            learned 0.

Definition analyze_conflict (fuel : nat) (st : SolverState) (conflict : list Z)
  : outcome (list Z * Z) :=
  learned ← analyze_loop fuel st conflict;
  Done (learned, backjump_level st learned).

(** *** backtrack, learn_clause, decay_scores, select_branch_literal *)

Definition backtrack (st : SolverState) (level : Z) : SolverState :=
  let gone (var : Z) : bool :=
    match decision_levels st !! var with
    | Some dl => level <? dl
    | None => false
    end in
  let levels := filter (fun kv => gone (fst kv) = false) (decision_levels st) in
  {| formula := formula st;
     assignment := filter (fun kv => gone (fst kv) = false) (assignment st);
     decision_levels := levels;
     reason := filter (fun kv => gone (fst kv) = false) (reason st);
     level_literals :=
       filter (fun lit => default (-1) (levels !! Z.abs lit) = level) (level_literals st);
     watches := watches st; watch_map := watch_map st;
     vsids := vsids st; queue := queue st; phase := phase st;
     decision_level := level; decay := decay st |}.

Definition bump_var (acc : gmap Z float * PriorityQueue) (lit : Z)
  : gmap Z float * PriorityQueue :=
  let '(vsids, q) := acc in
  let var := Z.abs lit in
  let score := PrimFloat.add (default 0%float (vsids !! var)) 1%float in
  (<[var := score]> vsids, update q var score).

Definition learn_clause (st : SolverState) (clause : list Z) (stats : SolverStats)
  : outcome (SolverState * SolverStats) :=
  let idx := length (formula st) in
  watching ←
    match clause with
    | [] => Raised IndexError
    | [c0] => Done (add_watch (watches st) c0 idx, (c0, c0))
    | c0 :: c1 :: _ => Done (add_watch (add_watch (watches st) c0 idx) c1 idx, (c0, c1))
    end;
  let '(watches', wpair) := watching in
  let '(vsids', queue') := fold_left bump_var clause (vsids st, queue st) in
  Done ({| formula := formula st ++ [clause]; assignment := assignment st;
           decision_levels := decision_levels st; reason := reason st;
           level_literals := level_literals st;
           watches := watches'; watch_map := <[idx := wpair]> (watch_map st);
           vsids := vsids'; queue := queue'; phase := phase st;
           decision_level := decision_level st; decay := decay st |},
        bump_learned stats).

Definition decay_var (d : float) (acc : gmap Z float * PriorityQueue) (var : Z)
  : gmap Z float * PriorityQueue :=
  let '(vsids, q) := acc in
  match vsids !! var with
  | Some score =>
      let score := PrimFloat.mul score d in
      (<[var := score]> vsids, update q var score)
  | None => acc
  end.

Definition decay_scores (st : SolverState) : SolverState :=
  let '(vsids', queue') :=
    fold_left (decay_var (decay st)) (map fst (map_to_list (vsids st))) (vsids st, queue st) in
  {| formula := formula st; assignment := assignment st;
     decision_levels := decision_levels st; reason := reason st;
     level_literals := level_literals st;
     watches := watches st; watch_map := watch_map st;
     vsids := vsids'; queue := queue'; phase := phase st;
     decision_level := decision_level st; decay := decay st |}.

Definition with_queue (st : SolverState) (q : PriorityQueue) : SolverState :=
  {| formula := formula st; assignment := assignment st;
     decision_levels := decision_levels st; reason := reason st;
     level_literals := level_literals st;
     watches := watches st; watch_map := watch_map st;
     vsids := vsids st; queue := q; phase := phase st;
     decision_level := decision_level st; decay := decay st |}.

Definition select_branch_literal (st : SolverState) : option Z * SolverState :=
  let '(r, q) := pop (queue st) (assignment st) in
  match r with
  | None => (None, with_queue st q)
  | Some var =>
      let sign := default true (phase st !! var) in
      (Some (if sign then var else - var), with_queue st q)
  end.

Definition with_level (st : SolverState) (level : Z) : SolverState :=
  {| formula := formula st; assignment := assignment st;
     decision_levels := decision_levels st; reason := reason st;
     level_literals := level_literals st;
     watches := watches st; watch_map := watch_map st;
     vsids := vsids st; queue := queue st; phase := phase st;
     decision_level := level; decay := decay st |}.

(** *** cdcl *)

(** The first literal of the learned clause at the current level. *)
Definition asserting_literal (st : SolverState) (clause : list Z) : option Z :=
  find (fun lit => level_of st lit (-1) =? decision_level st) clause.

(** The locals of [cdcl]. [restart_limit * 1.5] is exact in binary64 for the
    limits a run can reach, so [int(...)] is the integer part of [3n/2].
    [met] is a ghost: the number of passes that took the conflict branch. *)
Record Locals := {
  restart_limit : Z;
  conflicts_since_restart : Z;
  met : nat
}.

Definition locals0 : Locals :=
  {| restart_limit := 100; conflicts_since_restart := 0; met := 0 |}.

(** The conflict branch of the loop body, from [stats.conflicts += 1] to
    [continue]; [None] is [return False, state.assignment]. *)
Definition on_conflict (fuel : nat) (st : SolverState) (stats : SolverStats) (loc : Locals)
  (conflict : list Z) : outcome (option (SolverState * Locals) * SolverStats) :=
  let stats := bump_conflicts stats in
  let since := conflicts_since_restart loc + 1 in
  if decision_level st =? 0 then Done (None, stats)
  else
    '(clause, backjump) ← analyze_conflict fuel st conflict;
    '(st, stats) ← learn_clause st clause stats;
    let asserting := asserting_literal st clause in
    let st := backtrack st backjump in
    let st := decay_scores st in
    let st := match asserting with
              | Some lit => set_literal st lit clause
              | None => st
              end in
    if restart_limit loc <=? since then
      Done (Some (backtrack st 0,
                  {| restart_limit := restart_limit loc * 3 / 2;
                     conflicts_since_restart := 0; met := S (met loc) |}),
            bump_restarts stats)
    else
      Done (Some (st,
                  {| restart_limit := restart_limit loc;
                     conflicts_since_restart := since; met := S (met loc) |}),
            stats).

(** The decision at the end of the loop body. *)
Definition decide_literal (st : SolverState) (literal : Z) : SolverState :=
  set_literal (with_level st (decision_level st + 1)) literal [].

Fixpoint cdcl_loop (fuel : nat) (gas : nat) (st : SolverState) (stats : SolverStats)
  (loc : Locals) : outcome (bool * SolverState * SolverStats * nat) :=
  match gas with
  | O => Starved
  | S gas' =>
      '(st, stats, conflict) ← propagate fuel st stats;
      match conflict with
      | Some (l :: ls) =>
          '(next, stats) ← on_conflict fuel st stats loc (l :: ls);
          match next with
          | None => Done (false, st, stats, S (met loc))
          | Some (st, loc) => cdcl_loop fuel gas' st stats loc
          end
      | _ =>
          let '(literal, st) := select_branch_literal st in
          match literal with
          | None => Done (true, st, stats, met loc)
          | Some literal =>
              cdcl_loop fuel gas' (decide_literal st literal) (bump_decisions stats) loc
          end
      end
  end.

Definition cdcl (fuel : nat) (st : SolverState) (stats : SolverStats)
  : outcome (bool * SolverState * SolverStats * nat) :=
  cdcl_loop fuel fuel st stats locals0.

(** *** run_solver *)

Definition unsat_record (st : SolverState) : record :=
  [ ("solver", VStr "cdcl"); ("status", VStr "UNSAT");
    ("decisions", VInt 0); ("conflicts", VInt 0);
    ("learned_clauses", VInt 0); ("restarts", VInt 0);
    ("assignment", VAssign ∅);
    ("num_clauses", VInt (Z.of_nat (length (formula st)))) ]%string.

(** The loop over the unit clauses; [None] is the early [return]. *)
Fixpoint assign_units (clauses : list (list Z)) (st : SolverState) : option SolverState :=
  match clauses with
  | [] => Some st
  | [lit] :: rest =>
      match assignment st !! Z.abs lit with
      | Some val =>
          if negb (Bool.eqb val (0 <? lit)) then None else assign_units rest st
      | None => assign_units rest (set_literal st lit [])
      end
  | _ :: rest => assign_units rest st
  end.

Definition run_solver (fuel : nat) (data : Parser.text) : outcome record :=
  parsed ← Parser.parse_dimacs data;
  st ← initialize_state (Parser.clauses parsed);
  match assign_units (formula st) st with
  | None => Done (unsat_record st)
  | Some st =>
      '(st, stats, conflict) ← propagate fuel st stats0;
      match conflict with
      | Some _ => Done (unsat_record st)
      | None =>
          '(sat, st, stats, _) ← cdcl fuel st stats;
          Done [ ("solver", VStr "cdcl");
                 ("status", VStr (if (sat : bool) then "SAT" else "UNSAT"));
                 ("decisions", VInt (decisions stats));
                 ("conflicts", VInt (conflicts stats));
                 ("learned_clauses", VInt (learned_clauses stats));
                 ("restarts", VInt (restarts stats));
                 ("assignment", VAssign (if sat then assignment st else ∅));
                 ("num_clauses", VInt (Z.of_nat (length (formula st)))) ]%string
      end
  end.

End CDCL.

(** ** harness/run_experiments.py *)

Module Harness.

Fixpoint clause_satisfied (clause : list Z) (assignment : gmap Z bool) : bool :=
  match clause with
  | [] => false
  | lit :: rest =>
      match assignment !! Z.abs lit with
      | None => clause_satisfied rest assignment
      | Some val => if lit_sat lit val then true else clause_satisfied rest assignment
      end
  end.

(** [verify_assignment]: an empty assignment is refused before any clause is
    looked at. *)
Definition verify_assignment (clauses : list (list Z)) (assignment : gmap Z bool) : bool :=
  if bool_decide (assignment = ∅) then false
  else forallb (fun clause => clause_satisfied clause assignment) clauses.

End Harness.

(** ** utils/generate_sudoku_dataset.py *)

Module Generator.

(** The argument of [parse_grid_from_string]: a list of row strings, which
    the function tests for first, or one string. *)
Inductive grid_input :=
| GridRows (rows : list Parser.text)
| GridText (s : Parser.text).

(** [clean_str[i*9 : (i+1)*9]] *)
Definition slice9 (s : Parser.text) (i : nat) : Parser.text := firstn 9 (skipn (i * 9) s).

Definition parse_grid_from_string (grid_str : grid_input) : outcome (list (list Z)) :=
  match grid_str with
  | GridRows rows => mapO (fun row => mapO (fun c => Parser.py_int [c]) row) rows
  | GridText s =>
      let clean_str :=
        List.filter (fun c => negb (Ascii.eqb c Sudoku.newline || Ascii.eqb c Sudoku.space)) s in
      if negb (length clean_str =? 81)%nat then Raised ValueError
      else mapO (fun i => mapO (fun c => Parser.py_int [c]) (slice9 clean_str i)) (seq 0 9)
  end.

Definition grid_to_string (grid : list (list Z)) : list Parser.text :=
  map (fun row => concat (map Sudoku.str_Z row)) grid.

End Generator.

(** A text given line by line, each line closed by a line feed. *)
Definition text_of_lines (ls : list string) : Parser.text :=
  concat (map (fun l => list_ascii_of_string l ++ [Sudoku.newline]) ls).

(** A literal agrees with an assignment when its variable is assigned the
    literal's polarity; an assignment is a model of a clause list when every
    clause holds such a literal. *)
Definition lit_true (a : gmap Z bool) (l : Z) : Prop := a !! Z.abs l = Some (0 <? l).
Definition clause_true (a : gmap Z bool) (c : list Z) : Prop := exists l, In l c /\ lit_true a l.
Definition model_of (a : gmap Z bool) (cls : list (list Z)) : Prop :=
  forall c, In c cls -> clause_true a c.

(** Vocabulary of the statements about text. A character is [plain] when it
    is neither blank nor a line end; a [token] is a non-empty run of plain
    characters. *)
Definition plain (c : ascii) : Prop :=
  Parser.is_space c = false /\ Parser.is_newline c = false.

Definition digitlike (c : ascii) : Prop :=
  exists d, Parser.digit_of c = Some d /\ Ascii.eqb c "-" = false /\ Ascii.eqb c "+" = false
            /\ plain c /\ Ascii.eqb c "c" = false /\ Ascii.eqb c "p" = false.

Definition token (t : Parser.text) : Prop := t <> [] /\ Forall plain t.

Definition keep (v : Parser.text) : bool := negb (Parser.text_eqb v Parser.zero_token).

Definition add_clause (f : Parser.CNFFormula) (lits : list Z) : Parser.CNFFormula :=
  {| Parser.num_vars := Parser.num_vars f; Parser.num_clauses := Parser.num_clauses f;
     Parser.clauses := Parser.clauses f ++ [lits] |}.

(** A clause row as DIMACS text: the literals in decimal, blank separated,
    with the terminator [0] when [terminated]; no line end. *)
Definition row_text (lits : list Z) (terminated : bool) : Parser.text :=
  Sudoku.join_space (map Sudoku.str_Z lits
                     ++ if terminated then [Parser.zero_token] else []).

(** A clause the writer and the parser agree on: at least one literal, none
    of them zero. *)
Definition proper_clause (c : list Z) : Prop := c <> [] /\ Forall (fun z => z <> 0) c.

(** The clue clauses of a grid, cell by cell in row-major order. *)
Definition clues_of (puzzle : list (list Z)) : list (list Z) :=
  flat_map (fun r =>
    flat_map (fun c => match Sudoku.cell puzzle r c with
                       | Done v => if v =? 0 then []
                                   else [[Sudoku.var_index (Z.of_nat r) (Z.of_nat c) v]]
                       | _ => []
                       end) (seq 0 9)) (seq 0 9).

(** A 9 by 9 grid of digits, 0 for an empty cell. *)
Definition grid9 (puzzle : list (list Z)) : Prop :=
  length puzzle = 9%nat
  /\ Forall (fun row => length row = 9%nat /\ Forall (fun v => 0 <= v <= 9) row) puzzle.

(** A toy generator for examples: the state is a counter, every draw
    returns it (reduced to the range asked for) and steps it. *)
Definition counter_rng : Rng :=
  {| gen := nat;
     randbelow := fun n g => ((g mod n)%nat, S g);
     random := fun g => (0.5%float, S g);
     seed := fun n => Z.to_nat n |}.

(** The DIMACS text of the empty formula. *)
Definition empty_formula_text : Parser.text := list_ascii_of_string "p cnf 0 0".

(** A formula over five variables for examples: one clause three times and
    an implication pair. *)
Definition padded_formula_text : Parser.text :=
  text_of_lines ["p cnf 5 5"; "1 2 3 0"; "1 2 3 0"; "1 2 3 0"; "-4 5 0"; "-4 -5 0"]%string.

(** The status field of a result record. *)
Definition status_of (r : record) : option pyval := field "status" r.

(** The state a visit of one watching clause leaves. *)
Definition visit_state (v : CDCL.visit) : CDCL.SolverState :=
  match v with
  | CDCL.VisitNext st => st
  | CDCL.VisitImplied st _ => st
  | CDCL.VisitConflict st _ => st
  end.

Definition nonempty_clauses (cls : list (list Z)) : Prop := Forall (fun c => c <> []) cls.

(** States for examples: a state with nothing in it, and the state
    [initialize_state] builds for a clause list. *)
Definition blank_state : CDCL.SolverState :=
  {| CDCL.formula := []; CDCL.assignment := ∅; CDCL.decision_levels := ∅; CDCL.reason := ∅;
     CDCL.level_literals := []; CDCL.watches := ∅; CDCL.watch_map := ∅; CDCL.vsids := ∅;
     CDCL.queue := {| CDCL.heap := []; CDCL.entries := ∅ |}; CDCL.phase := ∅;
     CDCL.decision_level := 0; CDCL.decay := CDCL.decay_default |}.

Definition start_state (cls : list (list Z)) : CDCL.SolverState :=
  match CDCL.initialize_state cls with
  | Done st => st
  | _ => blank_state
  end.

(** The variables of a clause list. *)
Definition variables (cls : list (list Z)) : gset Z :=
  list_to_set (map Z.abs (concat cls)).

(** Well-formedness of a CDCL state over the variable set [Vs]: the
    assignment and the level table have the same keys, every level is
    between 0 and the current one, every level from 1 to the current one
    holds a variable, and all variables in sight belong to [Vs]. *)
Record wf (Vs : gset Z) (st : CDCL.SolverState) : Prop := {
  wf_dom : forall v, CDCL.assignment st !! v = None <-> CDCL.decision_levels st !! v = None;
  wf_levels : forall v k, CDCL.decision_levels st !! v = Some k -> 0 <= k <= CDCL.decision_level st;
  wf_witness : forall k, 1 <= k <= CDCL.decision_level st ->
                         exists v, CDCL.decision_levels st !! v = Some k;
  wf_level0 : 0 <= CDCL.decision_level st;
  wf_assigned : forall v k, CDCL.decision_levels st !! v = Some k -> v ∈ Vs;
  wf_formula : forall c l, In c (CDCL.formula st) -> In l c -> Z.abs l ∈ Vs;
  wf_reason : forall v c l, CDCL.reason st !! v = Some c -> In l c -> Z.abs l ∈ Vs;
  wf_watch : forall i w1 w2, CDCL.watch_map st !! i = Some (w1, w2) ->
                             Z.abs w1 ∈ Vs /\ Z.abs w2 ∈ Vs;
  wf_heap : forall x, In x (CDCL.heap (CDCL.queue st)) -> snd x ∈ Vs;
  wf_vsids : forall v s, CDCL.vsids st !! v = Some s -> v ∈ Vs
}.

(** The score table and the heap mention variables of [Vs] only. *)
Definition scores_over (Vs : gset Z) (acc : gmap Z float * CDCL.PriorityQueue) : Prop :=
  (forall v s, fst acc !! v = Some s -> v ∈ Vs)
  /\ (forall x, In x (CDCL.heap (snd acc)) -> snd x ∈ Vs).

(** A generator whose [randbelow n] stays below [n], as Python's does. *)
Definition rng_in_range (R : Rng) : Prop :=
  forall n g, (0 < n)%nat -> (fst (randbelow R n g) < n)%nat.

(** The keys of a local-search assignment over [n] variables. *)
Definition total_on (n : Z) (a : gmap Z bool) : Prop :=
  forall v, is_Some (a !! v) <-> 1 <= v <= n.

(** The counters of a local-search record, against the budget of the run:
    at most [max_flips] flips for each attempt made. *)
Definition within_budget (max_flips restarts : Z) (r : record) : Prop :=
  exists fl k,
    field "flips" r = Some (VInt fl) /\ field "restarts" r = Some (VInt k)
    /\ 0 <= k <= Z.max 0 restarts
    /\ 0 <= fl <= Z.max 0 max_flips * Z.max 0 restarts
    /\ fl <= Z.max 0 max_flips * (k + 1).

(** A clause file without a problem line. *)
Definition headless_text : Parser.text := text_of_lines ["1 2 0"; "-1 2 0"]%string.

(** What one attempt may do to the counters: at most [m] flips, no restart;
    and an assignment it returns leaves no clause unsatisfied. *)
Definition attempt_ok (clauses : list (list Z)) (m : Z) (stats : LocalSearch.SolverStats)
  (r : option (gmap Z bool)) (stats' : LocalSearch.SolverStats) : Prop :=
  (forall a, r = Some a -> LocalSearch.unsatisfied_clauses clauses a = [])
  /\ LocalSearch.flips stats <= LocalSearch.flips stats' <= LocalSearch.flips stats + m
  /\ LocalSearch.restarts stats' = LocalSearch.restarts stats.

(** No literal is 0. *)
Definition nonzero_clauses (cls : list (list Z)) : Prop :=
  forall c l, In c cls -> In l c -> l <> 0.

(** Every clause of [cur] is part of a clause of [cls]. *)
Definition drawn_from (cur cls : list (list Z)) : Prop :=
  forall c, In c cur -> exists c0, In c0 cls /\ incl c c0.

(** The clauses [orig] are accounted for by the reduced clauses [cur] and
    the assignment [a]: each is satisfied already or still has a part of
    it among [cur]. *)
Definition covers (orig cur : list (list Z)) (a : gmap Z bool) : Prop :=
  forall c, In c orig ->
    Harness.clause_satisfied c a = true \/ exists c', In c' cur /\ incl c' c.

(** The clauses mention unassigned variables only. *)
Definition unassigned_in (cur : list (list Z)) (a : gmap Z bool) : Prop :=
  forall c l, In c cur -> In l c -> a !! Z.abs l = None.

(** Truth under a total valuation of the variables. *)
Definition lit_holds (M : Z -> bool) (l : Z) : bool := lit_sat l (M (Z.abs l)).
Definition holds (M : Z -> bool) (c : list Z) : bool := existsb (lit_holds M) c.
Definition models (M : Z -> bool) (cls : list (list Z)) : Prop :=
  forall c, In c cls -> holds M c = true.

(** The valuation that completes an assignment with [False]. *)
Definition valuation (a : gmap Z bool) : Z -> bool := fun v => default false (a !! v).

(** The size of a clause list: its clauses plus their literals. *)
Definition weight (cls : list (list Z)) : nat :=
  fold_right (fun c n => (S (length c) + n)%nat) 0%nat cls.

(** An unsatisfiable formula for examples: the four clauses over two
    variables. *)
Definition unsat_formula_text : Parser.text :=
  text_of_lines ["p cnf 2 4"; "1 2 0"; "-1 -2 0"; "1 -2 0"; "-1 2 0"]%string.

(** The number of filled cells of a grid. *)
Definition givens (puzzle : list (list Z)) : nat :=
  length (List.filter (fun v => negb (v =? 0)) (concat puzzle)).

(** A sample puzzle, as the text of an input file. *)
Definition sample_puzzle_text : Parser.text :=
  text_of_lines ["530070000"; "600195000"; "098000060"; "800060003"; "400803001";
                 "700020006"; "060000280"; "000419005"; "000080079"]%string.

(** The lines of a list that are not empty. *)
Definition drop_empty (ls : list Parser.text) : list Parser.text :=
  List.filter (fun l => match l with [] => false | _ => true end) ls.

(** A text whose only line ends are LF and CR: it holds no VT, FF, FS, GS,
    RS or NEL. *)
Definition plain_line_ends (data : Parser.text) : Prop :=
  forall c, In c data -> Parser.is_linebreak c = true -> Parser.is_newline c = true.

(** A text with a form feed inside a clause line. *)
Definition form_feed_text : Parser.text :=
  list_ascii_of_string "p cnf 3 1" ++ [Sudoku.newline]
  ++ list_ascii_of_string "1 2" ++ [ascii_of_nat 12] ++ list_ascii_of_string "3 0"
  ++ [Sudoku.newline].

(** A text with a NEL (U+0085) inside a clause line. *)
Definition next_line_text : Parser.text :=
  list_ascii_of_string "1 2" ++ [ascii_of_nat 133] ++ list_ascii_of_string "3 4"
  ++ [Sudoku.newline].

(** *** Sudoku grids and the rules of the game *)

(** The digit in a cell, 0 outside the grid. *)
Definition value_at (g : list (list Z)) (r c : nat) : Z :=
  match Sudoku.cell g r c with
  | Done v => v
  | _ => 0
  end.

(** The 27 units: rows, columns and boxes, as lists of cells. *)
Definition units : list (list (nat * nat)) :=
  map (fun r => map (fun c => (r, c)) (seq 0 9)) (seq 0 9)
  ++ map (fun c => map (fun r => (r, c)) (seq 0 9)) (seq 0 9)
  ++ flat_map (fun br =>
       map (fun bc =>
         flat_map (fun dr => map (fun dc => (br + dr, bc + dc)%nat) (seq 0 3)) (seq 0 3))
         [0; 3; 6]%nat) [0; 3; 6]%nat.

Definition unit_values (g : list (list Z)) (u : list (nat * nat)) : list Z :=
  map (fun p => value_at g (fst p) (snd p)) u.

(** [v] occurs exactly once in [vals]. *)
Definition once (vals : list Z) (v : Z) : bool :=
  Nat.eqb (count_occ Z.eq_dec vals v) 1.

(** A solved grid: every cell holds a digit from 1 to 9 and every digit
    occurs exactly once in every row, column and box. *)
Definition solved (g : list (list Z)) : bool :=
  forallb (fun r => forallb (fun c => (1 <=? value_at g r c) && (value_at g r c <=? 9))
                            (seq 0 9)) (seq 0 9)
  && forallb (fun u => forallb (once (unit_values g u)) Sudoku.DIGITS) units.

(** [g] keeps the filled cells of [puzzle]. *)
Definition extends (g puzzle : list (list Z)) : bool :=
  forallb (fun r => forallb (fun c => (value_at puzzle r c =? 0)
                                      || (value_at g r c =? value_at puzzle r c))
                            (seq 0 9)) (seq 0 9).

(** The assignment that tells a grid: variable [81 r + 9 c + v] is true
    exactly when cell [(r, c)] holds [v]. *)
Definition told_by (g : list (list Z)) (x : Z) : bool :=
  value_at g (Z.to_nat ((x - 1) / 81)) (Z.to_nat (((x - 1) mod 81) / 9)) =? (x - 1) mod 9 + 1.

Definition grid_assignment (g : list (list Z)) : gmap Z bool :=
  list_to_map (map (fun x => (x, told_by g x)) (map Z.of_nat (seq 1 729))).

(** The grid an assignment tells: in each cell the first digit whose
    variable is true, 0 when there is none. *)
Definition digit_of_cell (a : gmap Z bool) (r c : nat) : Z :=
  match find (fun v => bool_decide (a !! Sudoku.var_index (Z.of_nat r) (Z.of_nat c) v = Some true))
             Sudoku.DIGITS with
  | Some v => v
  | None => 0
  end.

Definition grid_of (a : gmap Z bool) : list (list Z) :=
  map (fun r => map (fun c => digit_of_cell a r c) (seq 0 9)) (seq 0 9).

(** Exactly one variable of a group is true: the group itself as a clause,
    and a clause against every two of its members. *)
Definition pairs (G : list Z) : list (list Z) :=
  flat_map (fun i => map (fun j => [- nth i G 0; - nth j G 0])
                         (seq (S i) (length G - S i))) (seq 0 (length G)).

Definition group_clauses (G : list Z) : list (list Z) := G :: pairs G.

(** The variables of a cell, and those of a digit in a unit. *)
Definition cell_group (p : nat * nat) : list Z :=
  map (fun v => Sudoku.var_index (Z.of_nat (fst p)) (Z.of_nat (snd p)) v) Sudoku.DIGITS.

Definition unit_group (u : list (nat * nat)) (v : Z) : list Z :=
  map (fun p => Sudoku.var_index (Z.of_nat (fst p)) (Z.of_nat (snd p)) v) u.

Definition all_cells : list (nat * nat) :=
  flat_map (fun r => map (fun c => (r, c)) (seq 0 9)) (seq 0 9).

(** The solution of the sample puzzle. *)
Definition sample_solution : list (list Z) :=
  [[5; 3; 4; 6; 7; 8; 9; 1; 2]; [6; 7; 2; 1; 9; 5; 3; 4; 8]; [1; 9; 8; 3; 4; 2; 5; 6; 7];
   [8; 5; 9; 7; 6; 1; 4; 2; 3]; [4; 2; 6; 8; 5; 3; 7; 9; 1]; [7; 1; 3; 9; 2; 4; 8; 5; 6];
   [9; 6; 1; 5; 3; 7; 2; 8; 4]; [2; 8; 7; 4; 1; 9; 6; 3; 5]; [3; 4; 5; 2; 8; 6; 1; 7; 9]].

Definition sample_puzzle : list (list Z) :=
  [[5; 3; 0; 0; 7; 0; 0; 0; 0]; [6; 0; 0; 1; 9; 5; 0; 0; 0]; [0; 9; 8; 0; 0; 0; 0; 6; 0];
   [8; 0; 0; 0; 6; 0; 0; 0; 3]; [4; 0; 0; 8; 0; 3; 0; 0; 1]; [7; 0; 0; 0; 2; 0; 0; 0; 6];
   [0; 6; 0; 0; 0; 0; 2; 8; 0]; [0; 0; 0; 4; 1; 9; 0; 0; 5]; [0; 0; 0; 0; 8; 0; 0; 7; 9]].

(** Two unit clauses that contradict each other. *)
Definition clashing_units_text : Parser.text :=
  text_of_lines ["p cnf 2 3"; "1 0"; "2 -1 0"; "-1 0"]%string.

(** * Properties *)

(** ** The decimal printer and [int()] *)

Section Decimal_roundtrip.
Import Parser Sudoku.

Lemma digit_char_like d : 0 <= d <= 9 -> digitlike (digit_char d) /\ digit_of (digit_char d) = Some d.
Proof.
  intros H.
  assert (d = 0 \/ d = 1 \/ d = 2 \/ d = 3 \/ d = 4 \/ d = 5 \/ d = 6 \/ d = 7 \/ d = 8 \/ d = 9)
    as Hd by lia.
  repeat (destruct Hd as [-> | Hd]); try subst d;
    (split; [eexists; repeat split; reflexivity | reflexivity]).
Qed.

Lemma uint_chars_digitlike u : Forall digitlike (uint_chars u).
Proof.
  induction u; simpl; constructor; auto; apply digit_char_like; lia.
Qed.

Lemma int_digits_acc u acc :
  int_digits (Zpos acc) AfterDigit (uint_chars u) = Some (Zpos (Pos.of_uint_acc u acc)).
Proof.
  revert acc. induction u; intros acc; simpl uint_chars; [reflexivity | ..];
    cbn [int_digits];
    match goal with
    | |- context [digit_of (digit_char ?k)] =>
        replace (digit_of (digit_char k)) with (Some k) by reflexivity
    end; cbv iota beta; cbn [Pos.of_uint_acc];
    match goal with
    | |- int_digits ?z _ _ = Some (Zpos (Pos.of_uint_acc _ ?q)) =>
        replace z with (Zpos q) by lia
    end; apply IHu.
Qed.

Lemma int_digits_uint u st :
  (u <> Decimal.Nil \/ st = AfterDigit) ->
  int_digits 0 st (uint_chars u) = Some (Z.of_N (Pos.of_uint u)).
Proof.
  revert st. induction u; intros st Hst; simpl uint_chars.
  - destruct Hst as [Hst | ->]; [congruence | reflexivity].
  - cbn [int_digits]. replace (digit_of (digit_char 0)) with (Some 0) by reflexivity.
    cbv iota beta. change (10 * 0 + 0) with 0. simpl Pos.of_uint. apply IHu. now right.
  - cbn [int_digits]. replace (digit_of (digit_char 1)) with (Some 1) by reflexivity.
    cbv iota beta. change (10 * 0 + 1) with (Zpos 1). rewrite int_digits_acc. reflexivity.
  - cbn [int_digits]. replace (digit_of (digit_char 2)) with (Some 2) by reflexivity.
    cbv iota beta. change (10 * 0 + 2) with (Zpos 2). rewrite int_digits_acc. reflexivity.
  - cbn [int_digits]. replace (digit_of (digit_char 3)) with (Some 3) by reflexivity.
    cbv iota beta. change (10 * 0 + 3) with (Zpos 3). rewrite int_digits_acc. reflexivity.
  - cbn [int_digits]. replace (digit_of (digit_char 4)) with (Some 4) by reflexivity.
    cbv iota beta. change (10 * 0 + 4) with (Zpos 4). rewrite int_digits_acc. reflexivity.
  - cbn [int_digits]. replace (digit_of (digit_char 5)) with (Some 5) by reflexivity.
    cbv iota beta. change (10 * 0 + 5) with (Zpos 5). rewrite int_digits_acc. reflexivity.
  - cbn [int_digits]. replace (digit_of (digit_char 6)) with (Some 6) by reflexivity.
    cbv iota beta. change (10 * 0 + 6) with (Zpos 6). rewrite int_digits_acc. reflexivity.
  - cbn [int_digits]. replace (digit_of (digit_char 7)) with (Some 7) by reflexivity.
    cbv iota beta. change (10 * 0 + 7) with (Zpos 7). rewrite int_digits_acc. reflexivity.
  - cbn [int_digits]. replace (digit_of (digit_char 8)) with (Some 8) by reflexivity.
    cbv iota beta. change (10 * 0 + 8) with (Zpos 8). rewrite int_digits_acc. reflexivity.
  - cbn [int_digits]. replace (digit_of (digit_char 9)) with (Some 9) by reflexivity.
    cbv iota beta. change (10 * 0 + 9) with (Zpos 9). rewrite int_digits_acc. reflexivity.
Qed.

Lemma pos_to_uint_not_nil p : Pos.to_uint p <> Decimal.Nil.
Proof.
  intros H. pose proof (DecimalPos.Unsigned.of_to p) as E. rewrite H in E. discriminate.
Qed.

Lemma py_int_digits s :
  Forall digitlike s -> s <> [] -> py_int s = match int_digits 0 AtStart s with
                                             | Some z => Done z
                                             | None => Raised ValueError
                                             end.
Proof.
  intros Hs Hne. destruct s as [| c s]; [congruence |].
  inversion Hs as [| ? ? (d & _ & Hm & Hp & _) _]; subst.
  unfold py_int. rewrite Hm, Hp. reflexivity.
Qed.

(** [int(str(z)) = z] *)
Lemma py_int_str_Z z : py_int (str_Z z) = Done z.
Proof.
  unfold str_Z. destruct z as [| p | p]; simpl Z.to_int.
  - reflexivity.
  - rewrite py_int_digits.
    + rewrite int_digits_uint by (left; apply pos_to_uint_not_nil).
      rewrite DecimalPos.Unsigned.of_to. reflexivity.
    + apply uint_chars_digitlike.
    + intros H. pose proof (pos_to_uint_not_nil p) as Hn.
      destruct (Pos.to_uint p); simpl in H; congruence.
  - unfold py_int. replace (Ascii.eqb "-" "-") with true by reflexivity.
    rewrite int_digits_uint by (left; apply pos_to_uint_not_nil).
    rewrite DecimalPos.Unsigned.of_to. reflexivity.
Qed.

Lemma minus_plain : plain "-"%char.
Proof. split; reflexivity. Qed.

Lemma digitlike_plain c : digitlike c -> plain c.
Proof. intros (d & _ & _ & _ & H & _). exact H. Qed.

Lemma str_Z_token z : token (str_Z z).
Proof.
  split.
  - intros H. pose proof (py_int_str_Z z) as E. rewrite H in E. discriminate.
  - unfold str_Z. destruct (Z.to_int z); [| constructor; [apply minus_plain |]];
      (eapply Forall_impl; [apply uint_chars_digitlike |]); apply digitlike_plain.
Qed.

Lemma str_Z_zero z : str_Z z = zero_token -> z = 0.
Proof.
  intros H. pose proof (py_int_str_Z z) as E. rewrite H in E.
  change (py_int zero_token) with (Done (A := Z) 0) in E. congruence.
Qed.

(** The first character of [str(z)] opens neither a comment nor a header. *)
Lemma str_Z_head z :
  exists c s, str_Z z = c :: s /\ is_space c = false
              /\ Ascii.eqb c "c" = false /\ Ascii.eqb c "p" = false.
Proof.
  destruct (str_Z_token z) as [Hne _].
  unfold str_Z in *. destruct (Z.to_int z) as [u | u].
  - pose proof (uint_chars_digitlike u) as Hu.
    destruct (uint_chars u) as [| c s]; [congruence |].
    inversion Hu as [| ? ? (d & _ & _ & _ & [Hp _] & Hc & Hpp) _]; subst.
    exists c, s. auto.
  - eexists _, _. split; [reflexivity |]. repeat split; reflexivity.
Qed.

End Decimal_roundtrip.

(** ** Lines, tokens and the parser on written rows *)

Section Rows.
Import Parser Sudoku.

Lemma split_from_run tok cur s :
  Forall plain tok -> split_from cur (tok ++ s) = split_from (rev tok ++ cur) s.
Proof.
  revert cur. induction tok as [| c tok IH]; intros cur H; [reflexivity |].
  inversion H as [| ? ? [Hc _] Htok]; subst. simpl. rewrite Hc.
  rewrite IH by assumption. now rewrite <- app_assoc.
Qed.

Lemma split_from_token t : token t -> split_from [] t = [t].
Proof.
  intros [Hne Hp]. rewrite <- (app_nil_r t) at 1.
  rewrite split_from_run by assumption. rewrite app_nil_r. simpl.
  destruct (rev t) eqn:E.
  - apply (f_equal (@rev ascii)) in E. rewrite rev_involutive in E. simpl in E. congruence.
  - rewrite <- E. now rewrite rev_involutive.
Qed.

Lemma split_from_token_space t s :
  token t -> split_from [] (t ++ space :: s) = t :: split_from [] s.
Proof.
  intros [Hne Hp]. rewrite split_from_run by assumption. rewrite app_nil_r. simpl.
  destruct (rev t) eqn:E.
  - apply (f_equal (@rev ascii)) in E. rewrite rev_involutive in E. simpl in E. congruence.
  - rewrite <- E. now rewrite rev_involutive.
Qed.

(** [" ".join(tokens).split() == tokens] *)
Lemma split_join toks : Forall token toks -> split (join_space toks) = toks.
Proof.
  unfold split. induction toks as [| t toks IH]; intros H; [reflexivity |].
  inversion H as [| ? ? Ht Htoks]; subst.
  destruct toks as [| t2 toks].
  - simpl. now apply split_from_token.
  - change (join_space (t :: t2 :: toks)) with (t ++ space :: join_space (t2 :: toks)).
    rewrite split_from_token_space by assumption. now rewrite IH.
Qed.

Lemma join_space_snoc toks t :
  toks <> [] -> join_space (toks ++ [t]) = join_space toks ++ space :: t.
Proof.
  induction toks as [| t1 toks IH]; intros Hne; [congruence |].
  destruct toks as [| t2 toks]; [reflexivity |].
  change (join_space ((t1 :: t2 :: toks) ++ [t]))
    with (t1 ++ space :: join_space ((t2 :: toks) ++ [t])).
  rewrite IH by discriminate.
  change (join_space (t1 :: t2 :: toks)) with (t1 ++ space :: join_space (t2 :: toks)).
  now rewrite <- app_assoc.
Qed.

Lemma join_space_no_newline toks :
  Forall token toks -> Forall (fun c => is_newline c = false) (join_space toks).
Proof.
  induction toks as [| t toks IH]; intros H; [constructor |].
  inversion H as [| ? ? [_ Ht] Htoks]; subst.
  assert (Forall (fun c => is_newline c = false) t) as Ht'.
  { eapply Forall_impl; [exact Ht |]. now intros c [_ Hc]. }
  destruct toks as [| t2 toks]; [exact Ht' |].
  change (join_space (t :: t2 :: toks)) with (t ++ space :: join_space (t2 :: toks)).
  apply Forall_app. split; [exact Ht' |]. constructor; [reflexivity | now apply IH].
Qed.

Lemma lines_from_line l cur s :
  Forall (fun c => is_newline c = false) l ->
  lines_from cur (l ++ newline :: s) = (rev cur ++ l) :: lines_from [] s.
Proof.
  revert cur. induction l as [| c l IH]; intros cur H.
  - simpl. now rewrite app_nil_r.
  - inversion H as [| ? ? Hc Hl]; subst. simpl. rewrite Hc.
    rewrite IH by assumption. simpl. now rewrite <- app_assoc.
Qed.

Lemma strip_id s :
  (exists c s', s = c :: s' /\ is_space c = false) ->
  (exists pre d, s = pre ++ [d] /\ is_space d = false) ->
  strip s = s.
Proof.
  intros (c & s' & -> & Hc) (pre & d & E & Hd). unfold strip.
  simpl lstrip at 2. rewrite Hc. rewrite E, rev_app_distr. simpl. rewrite Hd.
  change (d :: rev pre) with ([d] ++ rev pre). rewrite rev_app_distr, rev_involutive.
  reflexivity.
Qed.

Lemma token_ends t :
  token t ->
  (exists c s', t = c :: s' /\ is_space c = false)
  /\ (exists pre d, t = pre ++ [d] /\ is_space d = false).
Proof.
  intros [Hne Hp]. split.
  - destruct t as [| c s']; [congruence |]. inversion Hp as [| ? ? [Hc _] _]; subst. eauto.
  - destruct (exists_last Hne) as (pre & d & ->).
    apply Forall_app in Hp as [_ Hd]. inversion Hd as [| ? ? [Hd' _] _]; subst. eauto.
Qed.

Lemma join_space_ends toks :
  Forall token toks -> toks <> [] ->
  (exists c s', join_space toks = c :: s' /\ is_space c = false)
  /\ (exists pre d, join_space toks = pre ++ [d] /\ is_space d = false).
Proof.
  intros H Hne. split.
  - destruct toks as [| t toks]; [congruence |].
    inversion H as [| ? ? Ht _]; subst.
    destruct (token_ends t Ht) as [(c & s' & -> & Hc) _].
    destruct toks; simpl; eauto.
  - destruct (exists_last Hne) as (front & t & ->).
    apply Forall_app in H as [_ Ht]. inversion Ht as [| ? ? Ht' _]; subst.
    destruct (token_ends t Ht') as [_ (pre & d & -> & Hd)].
    destruct front as [| t1 front].
    + simpl. eauto.
    + rewrite join_space_snoc by discriminate.
      exists (join_space (t1 :: front) ++ space :: pre), d. split; [| assumption].
      now rewrite <- app_assoc.
Qed.

Lemma strip_join toks : Forall token toks -> toks <> [] -> strip (join_space toks) = join_space toks.
Proof. intros H Hne. apply strip_id; now apply join_space_ends. Qed.

Lemma zero_token_token : token zero_token.
Proof. split; [discriminate |]. repeat constructor. Qed.

Lemma mapO_py_int_str lits : mapO py_int (map str_Z lits) = Done lits.
Proof.
  induction lits as [| z lits IH]; [reflexivity |].
  simpl. rewrite py_int_str_Z. simpl. rewrite IH. reflexivity.
Qed.

Lemma filter_keep_str lits :
  Forall (fun z => z <> 0) lits -> filter keep (map str_Z lits) = map str_Z lits.
Proof.
  induction 1 as [| z lits Hz _ IH]; [reflexivity |].
  simpl map. rewrite filter_cons_True, IH; [reflexivity |].
  unfold keep, text_eqb. apply negb_prop_intro. rewrite bool_decide_spec.
  intros E. apply Hz, str_Z_zero, E.
Qed.

Lemma filter_keep_zeros k : filter keep (repeat zero_token k) = [].
Proof.
  induction k as [| k IH]; [reflexivity |].
  simpl repeat. rewrite filter_cons_False; [exact IH |].
  unfold keep, text_eqb. rewrite bool_decide_eq_true_2 by reflexivity. simpl. tauto.
Qed.

(** A line of one or more non-zero literals, followed by any number of
    terminators, is read as the clause of exactly these literals. *)
Lemma parse_line_row f lits k :
  lits <> [] -> Forall (fun z => z <> 0) lits ->
  parse_line f (join_space (map str_Z lits ++ repeat zero_token k)) = Done (add_clause f lits).
Proof.
  intros Hne Hnz.
  assert (Forall token (map str_Z lits ++ repeat zero_token k)) as Htok.
  { apply Forall_app. split.
    - apply Forall_map. apply Forall_forall. intros; apply str_Z_token.
    - apply Forall_forall. intros t Ht. apply list_elem_of_In, repeat_spec in Ht. subst.
      apply zero_token_token. }
  assert (map str_Z lits ++ repeat zero_token k <> []) as Hne'.
  { destruct lits; [congruence | discriminate]. }
  unfold parse_line. rewrite strip_join by assumption.
  destruct lits as [| z lits]; [congruence |].
  destruct (str_Z_head z) as (c & s & Ez & Hsp & Hc & Hp).
  assert (exists tl, join_space (map str_Z (z :: lits) ++ repeat zero_token k) = c :: tl) as [tl Etl].
  { simpl map. rewrite Ez. simpl app. destruct (map str_Z lits ++ repeat zero_token k); simpl; eauto. }
  pose proof (split_join _ Htok) as Hsplit.
  rewrite Etl in *. cbn [startswith]. rewrite Hc, Hp.
  rewrite Hsplit. fold keep.
  rewrite filter_app, filter_keep_str, filter_keep_zeros, app_nil_r by assumption.
  rewrite mapO_py_int_str. simpl. reflexivity.
Qed.

Lemma parse_line_blank f : parse_line f [] = Done f.
Proof. reflexivity. Qed.

Lemma parse_line_header f n :
  parse_line f (list_ascii_of_string "p cnf " ++ str_Z (SIZE * SIZE * SIZE) ++ space :: str_Z n)
  = Done {| num_vars := 729; num_clauses := n; clauses := clauses f |}.
Proof.
  set (toks := [list_ascii_of_string "p"; list_ascii_of_string "cnf";
                str_Z (SIZE * SIZE * SIZE); str_Z n]).
  assert (Forall token toks) as Htok.
  { repeat constructor; try discriminate; try apply str_Z_token. }
  assert (list_ascii_of_string "p cnf " ++ str_Z (SIZE * SIZE * SIZE) ++ space :: str_Z n
          = join_space toks) as ->.
  { unfold toks. cbn [join_space list_ascii_of_string app]. reflexivity. }
  unfold parse_line. rewrite strip_join by (assumption || discriminate).
  pose proof (split_join _ Htok) as Hsplit.
  remember (join_space toks) as line eqn:El.
  assert (exists tl, line = "p"%char :: tl) as [tl ->].
  { subst line. unfold toks. cbn [join_space list_ascii_of_string app]. eauto. }
  cbn [startswith]. replace (Ascii.eqb "p" "c") with false by reflexivity.
  replace (Ascii.eqb "p" "p") with true by reflexivity.
  rewrite Hsplit. unfold toks. cbn [length nth Nat.leb].
  rewrite !py_int_str_Z. reflexivity.
Qed.

End Rows.

(** ** Round trip through the writer *)

Section Roundtrip.
Import Parser Sudoku.

Lemma clause_line_row c : c <> [] -> clause_line c = row_text c true ++ [newline].
Proof.
  intros Hne. unfold clause_line, row_text.
  rewrite join_space_snoc by (destruct c; [congruence | discriminate]).
  rewrite <- app_assoc. reflexivity.
Qed.

Lemma row_text_no_newline c b : Forall (fun x => is_newline x = false) (row_text c b).
Proof.
  apply join_space_no_newline, Forall_app. split.
  - apply Forall_map, Forall_forall. intros; apply str_Z_token.
  - destruct b; repeat constructor; try discriminate.
Qed.

Lemma parse_line_row_text f c b : proper_clause c -> parse_line f (row_text c b) = Done (add_clause f c).
Proof.
  intros [Hne Hnz]. unfold row_text.
  destruct b; [apply (parse_line_row f c 1) | apply (parse_line_row f c 0)]; assumption.
Qed.

Lemma with_clauses_nil f :
  f = {| num_vars := num_vars f; num_clauses := num_clauses f; clauses := clauses f ++ [] |}.
Proof. destruct f; simpl. now rewrite app_nil_r. Qed.

Lemma parse_written_rows cls f :
  Forall proper_clause cls ->
  foldO parse_line (lines_from [] (concat (map clause_line cls))) f
  = Done {| num_vars := num_vars f; num_clauses := num_clauses f; clauses := clauses f ++ cls |}.
Proof.
  intros H. revert f. induction H as [| c cls Hc _ IH]; intros f.
  - simpl. now rewrite <- with_clauses_nil.
  - simpl map. simpl concat. rewrite clause_line_row by apply Hc.
    rewrite <- app_assoc. simpl app.
    rewrite lines_from_line by apply row_text_no_newline.
    simpl. rewrite parse_line_row_text by assumption. simpl.
    rewrite IH. unfold add_clause. simpl. now rewrite <- app_assoc.
Qed.

Lemma header_line_split n rest :
  header_line n ++ rest
  = (list_ascii_of_string "p cnf " ++ str_Z (SIZE * SIZE * SIZE) ++ space :: str_Z (Z.of_nat n))
    ++ newline :: rest.
Proof.
  unfold header_line. rewrite <- !app_assoc. simpl. rewrite <- !app_assoc. reflexivity.
Qed.

Lemma header_no_newline n :
  Forall (fun x => is_newline x = false)
    (list_ascii_of_string "p cnf " ++ str_Z (SIZE * SIZE * SIZE) ++ space :: str_Z (Z.of_nat n)).
Proof.
  assert (forall z, Forall (fun x => is_newline x = false) (str_Z z)) as Hz.
  { intros z. destruct (str_Z_token z) as [_ Hp].
    eapply Forall_impl; [exact Hp |]. now intros x [_ Hx]. }
  apply Forall_app. split; [repeat constructor |].
  apply Forall_app. split; [apply Hz |]. constructor; [reflexivity | apply Hz].
Qed.

(** C7, as amended: writing a list of proper clauses (non-empty, no zero
    literal) and parsing the text back gives the same clause sequence, with
    [num_clauses] the number of clauses written. *)
Theorem write_parse_roundtrip (cls : list (list Z)) :
  Forall proper_clause cls ->
  parse_dimacs (write_dimacs cls)
  = Done {| num_vars := 729; num_clauses := Z.of_nat (length cls); clauses := cls |}.
Proof.
  intros H. unfold parse_dimacs, write_dimacs, lines.
  rewrite header_line_split, lines_from_line by apply header_no_newline.
  cbn [foldO rev app]. rewrite parse_line_header.
  cbn [mbind outcome_bind obind]. rewrite parse_written_rows by assumption.
  cbn [mbind outcome_bind obind num_clauses num_vars clauses app].
  destruct (Z.of_nat (length cls) =? 0) eqn:E; reflexivity.
Qed.

Lemma write_parse_roundtrip_witness :
  parse_dimacs (write_dimacs [[1; -2]; [3]])
  = Done {| num_vars := 729; num_clauses := 2; clauses := [[1; -2]; [3]] |}.
Proof.
  apply (write_parse_roundtrip [[1; -2]; [3]]).
  repeat constructor; discriminate.
Defined.

(** C7 as stated fails on a clause list holding the empty clause: it is
    written as the line [ 0], which the parser reads as no clause. *)
Lemma roundtrip_loses_empty_clause :
  Forall (Forall (fun z => z <> 0)) [[]]
  /\ parse_dimacs (write_dimacs [[]])
     = Done {| num_vars := 729; num_clauses := 1; clauses := [] |}
  /\ ([] : list (list Z)) <> [[]].
Proof. split; [repeat constructor | split; [vm_compute; reflexivity | discriminate]]. Qed.

End Roundtrip.

(** ** The parser reads one clause per line *)

Section Line_based.
Import Parser Sudoku.





End Line_based.

(** ** The Sudoku encoding *)

Section Sudoku_encoding.
Import Sudoku.

Lemma fixed_clauses_in_range :
  forallb (forallb (fun l => (1 <=? Z.abs l) && (Z.abs l <=? 729)))
          (cell_clauses ++ row_clauses ++ column_clauses ++ box_clauses) = true.
Proof. vm_compute. reflexivity. Qed.

Lemma clue_row_fold puzzle r cs acc :
  (forall c, In c cs -> exists v, cell puzzle r c = Done v) ->
  foldO (fun acc c =>
           value ← cell puzzle r c;
           Done (if value =? 0 then acc
                 else acc ++ [[var_index (Z.of_nat r) (Z.of_nat c) value]])) cs acc
  = Done (acc ++ flat_map (fun c => match cell puzzle r c with
                                    | Done v => if v =? 0 then []
                                                else [[var_index (Z.of_nat r) (Z.of_nat c) v]]
                                    | _ => []
                                    end) cs).
Proof.
  revert acc. induction cs as [| c cs IH]; intros acc H.
  - simpl. now rewrite app_nil_r.
  - destruct (H c (or_introl eq_refl)) as [v Hv]. simpl. rewrite Hv. simpl.
    rewrite IH by (intros; apply H; now right).
    destruct (v =? 0); simpl; [reflexivity | now rewrite <- app_assoc].
Qed.

Lemma clue_fold puzzle rs acc :
  (forall r c, In r rs -> In c (seq 0 9) -> exists v, cell puzzle r c = Done v) ->
  foldO (fun acc r =>
    foldO (fun acc c =>
      value ← cell puzzle r c;
      Done (if value =? 0 then acc else acc ++ [[var_index (Z.of_nat r) (Z.of_nat c) value]]))
      (seq 0 9) acc) rs acc
  = Done (acc ++ flat_map (fun r =>
            flat_map (fun c => match cell puzzle r c with
                               | Done v => if v =? 0 then []
                                           else [[var_index (Z.of_nat r) (Z.of_nat c) v]]
                               | _ => []
                               end) (seq 0 9)) rs).
Proof.
  revert acc. induction rs as [| r rs IH]; intros acc H.
  - simpl. now rewrite app_nil_r.
  - cbn [foldO]. rewrite clue_row_fold by (intros; apply H; [now left | assumption]).
    cbn [mbind outcome_bind obind]. rewrite IH by (intros; apply H; [now right | assumption]).
    cbn [flat_map]. now rewrite <- app_assoc.
Qed.

Lemma clue_clauses_spec puzzle :
  (forall r c, In r (seq 0 9) -> In c (seq 0 9) -> exists v, cell puzzle r c = Done v) ->
  clue_clauses puzzle = Done (clues_of puzzle).
Proof. intros H. unfold clue_clauses. now rewrite clue_fold. Qed.

Lemma grid9_cell puzzle r c :
  grid9 puzzle -> (r < 9)%nat -> (c < 9)%nat -> exists v, cell puzzle r c = Done v /\ 0 <= v <= 9.
Proof.
  intros [Hlen Hrows] Hr Hc. unfold cell.
  destruct (nth_error puzzle r) as [row |] eqn:Er.
  - assert (In row puzzle) as Hin by (eapply nth_error_In; eauto).
    rewrite Forall_forall in Hrows. apply list_elem_of_In, Hrows in Hin as [Hl Hv].
    destruct (nth_error row c) as [v |] eqn:Ec.
    + exists v. split; [reflexivity |].
      rewrite Forall_forall in Hv. apply Hv, list_elem_of_In. eapply nth_error_In; eauto.
    + apply nth_error_None in Ec. lia.
  - apply nth_error_None in Er. lia.
Qed.

Lemma var_index_range r c v :
  (r < 9)%nat -> (c < 9)%nat -> 1 <= v <= 9 ->
  1 <= var_index (Z.of_nat r) (Z.of_nat c) v <= 729.
Proof. unfold var_index, SIZE. lia. Qed.

(** C8: on a 9 by 9 grid of digits the encoder succeeds, every literal it
    emits has a variable id between 1 and 729, the id of "cell (r,c) holds v"
    is [81 r + 9 c + v], and each filled cell contributes its unit clause. *)
Theorem sudoku_encode_ids (puzzle : list (list Z)) :
  grid9 puzzle ->
  exists cls, encode puzzle = Done cls
    /\ (forall clause l, In clause cls -> In l clause -> 1 <= Z.abs l <= 729)
    /\ (forall r c v, (r < 9)%nat -> (c < 9)%nat -> cell puzzle r c = Done v -> v <> 0 ->
          var_index (Z.of_nat r) (Z.of_nat c) v = Z.of_nat r * 81 + Z.of_nat c * 9 + v
          /\ In [var_index (Z.of_nat r) (Z.of_nat c) v] cls).
Proof.
  intros G.
  assert (forall r c, In r (seq 0 9) -> In c (seq 0 9) -> exists v, cell puzzle r c = Done v) as Hcell.
  { intros r c Hr Hc. apply in_seq in Hr, Hc.
    destruct (grid9_cell puzzle r c G) as (v & Hv & _); [lia | lia | eauto]. }
  unfold encode. rewrite clue_clauses_spec by assumption.
  eexists. split; [reflexivity |]. split.
  - intros clause l Hcl Hl. rewrite !app_assoc in Hcl. apply in_app_or in Hcl as [Hcl | Hcl].
    + pose proof fixed_clauses_in_range as F. rewrite <- !app_assoc in Hcl.
      rewrite forallb_forall in F. specialize (F _ Hcl).
      rewrite forallb_forall in F. specialize (F _ Hl). lia.
    + unfold clues_of in Hcl. apply in_flat_map in Hcl as (r & Hr & Hcl).
      apply in_flat_map in Hcl as (c & Hc & Hcl). apply in_seq in Hr, Hc.
      destruct (grid9_cell puzzle r c G) as (v & Hv & Hrange); [lia | lia |].
      rewrite Hv in Hcl. destruct (v =? 0) eqn:E; [contradiction |].
      destruct Hcl as [<- | []]. destruct Hl as [<- | []].
      pose proof (var_index_range r c v). lia.
  - intros r c v Hr Hc Hv Hnz. split; [unfold var_index, SIZE; lia |].
    apply in_or_app; right. apply in_or_app; right. apply in_or_app; right.
    apply in_or_app; right. unfold clues_of.
    apply in_flat_map. exists r. split; [apply in_seq; lia |].
    apply in_flat_map. exists c. split; [apply in_seq; lia |].
    rewrite Hv. destruct (v =? 0) eqn:E; [lia | now left].
Qed.

Lemma sudoku_encode_ids_witness :
  exists cls, encode (repeat [5; 0; 0; 0; 0; 0; 0; 0; 9] 9) = Done cls
    /\ (forall clause l, In clause cls -> In l clause -> 1 <= Z.abs l <= 729)
    /\ (forall r c v, (r < 9)%nat -> (c < 9)%nat ->
          cell (repeat [5; 0; 0; 0; 0; 0; 0; 0; 9] 9) r c = Done v -> v <> 0 ->
          var_index (Z.of_nat r) (Z.of_nat c) v = Z.of_nat r * 81 + Z.of_nat c * 9 + v
          /\ In [var_index (Z.of_nat r) (Z.of_nat c) v] cls).
Proof.
  apply (sudoku_encode_ids (repeat [5; 0; 0; 0; 0; 0; 0; 0; 9] 9)).
  split; [reflexivity |]. simpl. repeat constructor; lia.
Defined.

End Sudoku_encoding.

(** ** The empty formula *)

Section Empty_formula.
Import LocalSearch.

Lemma parse_empty_formula :
  Parser.parse_dimacs empty_formula_text
  = Done {| Parser.num_vars := 0; Parser.num_clauses := 0; Parser.clauses := [] |}.
Proof. vm_compute. reflexivity. Qed.

(** DPLL-JW and CDCL answer SAT with the empty assignment. *)
Lemma empty_formula_complete_solvers fuel :
  (exists r, DPLL.run_solver (S fuel) empty_formula_text = Done r
             /\ status_of r = Some (VStr "SAT") /\ field "assignment" r = Some (VAssign ∅))
  /\ (exists r, CDCL.run_solver (S fuel) empty_formula_text = Done r
                /\ status_of r = Some (VStr "SAT") /\ field "assignment" r = Some (VAssign ∅)).
Proof.
  split; eexists; (split; [| split]);
    try (unfold DPLL.run_solver, CDCL.run_solver; rewrite parse_empty_formula; reflexivity);
    reflexivity.
Qed.

Lemma attempts_empty (R : Rng)
  (attempt : SolverStats -> gen R -> outcome (option (gmap Z bool) * SolverStats * gen R)) n :
  (forall stats g, exists r, attempt stats g = Done (r, stats, g) /\ (r = None \/ r = Some ∅)) ->
  forall stats g, exists r stats', attempts R attempt n stats g = Done (r, stats', g)
                                   /\ (r = None \/ r = Some ∅).
Proof.
  intros H. induction n as [| n IH]; intros stats g.
  - exists None, stats. split; [reflexivity | now left].
  - destruct (H stats g) as (r & E & [-> | ->]); simpl; rewrite E; simpl.
    + apply IH.
    + exists (Some ∅), stats. split; [reflexivity | now right].
Qed.

Lemma result_empty_unknown name f stats r :
  r = None \/ r = Some ∅ -> status_of (result name f stats r) = Some (VStr "UNKNOWN").
Proof. intros [-> | ->]; reflexivity. Qed.

(** C4 fails for the local-search solvers: on the empty formula WalkSAT and
    probSAT find the empty assignment at once and then report UNKNOWN,
    because [run_solver] tests the assignment for truth and the empty dict is
    false. This holds for every generator, seed and hyperparameter. *)
Theorem empty_formula_local_search (R : Rng) (math_pow : float -> Z -> float)
  (max_flips restarts : Z) (noise epsilon : float) (g : gen R) :
  (exists r, WalkSAT.run_solver R empty_formula_text max_flips noise restarts g = Done (r, g)
             /\ status_of r = Some (VStr "UNKNOWN"))
  /\ (exists r, ProbSAT.run_solver math_pow R empty_formula_text max_flips epsilon restarts g
                = Done (r, g)
                /\ status_of r = Some (VStr "UNKNOWN")).
Proof.
  split.
  - unfold WalkSAT.run_solver. rewrite parse_empty_formula. cbn [mbind outcome_bind obind].
    cbn [Parser.clauses Parser.num_vars].
    destruct (attempts_empty R (WalkSAT.walk_sat R [] 0 max_flips noise) (Z.to_nat restarts))
      with (stats := stats0) (g := g) as (r & stats' & E & Hr).
    { intros stats g0. unfold WalkSAT.walk_sat. simpl.
      destruct (Z.to_nat max_flips); simpl; eauto. }
    rewrite E. simpl. eexists. split; [reflexivity |]. now apply result_empty_unknown.
  - unfold ProbSAT.run_solver. rewrite parse_empty_formula. cbn [mbind outcome_bind obind].
    cbn [Parser.clauses Parser.num_vars].
    destruct (attempts_empty R (ProbSAT.prob_sat math_pow R [] 0 max_flips epsilon)
                (Z.to_nat restarts))
      with (stats := stats0) (g := g) as (r & stats' & E & Hr).
    { intros stats g0. unfold ProbSAT.prob_sat. simpl.
      destruct (Z.to_nat max_flips); simpl; eauto. }
    rewrite E. simpl. eexists. split; [reflexivity |]. now apply result_empty_unknown.
Qed.

End Empty_formula.

(** ** The fields of the result records *)

(** C5 fails for CDCL: its record carries no [num_vars] field, and its
    [num_clauses] is the length of the clause table after the search, learned
    clauses included (5 for the four clauses below). *)
Theorem cdcl_record_fields :
  (exists r, CDCL.run_solver 100 (text_of_lines ["p cnf 1 1"; "1 0"]%string) = Done r
             /\ field "num_vars" r = None)
  /\ (exists r, CDCL.run_solver 100
                  (text_of_lines ["p cnf 2 4"; "1 2 0"; "-1 -2 0"; "1 -2 0"; "-1 2 0"]%string)
                = Done r
                /\ field "num_vars" r = None
                /\ field "num_clauses" r = Some (VInt 5)).
Proof. split; eexists; split; try (vm_compute; reflexivity); split; reflexivity. Qed.

(** The other three entry points do carry both fields, with the values of
    the parsed formula. *)
Lemma dpll_record_fields fuel data r :
  DPLL.run_solver fuel data = Done r ->
  exists f, Parser.parse_dimacs data = Done f
            /\ field "num_vars" r = Some (VInt (Parser.num_vars f))
            /\ field "num_clauses" r = Some (VInt (Parser.num_clauses f)).
Proof.
  unfold DPLL.run_solver. destruct (Parser.parse_dimacs data) as [f | |]; try discriminate.
  cbn [mbind outcome_bind obind]. destruct (DPLL.dpll _ _ _ _) as [[[sat a] st] | |]; try discriminate.
  intros [= <-]. exists f. repeat split; reflexivity.
Qed.

(** ** The empty clause *)

Section Empty_clause.
Import Parser.

Lemma parse_line_no_empty f raw f' :
  parse_line f raw = Done f' -> ~ In [] (clauses f) -> ~ In [] (clauses f').
Proof.
  unfold parse_line. destruct (strip raw) as [| c line]; [now intros [= <-] |].
  destruct (startswith "c" (c :: line)); [now intros [= <-] |].
  destruct (startswith "p" (c :: line)).
  - destruct (4 <=? length (split (c :: line)))%nat; [| now intros [= <-]].
    destruct (py_int (nth 2 _ _)) as [nv | |]; try discriminate. cbn [mbind outcome_bind obind].
    destruct (py_int (nth 3 _ _)) as [nc | |]; try discriminate. cbn [mbind outcome_bind obind].
    now intros [= <-].
  - destruct (mapO _ _) as [lits | |]; try discriminate. cbn [mbind outcome_bind obind].
    destruct lits as [| l lits]; [now intros [= <-] |].
    intros [= <-] H. cbn [clauses]. intros Hin. apply in_app_or in Hin as [Hin | [Hin | []]].
    + now apply H.
    + discriminate.
Qed.

Lemma parse_fold_no_empty ls f f' :
  foldO parse_line ls f = Done f' -> ~ In [] (clauses f) -> ~ In [] (clauses f').
Proof.
  revert f. induction ls as [| raw ls IH]; intros f; [now intros [= <-] |].
  simpl. destruct (parse_line f raw) as [f1 | |] eqn:E; try discriminate.
  cbn [mbind outcome_bind obind]. intros Hf H. eapply IH; [exact Hf |].
  eapply parse_line_no_empty; eauto.
Qed.

(** No parsed formula holds the empty clause: a line of terminators alone
    adds nothing. *)
Lemma parse_dimacs_no_empty data f : parse_dimacs data = Done f -> ~ In [] (clauses f).
Proof.
  unfold parse_dimacs. destruct (foldO _ _ _) as [f0 | |] eqn:E; try discriminate.
  cbn [mbind outcome_bind obind]. intros [= <-].
  assert (~ In [] (clauses f0)) by (eapply parse_fold_no_empty; [exact E | simpl; tauto]).
  now destruct (num_clauses f0 =? 0).
Qed.

End Empty_clause.

Section Dpll_empty_clause.
Import DPLL.

Lemma mem_In x l : mem x l = true <-> In x l.
Proof.
  unfold mem. rewrite existsb_exists. split.
  - intros (y & Hy & E). apply Z.eqb_eq in E. now subst.
  - intros H. exists x. split; [assumption | apply Z.eqb_refl].
Qed.

Lemma reduce_clauses_keeps_empty l cs u :
  reduce_clauses l cs = Some u -> In [] cs -> In [] u.
Proof.
  revert u. induction cs as [| c cs IH]; intros u; [now intros _ [] |].
  intros Hu [-> | Hin].
  - simpl in Hu. destruct (reduce_clauses l cs) as [u' |]; [| discriminate].
    injection Hu as <-. now left.
  - simpl in Hu. destruct (mem l c); [now apply IH |].
    destruct (mem (- l) c).
    + destruct (filter _ c) as [| x red]; [discriminate |].
      destruct (reduce_clauses l cs) as [u' |]; [| discriminate].
      injection Hu as <-. right. now apply IH.
    + destruct (reduce_clauses l cs) as [u' |]; [| discriminate].
      injection Hu as <-. right. now apply IH.
Qed.

Lemma reduce_clauses_length l cs u :
  reduce_clauses l cs = Some u ->
  (length u <= length cs)%nat
  /\ ((exists c, In c cs /\ In l c) -> (length u < length cs)%nat).
Proof.
  revert u. induction cs as [| c cs IH]; intros u.
  - intros [= <-]. split; [reflexivity | now intros (c & [] & _)].
  - simpl. destruct (mem l c) eqn:E1.
    + intros Hu. destruct (IH _ Hu) as [Hle _]. split; [lia | intros _; lia].
    + assert (~ In l c) as Hnot by (rewrite <- mem_In, E1; discriminate).
      assert (forall u' x, reduce_clauses l cs = Some u' -> u = x :: u' ->
                (length u <= S (length cs))%nat
                /\ ((exists c0, In c0 (c :: cs) /\ In l c0) -> (length u < S (length cs))%nat)) as K.
      { intros u' x Hu' ->. destruct (IH _ Hu') as [Hle Hlt]. split; [simpl; lia |].
        intros (c0 & [<- | Hin] & Hl); [contradiction |]. simpl.
        assert (length u' < length cs)%nat by (apply Hlt; eauto). lia. }
      destruct (mem (- l) c).
      * destruct (filter _ c) as [| x red]; [discriminate |].
        destruct (reduce_clauses l cs) as [u' |]; [| discriminate].
        intros [= <-]. eapply K; eauto.
      * destruct (reduce_clauses l cs) as [u' |]; [| discriminate].
        intros [= <-]. eapply K; eauto.
Qed.

Lemma undecided_of_sub a c u : undecided_of a c = Some u -> forall l, In l u -> In l c.
Proof.
  revert u. induction c as [| x c IH]; intros u; [now intros [= <-] |].
  simpl. destruct (a !! Z.abs x) as [val |].
  - destruct (lit_sat x val); [discriminate |]. intros Hu l Hl. right. eapply IH; eauto.
  - destruct (undecided_of a c) as [u' |]; [| discriminate].
    intros [= <-] l [<- | Hl]; [now left | right; eapply IH; eauto].
Qed.

Lemma find_unit_with_empty a cs :
  In [] cs ->
  find_unit a cs = ScanConflict
  \/ exists l c, find_unit a cs = ScanUnit l /\ In c cs /\ In l c.
Proof.
  induction cs as [| c cs IH]; [now intros [] |].
  intros Hin. simpl. destruct (undecided_of a c) as [[| l [| l2 u]] |] eqn:E.
  - now left.
  - right. exists l, c. repeat split; [now left |].
    eapply undecided_of_sub; [exact E | now left].
  - destruct Hin as [-> | Hin]; [discriminate |].
    destruct (IH Hin) as [-> | (l' & c' & -> & Hc & Hl)]; [now left | right; eauto 6 using in_cons].
  - destruct Hin as [-> | Hin]; [discriminate |].
    destruct (IH Hin) as [-> | (l' & c' & -> & Hc & Hl)]; [now left | right; eauto 6 using in_cons].
Qed.

Lemma assign_literal_with_empty cs a l cs' a' :
  assign_literal cs a l = (cs', false, a') ->
  In [] cs -> (exists c, In c cs /\ In l c) ->
  In [] cs' /\ (length cs' < length cs)%nat.
Proof.
  unfold assign_literal. intros H Hin Hl.
  assert (forall u, reduce_clauses l cs = Some u -> In [] u /\ (length u < length cs)%nat) as K.
  { intros u Hu. split; [eapply reduce_clauses_keeps_empty; eauto |].
    now apply (reduce_clauses_length l cs u Hu). }
  destruct (a !! Z.abs l) as [existing |].
  - destruct (negb (Bool.eqb existing (0 <? l))); [discriminate |].
    destruct (reduce_clauses l cs) as [u |]; [| discriminate].
    injection H as <- _. now apply K.
  - destruct (reduce_clauses l cs) as [u |]; [| discriminate].
    injection H as <- _. now apply K.
Qed.

Lemma unit_propagate_with_empty fuel cs a stats :
  In [] cs -> (length cs < fuel)%nat ->
  exists cs' a' stats', unit_propagate fuel cs a stats = Done (cs', true, a', stats').
Proof.
  revert cs a stats. induction fuel as [| fuel IH]; intros cs a stats Hin Hlen; [lia |].
  simpl. destruct (find_unit_with_empty a cs Hin) as [-> | (l & c & -> & Hc & Hl)]; [eauto |].
  destruct (assign_literal cs a l) as [[cs' conflict] a'] eqn:E.
  destruct conflict; [eauto |].
  destruct (assign_literal_with_empty _ _ _ _ _ E Hin) as [Hin' Hlen']; [eauto |].
  apply IH; [assumption | lia].
Qed.

(** C3, as amended: the parser never yields the empty clause (a line of
    terminators alone is skipped), so the entry points decide the remaining
    clauses; the DPLL procedure itself answers UNSAT on every clause list
    that holds the empty clause, given fuel beyond the number of clauses. *)
Theorem empty_clause_unsat_in_dpll :
  (forall data f, Parser.parse_dimacs data = Done f -> ~ In [] (Parser.clauses f))
  /\ (forall fuel cs a stats,
        In [] cs -> (length cs < fuel)%nat ->
        exists a' stats', dpll fuel cs a stats = Done (false, a', stats')).
Proof.
  split; [apply parse_dimacs_no_empty |].
  intros fuel cs a stats Hin Hlen. destruct fuel as [| fuel]; [lia |].
  destruct (unit_propagate_with_empty (S fuel) cs a stats Hin Hlen) as (cs' & a' & stats' & E).
  cbn [dpll]. rewrite E. cbn [mbind outcome_bind obind]. eauto.
Qed.

Lemma empty_clause_unsat_in_dpll_witness :
  exists a' stats', dpll 5 [[1; 2]; []] ∅ stats0 = Done (false, a', stats').
Proof. apply (proj2 empty_clause_unsat_in_dpll); [right; now left | simpl; lia]. Defined.

(** C3 as stated fails: on a DIMACS text whose only clause line is the
    terminator, both entry points answer SAT. *)
Lemma empty_clause_line_sat :
  (exists r, DPLL.run_solver 10 (text_of_lines ["p cnf 1 1"; "0"]%string) = Done r
             /\ status_of r = Some (VStr "SAT"))
  /\ (exists r, CDCL.run_solver 10 (text_of_lines ["p cnf 1 1"; "0"]%string) = Done r
                /\ status_of r = Some (VStr "SAT")).
Proof. split; eexists; split; try (vm_compute; reflexivity); reflexivity. Qed.

End Dpll_empty_clause.

(** ** CDCL: the clause table and the counters *)

Section Cdcl_counters.
Import CDCL.

Lemma visit_clause_formula st opposite idx v :
  visit_clause st opposite idx = Done v ->
  formula (visit_state v) = formula st
  /\ (forall st' c, v = VisitConflict st' c -> In c (formula st)).
Proof.
  unfold visit_clause.
  destruct (nth_error (formula st) idx) as [clause |] eqn:En; [| discriminate].
  destruct (watch_map st !! idx) as [[w1 w2] |]; [| discriminate].
  assert (In clause (formula st)) as Hin by (eapply nth_error_In; eauto).
  destruct (value_of (if w1 =? opposite then w2 else w1) (assignment st)) as [[|] |];
    try (intros [= <-]; split; [reflexivity | discriminate]);
    (destruct (find_candidate _ _ _ _);
     intros [= <-]; split; try reflexivity; try discriminate;
     intros st' c [= <- <-]; exact Hin).
Qed.

Lemma visit_watchers_formula st opposite watchers q st' q' r :
  visit_watchers st opposite watchers q = Done (st', q', r) ->
  formula st' = formula st /\ (forall c, r = Some c -> In c (formula st)).
Proof.
  revert st q. induction watchers as [| idx rest IH]; intros st q.
  - intros [= <- <- <-]. split; [reflexivity | discriminate].
  - simpl. destruct (visit_clause st opposite idx) as [v | |] eqn:E; try discriminate.
    cbn [mbind outcome_bind obind].
    destruct (visit_clause_formula _ _ _ _ E) as [Hf Hc].
    destruct v as [st1 | st1 other | st1 c]; simpl in Hf.
    + intros H. apply IH in H as [H1 H2]. rewrite Hf in *. auto.
    + intros H. apply IH in H as [H1 H2]. rewrite Hf in *. auto.
    + intros [= <- <- <-]. split; [assumption |]. intros c' [= <-]. eapply Hc. reflexivity.
Qed.

Lemma propagate_loop_formula fuel st q st' r :
  propagate_loop fuel st q = Done (st', r) ->
  formula st' = formula st /\ (forall c, r = Some c -> In c (formula st)).
Proof.
  revert st q. induction fuel as [| fuel IH]; intros st q; [discriminate |].
  simpl. destruct q as [| literal q].
  - intros [= <- <-]. split; [reflexivity | discriminate].
  - destruct (visit_watchers _ _ _ _) as [[[st1 q1] r1] | |] eqn:E; try discriminate.
    cbn [mbind outcome_bind obind].
    apply visit_watchers_formula in E as [Hf Hc].
    destruct r1 as [c |].
    + intros [= <- <-]. split; [assumption |]. intros c' [= <-]. now apply Hc.
    + intros H. apply IH in H as [H1 H2]. rewrite Hf in *. auto.
Qed.

(** [propagate] leaves the clause table alone, counts one conflict when it
    returns a clause, and returns a clause of the table. *)
Lemma propagate_spec fuel st stats st' stats' r :
  propagate fuel st stats = Done (st', stats', r) ->
  formula st' = formula st
  /\ stats' = match r with Some _ => bump_conflicts stats | None => stats end
  /\ (forall c, r = Some c -> In c (formula st)).
Proof.
  unfold propagate.
  destruct (propagate_loop _ _ _) as [[st1 r1] | |] eqn:E; try discriminate.
  cbn [mbind outcome_bind obind]. apply propagate_loop_formula in E as [Hf Hc].
  destruct r1; intros [= <- <- <-]; auto.
Qed.

Lemma learn_clause_spec st clause stats st' stats' :
  learn_clause st clause stats = Done (st', stats') ->
  clause <> [] /\ formula st' = formula st ++ [clause] /\ stats' = bump_learned stats
  /\ decision_level st' = decision_level st.
Proof.
  unfold learn_clause.
  destruct clause as [| c0 [| c1 rest]]; [discriminate | |];
    cbn [mbind outcome_bind obind];
    destruct (fold_left bump_var _ _) as [v q]; intros [= <- <-]; repeat split; discriminate.
Qed.

Lemma decay_scores_formula st : formula (decay_scores st) = formula st.
Proof. unfold decay_scores. now destruct (fold_left _ _ _). Qed.

Lemma on_conflict_spec fuel st stats loc conflict next stats' :
  on_conflict fuel st stats loc conflict = Done (next, stats') ->
  conflicts stats' = conflicts stats + 1
  /\ decisions stats' = decisions stats
  /\ match next with
     | None => learned_clauses stats' = learned_clauses stats
     | Some (st', loc') =>
         learned_clauses stats' = learned_clauses stats + 1
         /\ met loc' = S (met loc)
         /\ exists clause, clause <> [] /\ formula st' = formula st ++ [clause]
     end.
Proof.
  unfold on_conflict. destruct (decision_level st =? 0).
  - intros [= <- <-]. repeat split.
  - destruct (analyze_conflict fuel st conflict) as [[clause backjump] | |]; try discriminate.
    cbn [mbind outcome_bind obind].
    destruct (learn_clause st clause (bump_conflicts stats)) as [[st1 stats1] | |] eqn:El;
      try discriminate.
    cbn [mbind outcome_bind obind].
    apply learn_clause_spec in El as (Hne & Hf & -> & _).
    assert (forall a, formula (match a with
                               | Some lit => set_literal (decay_scores (backtrack st1 backjump)) lit clause
                               | None => decay_scores (backtrack st1 backjump)
                               end) = formula st ++ [clause]) as K.
    { intros [lit |]; simpl; rewrite decay_scores_formula; simpl; exact Hf. }
    destruct (restart_limit loc <=? conflicts_since_restart loc + 1);
      intros [= <- <-]; simpl; repeat split; exists clause; (split; [assumption |]);
      try apply K.
Qed.

Lemma select_branch_literal_formula st : formula (snd (select_branch_literal st)) = formula st.
Proof.
  unfold select_branch_literal. destruct (pop _ _) as [[var |] q]; reflexivity.
Qed.

(** C10: in the main loop every conflict adds exactly 2 to the conflicts
    counter, once in [propagate] and once in [cdcl]; so the counter a run
    returns is its starting value plus twice the number of conflicts the loop
    met. The learned clauses are at most half of that. *)
Theorem cdcl_conflicts_counted_twice fuel gas st stats loc sat st' stats' k :
  nonempty_clauses (formula st) ->
  cdcl_loop fuel gas st stats loc = Done (sat, st', stats', k) ->
  (met loc <= k)%nat
  /\ conflicts stats' = conflicts stats + 2 * Z.of_nat (k - met loc)
  /\ learned_clauses stats' <= learned_clauses stats + Z.of_nat (k - met loc).
Proof.
  revert st stats loc. induction gas as [| gas IH]; intros st stats loc Hne; [discriminate |].
  cbn [cdcl_loop].
  destruct (propagate fuel st stats) as [[[st1 stats1] r] | |] eqn:Ep; try discriminate.
  cbn [mbind outcome_bind obind].
  apply propagate_spec in Ep as (Hf & -> & Hc).
  assert (nonempty_clauses (formula st1)) as Hne1 by now rewrite Hf.
  destruct r as [[| l ls] |].
  - exfalso. unfold nonempty_clauses in Hne. rewrite Forall_forall in Hne.
    apply (Hne []); [apply list_elem_of_In, Hc |]; reflexivity.
  - destruct (on_conflict fuel st1 (bump_conflicts stats) loc (l :: ls))
      as [[next stats2] | |] eqn:Eo; try discriminate.
    cbn [mbind outcome_bind obind].
    apply on_conflict_spec in Eo as (Hcf & Hd & Hn). simpl in Hcf.
    destruct next as [[st2 loc2] |].
    + destruct Hn as (Hl & Hm & clause & Hcl & Hf2).
      intros H. apply IH in H as (Hk & Hcs & Hls).
      * rewrite Hm in *. simpl in Hl. split; [lia |]. split; [lia | lia].
      * unfold nonempty_clauses. rewrite Hf2. apply Forall_app. split; [exact Hne1 |].
        now constructor.
    + intros [= <- <- <- <-]. simpl in Hn. split; [lia |]. split; [lia | lia].
  - pose proof (select_branch_literal_formula st1) as Hs.
    destruct (select_branch_literal st1) as [[literal |] st2]; simpl in Hs.
    + intros H. apply IH in H as (Hk & Hcs & Hls).
      * simpl in Hcs, Hls. auto.
      * simpl. now rewrite Hs.
    + intros [= <- <- <- <-]. split; [lia |]. split; [lia | lia].
Qed.

Lemma cdcl_conflicts_counted_twice_witness :
  exists sat st' stats' k,
    cdcl_loop 100 100 (start_state [[1; 2]; [-1; -2]; [1; -2]; [-1; 2]]) stats0 locals0
    = Done (sat, st', stats', k)
    /\ (met locals0 <= k)%nat
    /\ conflicts stats' = conflicts stats0 + 2 * Z.of_nat (k - met locals0)
    /\ learned_clauses stats' <= learned_clauses stats0 + Z.of_nat (k - met locals0).
Proof.
  destruct (cdcl_loop 100 100 (start_state [[1; 2]; [-1; -2]; [1; -2]; [-1; 2]]) stats0 locals0)
    as [[[[sat st'] stats'] k] | |] eqn:E; [| exfalso; vm_compute in E; discriminate ..].
  exists sat, st', stats', k. split; [reflexivity |].
  apply (cdcl_conflicts_counted_twice 100 100
           (start_state [[1; 2]; [-1; -2]; [1; -2]; [-1; 2]]) stats0 locals0 sat st' stats' k).
  - vm_compute. repeat constructor; discriminate.
  - exact E.
Defined.

Lemma initialize_state_spec cls st :
  initialize_state cls = Done st -> formula st = cls /\ nonempty_clauses cls.
Proof.
  unfold initialize_state.
  destruct (init_watches 0 cls (∅, ∅)) as [[w wm] | |] eqn:E; try discriminate.
  cbn [mbind outcome_bind obind]. intros [= <-]. split; [reflexivity |].
  clear -E. revert E. generalize (∅ : gmap Z (list nat), ∅ : gmap nat (Z * Z)). generalize 0%nat.
  induction cls as [| c cls IH]; intros idx acc E; [constructor |].
  simpl in E. destruct (init_watch acc idx c) as [acc' | |] eqn:Ei; try discriminate.
  cbn [mbind outcome_bind obind] in E. constructor; [| eapply IH; eauto].
  intros ->. destruct acc. discriminate.
Qed.

End Cdcl_counters.

(** ** CDCL: well-formed states *)

Section Cdcl_wf.
Import CDCL.
Variable Vs : gset Z.
Hypothesis Vs_nonneg : forall v, v ∈ Vs -> 0 <= v.
Local Abbreviation scores_in := (scores_over Vs).

Lemma levels_bound (m : gmap Z Z) (d : nat) :
  (forall k, 1 <= k <= Z.of_nat d -> exists v, m !! v = Some k) -> (d <= size m)%nat.
Proof.
  revert m. induction d as [| d IH]; intros m H; [lia |].
  destruct (H (Z.of_nat (S d))) as [v Hv]; [lia |].
  assert (d <= size (delete v m))%nat as Hd.
  { apply IH. intros k Hk. destruct (H k) as [v' Hv']; [lia |].
    exists v'. rewrite lookup_delete_ne; [assumption |]. intros ->. rewrite Hv in Hv'.
    injection Hv' as Hv'. lia. }
  rewrite map_size_delete_Some in Hd by eauto.
  assert (size m <> 0)%nat.
  { apply map_size_ne_0_lookup. eauto. }
  lia.
Qed.

(** The current level never exceeds the number of variables. *)
Lemma wf_level_le st : wf Vs st -> decision_level st <= Z.of_nat (size Vs).
Proof.
  intros W.
  assert (Z.to_nat (decision_level st) <= size (decision_levels st))%nat as H1.
  { apply levels_bound. intros k Hk. apply (wf_witness _ _ W).
    pose proof (wf_level0 _ _ W). lia. }
  assert (size (decision_levels st) <= size Vs)%nat as H2.
  { rewrite <- (size_dom (D := gset Z)). apply subseteq_size.
    intros v Hv. apply elem_of_dom in Hv as [k Hk]. eapply wf_assigned; eauto. }
  pose proof (wf_level0 _ _ W). lia.
Qed.

Lemma wf_set_literal st lit why :
  wf Vs st -> assignment st !! Z.abs lit = None -> Z.abs lit ∈ Vs ->
  (forall l, In l why -> Z.abs l ∈ Vs) ->
  wf Vs (set_literal st lit why).
Proof.
  intros W Hfresh Hin Hwhy.
  assert (decision_levels st !! Z.abs lit = None) as Hdl by now apply (wf_dom _ _ W).
  constructor; simpl.
  - intros v. destruct (decide (v = Z.abs lit)) as [-> | Hne].
    + rewrite !lookup_insert_eq. split; discriminate.
    + rewrite !lookup_insert_ne by congruence. apply (wf_dom _ _ W).
  - intros v k. destruct (decide (v = Z.abs lit)) as [-> | Hne].
    + rewrite lookup_insert_eq. intros [= <-]. pose proof (wf_level0 _ _ W). lia.
    + rewrite lookup_insert_ne by congruence. apply (wf_levels _ _ W).
  - intros k Hk. destruct (wf_witness _ _ W k Hk) as [v Hv]. exists v.
    rewrite lookup_insert_ne; [assumption |]. intros <-. congruence.
  - apply (wf_level0 _ _ W).
  - intros v k. destruct (decide (v = Z.abs lit)) as [-> | Hne]; [auto |].
    rewrite lookup_insert_ne by congruence. apply (wf_assigned _ _ W).
  - apply (wf_formula _ _ W).
  - intros v c l. destruct (decide (v = Z.abs lit)) as [-> | Hne].
    + rewrite lookup_insert_eq. intros [= <-]. apply Hwhy.
    + rewrite lookup_insert_ne by congruence. apply (wf_reason _ _ W).
  - apply (wf_watch _ _ W).
  - apply (wf_heap _ _ W).
  - apply (wf_vsids _ _ W).
Qed.

Lemma wf_set_watch st idx wpair old new :
  wf Vs st -> Z.abs (fst wpair) ∈ Vs -> Z.abs (snd wpair) ∈ Vs ->
  wf Vs (set_watch st idx wpair old new).
Proof.
  intros W H1 H2. destruct W. constructor; simpl; try assumption.
  intros i w1 w2. destruct (decide (i = idx)) as [-> | Hne].
  - rewrite lookup_insert_eq. intros [= ->]. auto.
  - rewrite lookup_insert_ne by congruence. eauto.
Qed.

Lemma find_candidate_In a w1 w2 clause candidate :
  find_candidate a w1 w2 clause = Some candidate ->
  In candidate clause /\ value_of candidate a <> Some false
  /\ candidate <> w1 /\ candidate <> w2.
Proof.
  induction clause as [| x clause IH]; [discriminate |].
  simpl. destruct ((x =? w1) || (x =? w2)) eqn:E.
  - intros H. apply IH in H. tauto.
  - apply orb_false_iff in E as [E1 E2]. apply Z.eqb_neq in E1, E2.
    destruct (value_of x a) as [[|] |] eqn:Ev.
    + intros [= <-]. rewrite Ev. repeat split; auto; discriminate.
    + intros H. apply IH in H. tauto.
    + intros [= <-]. rewrite Ev. repeat split; auto; discriminate.
Qed.

Lemma value_of_None lit a : value_of lit a = None <-> a !! Z.abs lit = None.
Proof. unfold value_of. destruct (a !! Z.abs lit); split; congruence. Qed.

Lemma visit_clause_wf st opposite idx v :
  wf Vs st -> visit_clause st opposite idx = Done v -> wf Vs (visit_state v).
Proof.
  intros W. unfold visit_clause.
  destruct (nth_error (formula st) idx) as [clause |] eqn:En; [| discriminate].
  destruct (watch_map st !! idx) as [[w1 w2] |] eqn:Ew; [| discriminate].
  assert (In clause (formula st)) as Hin by (eapply nth_error_In; eauto).
  destruct (wf_watch _ _ W _ _ _ Ew) as [Hw1 Hw2].
  set (other := if w1 =? opposite then w2 else w1).
  assert (Z.abs other ∈ Vs) as Ho by (unfold other; destruct (w1 =? opposite); assumption).
  destruct (value_of other (assignment st)) as [[|] |] eqn:Ev;
    try (intros [= <-]; exact W).
  - destruct (find_candidate _ _ _ _) as [candidate |] eqn:Ec.
    + apply find_candidate_In in Ec as (Hc & _).
      intros [= <-]. simpl. apply wf_set_watch; [assumption | |];
        destruct (w1 =? opposite); simpl; try assumption; eapply wf_formula; eauto.
    + intros [= <-]. exact W.
  - destruct (find_candidate _ _ _ _) as [candidate |] eqn:Ec.
    + apply find_candidate_In in Ec as (Hc & _).
      intros [= <-]. simpl. apply wf_set_watch; [assumption | |];
        destruct (w1 =? opposite); simpl; try assumption; eapply wf_formula; eauto.
    + intros [= <-]. simpl. apply wf_set_literal; try assumption.
      * now apply value_of_None.
      * intros l Hl. eapply wf_formula; eauto.
Qed.

Lemma visit_watchers_wf st opposite watchers q st' q' r :
  wf Vs st -> visit_watchers st opposite watchers q = Done (st', q', r) -> wf Vs st'.
Proof.
  revert st q. induction watchers as [| idx rest IH]; intros st q W.
  - now intros [= <- <- <-].
  - simpl. destruct (visit_clause st opposite idx) as [v | |] eqn:E; try discriminate.
    cbn [mbind outcome_bind obind]. apply visit_clause_wf in E; [| assumption].
    destruct v as [st1 | st1 other | st1 c]; simpl in E.
    + now apply IH.
    + now apply IH.
    + now intros [= <- <- <-].
Qed.

Lemma propagate_loop_wf fuel st q st' r :
  wf Vs st -> propagate_loop fuel st q = Done (st', r) -> wf Vs st'.
Proof.
  revert st q. induction fuel as [| fuel IH]; intros st q W; [discriminate |].
  simpl. destruct q as [| literal q]; [now intros [= <- <-] |].
  destruct (visit_watchers _ _ _ _) as [[[st1 q1] r1] | |] eqn:E; try discriminate.
  cbn [mbind outcome_bind obind]. apply visit_watchers_wf in E; [| assumption].
  destruct r1; [now intros [= <- <-] | now apply IH].
Qed.

Lemma propagate_wf fuel st stats st' stats' r :
  wf Vs st -> propagate fuel st stats = Done (st', stats', r) -> wf Vs st'.
Proof.
  intros W. unfold propagate.
  destruct (propagate_loop _ _ _) as [[st1 r1] | |] eqn:E; try discriminate.
  cbn [mbind outcome_bind obind]. apply propagate_loop_wf in E; [| assumption].
  destruct r1; now intros [= <- <- <-].
Qed.

(** *** Conflict analysis *)

Lemma remove_first_In {A} `{EqDecision A} (x y : A) l : In y (remove_first x l) -> In y l.
Proof.
  induction l as [| z l IH]; simpl; [tauto |].
  destruct (bool_decide (z = x)); simpl; tauto.
Qed.

Lemma resolve_own_sub pivot clause res pres l :
  In l (fst (resolve_own pivot clause res pres)) -> In l res \/ In l clause.
Proof.
  revert res pres. induction clause as [| x clause IH]; intros res pres; simpl; [tauto |].
  destruct (Z.abs x =? pivot); [intros H; apply IH in H; tauto |].
  destruct (bool_decide (- x ∈ pres)); [intros H; apply IH in H; tauto |].
  destruct (bool_decide (x ∈ pres)); [intros H; apply IH in H; tauto |].
  intros H. apply IH in H as [H | H]; [| tauto].
  apply in_app_or in H as [H | [<- | []]]; tauto.
Qed.

Lemma resolve_reason_sub pivot why res pres l :
  In l (fst (resolve_reason pivot why res pres)) -> In l res \/ In l why.
Proof.
  revert res pres. induction why as [| x why IH]; intros res pres; simpl; [tauto |].
  destruct (Z.abs x =? pivot); [intros H; apply IH in H; tauto |].
  destruct (bool_decide (- x ∈ pres)).
  - destruct (mem (- x) res); intros H; apply IH in H as [H | H]; try tauto.
    apply remove_first_In in H. tauto.
  - destruct (bool_decide (x ∈ pres)); [intros H; apply IH in H; tauto |].
    intros H. apply IH in H as [H | H]; [| tauto].
    apply in_app_or in H as [H | [<- | []]]; tauto.
Qed.

Lemma resolve_sub st clause pivot l :
  In l (resolve st clause pivot) ->
  In l clause \/ exists why, reason st !! pivot = Some why /\ In l why.
Proof.
  unfold resolve. destruct (reason st !! pivot) as [[| y why] |] eqn:E; try tauto.
  destruct (resolve_own pivot clause [] ∅) as [res pres] eqn:Eo.
  intros H. apply resolve_reason_sub in H as [H | H].
  - pose proof (resolve_own_sub pivot clause [] ∅ l) as K. rewrite Eo in K.
    destruct (K H) as [[] | ?]. tauto.
  - right. eauto.
Qed.

Lemma analyze_loop_vars fuel st conflict learned :
  wf Vs st -> (forall l, In l conflict -> Z.abs l ∈ Vs) ->
  analyze_loop fuel st conflict = Done learned ->
  forall l, In l learned -> Z.abs l ∈ Vs.
Proof.
  intros W. revert conflict. induction fuel as [| fuel IH]; intros conflict Hc; [discriminate |].
  simpl. destruct (1 <? count_curr_level st conflict)%nat; [| now intros [= <-]].
  destruct (find_pivot st conflict) as [pivot |]; [| now intros [= <-]].
  apply IH. intros l Hl. apply resolve_sub in Hl as [Hl | (why & Hw & Hl)]; [auto |].
  eapply wf_reason; eauto.
Qed.

Lemma level_of_range st lit : wf Vs st -> 0 <= level_of st lit 0 <= decision_level st.
Proof.
  intros W. unfold level_of. destruct (decision_levels st !! Z.abs lit) as [k |] eqn:E; simpl.
  - eapply wf_levels; eauto.
  - pose proof (wf_level0 _ _ W). lia.
Qed.

Lemma backjump_level_range st learned :
  wf Vs st ->
  0 <= backjump_level st learned
  /\ (0 < decision_level st -> backjump_level st learned < decision_level st).
Proof.
  intros W. unfold backjump_level.
  assert (forall acc, 0 <= acc /\ (0 < decision_level st -> acc < decision_level st) ->
            let r := fold_left (fun backjump lit =>
                        let lvl := level_of st lit 0 in
                        if negb (lvl =? decision_level st) && (backjump <? lvl)
                        then lvl else backjump) learned acc in
            0 <= r /\ (0 < decision_level st -> r < decision_level st)) as K.
  { induction learned as [| lit learned IH]; intros acc Hacc; [exact Hacc |].
    simpl. apply IH. pose proof (level_of_range st lit W) as Hl.
    destruct (negb (level_of st lit 0 =? decision_level st) && (acc <? level_of st lit 0)) eqn:E;
      [| exact Hacc].
    apply andb_prop in E as [E1 E2]. apply negb_true_iff, Z.eqb_neq in E1. lia. }
  apply K. lia.
Qed.

Lemma asserting_literal_spec st clause lit :
  wf Vs st -> asserting_literal st clause = Some lit ->
  In lit clause /\ decision_levels st !! Z.abs lit = Some (decision_level st).
Proof.
  intros W H. unfold asserting_literal in H. apply find_some in H as [Hin E].
  split; [assumption |]. apply Z.eqb_eq in E. unfold level_of in E.
  destruct (decision_levels st !! Z.abs lit) as [k |]; simpl in E; [congruence |].
  pose proof (wf_level0 _ _ W). lia.
Qed.

(** *** Scores and the heap *)

Lemma push_scores_in vs q var score :
  scores_in (vs, q) -> var ∈ Vs -> scores_in (<[var := score]> vs, push q var score).
Proof.
  intros [H1 H2] Hv. split; simpl.
  - intros v s. destruct (decide (v = var)) as [-> | Hne]; [auto |].
    rewrite lookup_insert_ne by congruence. apply H1.
  - intros x [<- | Hx]; [exact Hv | now apply H2].
Qed.

Lemma decay_fold_scores_in d vars acc :
  scores_in acc -> scores_in (fold_left (decay_var d) vars acc).
Proof.
  revert acc. induction vars as [| var vars IH]; intros acc H; [exact H |].
  simpl. apply IH. destruct acc as [vs q]. unfold decay_var.
  destruct (vs !! var) as [score |] eqn:E; [| exact H].
  apply push_scores_in; [exact H |]. destruct H as [H1 _]. eapply H1; eauto.
Qed.

Lemma bump_fold_scores_in clause acc :
  scores_in acc -> (forall l, In l clause -> Z.abs l ∈ Vs) ->
  scores_in (fold_left bump_var clause acc).
Proof.
  revert acc. induction clause as [| lit clause IH]; intros acc H Hc; [exact H |].
  simpl. apply IH; [| intros; apply Hc; now right].
  destruct acc as [vs q]. unfold bump_var. apply push_scores_in; [exact H |].
  apply Hc. now left.
Qed.

Lemma decay_scores_wf st : wf Vs st -> wf Vs (decay_scores st).
Proof.
  intros W. unfold decay_scores.
  pose proof (decay_fold_scores_in (decay st) (map fst (map_to_list (vsids st)))
                (vsids st, queue st)) as K.
  destruct (fold_left _ _ _) as [vs q]. destruct K as [K1 K2].
  { split; simpl; [apply (wf_vsids _ _ W) | apply (wf_heap _ _ W)]. }
  destruct W. constructor; simpl; assumption.
Qed.

Lemma learn_clause_wf st clause stats st' stats' :
  wf Vs st -> (forall l, In l clause -> Z.abs l ∈ Vs) ->
  learn_clause st clause stats = Done (st', stats') -> wf Vs st'.
Proof.
  intros W Hc. unfold learn_clause.
  pose proof (bump_fold_scores_in clause (vsids st, queue st)) as K.
  assert (scores_in (vsids st, queue st)) as Hs.
  { split; simpl; [apply (wf_vsids _ _ W) | apply (wf_heap _ _ W)]. }
  specialize (K Hs Hc).
  assert (forall c l, In c (formula st ++ [clause]) -> In l c -> Z.abs l ∈ Vs) as Hf.
  { intros c l Hin Hl. apply in_app_or in Hin as [Hin | [<- | []]]; [| auto].
    eapply wf_formula; eauto. }
  destruct clause as [| c0 [| c1 rest]]; [discriminate | |];
    cbn [mbind outcome_bind obind];
    destruct (fold_left bump_var _ _) as [vs q]; destruct K as [K1 K2];
    intros [= <- <-]; destruct W; constructor; simpl; try assumption;
    intros i w1 w2; (destruct (decide (i = length (formula st))) as [-> | Hne];
      [rewrite lookup_insert_eq; intros [= <- <-]; split; apply Hc; simpl; tauto
      | rewrite lookup_insert_ne by congruence; eauto]).
Qed.

(** *** Backtracking *)

Lemma backtrack_levels st level v k :
  decision_levels (backtrack st level) !! v = Some k <->
  decision_levels st !! v = Some k /\ k <= level.
Proof.
  unfold backtrack. simpl. rewrite map_lookup_filter_Some. simpl. split.
  - intros [H1 H2]. rewrite H1 in H2. split; [assumption |].
    destruct (level <? k) eqn:E; [discriminate | lia].
  - intros [H1 H2]. split; [assumption |]. rewrite H1.
    destruct (level <? k) eqn:E; [lia | reflexivity].
Qed.

Lemma backtrack_assignment st level v b :
  assignment (backtrack st level) !! v = Some b <->
  assignment st !! v = Some b
  /\ (forall k, decision_levels st !! v = Some k -> k <= level).
Proof.
  unfold backtrack. simpl. rewrite map_lookup_filter_Some. simpl. split.
  - intros [H1 H2]. split; [assumption |]. intros k Hk. rewrite Hk in H2.
    destruct (level <? k) eqn:E; [discriminate | lia].
  - intros [H1 H2]. split; [assumption |].
    destruct (decision_levels st !! v) as [k |] eqn:Hk; [| reflexivity].
    specialize (H2 k eq_refl). destruct (level <? k) eqn:E; [lia | reflexivity].
Qed.

Lemma backtrack_reason st level v c :
  reason (backtrack st level) !! v = Some c -> reason st !! v = Some c.
Proof. unfold backtrack. simpl. rewrite map_lookup_filter_Some. tauto. Qed.

Lemma backtrack_wf st level :
  wf Vs st -> 0 <= level <= decision_level st -> wf Vs (backtrack st level).
Proof.
  intros W Hl. constructor.
  - intros v. split.
    + intros H. destruct (decision_levels (backtrack st level) !! v) as [k |] eqn:E;
        [| reflexivity].
      apply backtrack_levels in E as [E1 E2].
      destruct (assignment st !! v) as [b |] eqn:Ea.
      * assert (assignment (backtrack st level) !! v = Some b) as K.
        { apply backtrack_assignment. split; [assumption |]. intros k' Hk'. congruence. }
        congruence.
      * apply (wf_dom _ _ W) in Ea. congruence.
    + intros H. destruct (assignment (backtrack st level) !! v) as [b |] eqn:E;
        [| reflexivity].
      apply backtrack_assignment in E as [E1 E2].
      destruct (decision_levels st !! v) as [k |] eqn:Ek.
      * assert (decision_levels (backtrack st level) !! v = Some k) as K.
        { apply backtrack_levels. auto. }
        congruence.
      * apply (wf_dom _ _ W) in Ek. congruence.
  - intros v k H. apply backtrack_levels in H as [H1 H2].
    pose proof (wf_levels _ _ W _ _ H1). simpl. lia.
  - simpl. intros k Hk. destruct (wf_witness _ _ W k) as [v Hv]; [lia |].
    exists v. apply backtrack_levels. split; [assumption | lia].
  - simpl. lia.
  - intros v k H. apply backtrack_levels in H as [H1 _]. eapply wf_assigned; eauto.
  - apply (wf_formula _ _ W).
  - intros v c l H. apply backtrack_reason in H. eapply wf_reason; eauto.
  - apply (wf_watch _ _ W).
  - apply (wf_heap _ _ W).
  - apply (wf_vsids _ _ W).
Qed.

(** *** Decisions *)

Lemma heappop_In h m h' :
  heappop h = Some (m, h') ->
  (forall x, In x h <-> x = m \/ In x h') /\ length h = S (length h').
Proof.
  revert m h'. induction h as [| y h IH]; intros m h'; [discriminate |].
  simpl. destruct (heappop h) as [[m1 h1] |] eqn:E.
  - destruct (IH _ _ eq_refl) as [Hin Hlen].
    destruct (tuple_ltb m1 y); intros [= <- <-]; simpl.
    + split; [| lia]. intros x. rewrite Hin. intuition.
    + split; [| reflexivity]. intros x. intuition.
  - intros [= <- <-]. destruct h; [| simpl in E; destruct (heappop h); [destruct p0 as [? ?];
      destruct (tuple_ltb _ _) |]; discriminate].
    split; [| reflexivity]. intros x. simpl. intuition.
Qed.

Lemma pop_loop_spec n h e a r h' :
  pop_loop n h e a = (r, h') ->
  (forall x, In x h' -> In x h)
  /\ (forall var, r = Some var -> a !! var = None /\ exists sc, In (sc, var) h).
Proof.
  revert h r h'. induction n as [| n IH]; intros h r h'.
  - intros [= <- <-]. split; [auto | discriminate].
  - simpl. destruct (heappop h) as [[[score var] h1] |] eqn:E.
    + apply heappop_In in E as [Hin _].
      assert (forall r0 h0, pop_loop n h1 e a = (r0, h0) ->
                (forall x, In x h0 -> In x h)
                /\ (forall var0, r0 = Some var0 ->
                      a !! var0 = None /\ exists sc, In (sc, var0) h)) as K.
      { intros r0 h0 H0. apply IH in H0 as [H1 H2]. split.
        - intros x Hx. apply Hin. right. now apply H1.
        - intros var0 Hr. destruct (H2 var0 Hr) as [Ha [sc Hsc]].
          split; [assumption |]. exists sc. apply Hin. now right. }
      destruct (a !! var) eqn:Ea; [apply K |].
      destruct (e !! var) as [current |]; [| apply K].
      destruct (negb (PrimFloat.eqb (- score) current)); [apply K |].
      intros [= <- <-]. split.
      * intros x Hx. apply Hin. now right.
      * intros var0 [= <-]. split; [assumption |]. exists score. apply Hin. now left.
    + intros [= <- <-]. split; [auto | discriminate].
Qed.

Lemma select_branch_literal_spec st r st' :
  wf Vs st -> select_branch_literal st = (r, st') ->
  wf Vs st' /\ decision_level st' = decision_level st
  /\ formula st' = formula st
  /\ (forall literal, r = Some literal ->
        assignment st' !! Z.abs literal = None /\ Z.abs literal ∈ Vs).
Proof.
  intros W. unfold select_branch_literal, pop.
  destruct (pop_loop _ _ _ _) as [r0 h] eqn:E.
  apply pop_loop_spec in E as [Hsub Hr].
  assert (wf Vs (with_queue st {| heap := h; entries := entries (queue st) |})) as W'.
  { destruct W. constructor; simpl; auto. }
  destruct r0 as [var |].
  - destruct (Hr var eq_refl) as [Ha [sc Hsc]].
    assert (var ∈ Vs) as Hv by (apply (wf_heap _ _ W _ Hsc)).
    pose proof (Vs_nonneg _ Hv) as Hpos.
    intros [= <- <-]. split; [assumption |]. split; [reflexivity |]. split; [reflexivity |].
    intros literal [= <-]. simpl.
    assert (Z.abs (if default true (phase st !! var) then var else - var) = var) as ->
      by (destruct (default true (phase st !! var)); lia).
    split; assumption.
  - intros [= <- <-]. split; [assumption |]. split; [reflexivity |]. split; [reflexivity |].
    discriminate.
Qed.

Lemma decide_literal_wf st literal :
  wf Vs st -> assignment st !! Z.abs literal = None -> Z.abs literal ∈ Vs ->
  wf Vs (decide_literal st literal).
Proof.
  intros W Hfresh Hin.
  assert (decision_levels st !! Z.abs literal = None) as Hdl by now apply (wf_dom _ _ W).
  pose proof (wf_level0 _ _ W) as H0.
  constructor; simpl.
  - intros v. destruct (decide (v = Z.abs literal)) as [-> | Hne].
    + rewrite !lookup_insert_eq. split; discriminate.
    + rewrite !lookup_insert_ne by congruence. apply (wf_dom _ _ W).
  - intros v k. destruct (decide (v = Z.abs literal)) as [-> | Hne].
    + rewrite lookup_insert_eq. intros [= <-]. lia.
    + rewrite lookup_insert_ne by congruence. intros H.
      pose proof (wf_levels _ _ W _ _ H). lia.
  - intros k Hk. destruct (decide (k = decision_level st + 1)) as [-> | Hne].
    + exists (Z.abs literal). now rewrite lookup_insert_eq.
    + destruct (wf_witness _ _ W k) as [v Hv]; [lia |]. exists v.
      rewrite lookup_insert_ne; [assumption |]. intros <-. congruence.
  - lia.
  - intros v k. destruct (decide (v = Z.abs literal)) as [-> | Hne]; [auto |].
    rewrite lookup_insert_ne by congruence. apply (wf_assigned _ _ W).
  - apply (wf_formula _ _ W).
  - intros v c l. destruct (decide (v = Z.abs literal)) as [-> | Hne].
    + rewrite lookup_insert_eq. now intros [= <-] [].
    + rewrite lookup_insert_ne by congruence. apply (wf_reason _ _ W).
  - apply (wf_watch _ _ W).
  - apply (wf_heap _ _ W).
  - apply (wf_vsids _ _ W).
Qed.

(** *** The conflict branch and the loop *)

Lemma decay_scores_fields st :
  assignment (decay_scores st) = assignment st
  /\ decision_levels (decay_scores st) = decision_levels st
  /\ decision_level (decay_scores st) = decision_level st
  /\ level_literals (decay_scores st) = level_literals st
  /\ watches (decay_scores st) = watches st
  /\ watch_map (decay_scores st) = watch_map st.
Proof. unfold decay_scores. destruct (fold_left _ _ _). repeat split. Qed.

Lemma learn_clause_fields st clause stats st' stats' :
  learn_clause st clause stats = Done (st', stats') ->
  assignment st' = assignment st
  /\ decision_levels st' = decision_levels st
  /\ decision_level st' = decision_level st
  /\ level_literals st' = level_literals st.
Proof.
  unfold learn_clause.
  destruct clause as [| c0 [| c1 rest]]; [discriminate | |];
    cbn [mbind outcome_bind obind];
    destruct (fold_left bump_var _ _) as [v q]; intros [= <- <-]; repeat split.
Qed.

Lemma on_conflict_wf fuel st stats loc conflict st' loc' stats' :
  wf Vs st -> (forall l, In l conflict -> Z.abs l ∈ Vs) ->
  on_conflict fuel st stats loc conflict = Done (Some (st', loc'), stats') ->
  wf Vs st'.
Proof.
  intros W Hc. unfold on_conflict.
  destruct (decision_level st =? 0) eqn:Ed; [discriminate |]. apply Z.eqb_neq in Ed.
  unfold analyze_conflict.
  destruct (analyze_loop fuel st conflict) as [learned | |] eqn:Ea; try discriminate.
  cbn [mbind outcome_bind obind].
  pose proof (analyze_loop_vars _ _ _ _ W Hc Ea) as Hl.
  destruct (backjump_level_range st learned W) as [Hb0 Hb1].
  pose proof (wf_level0 _ _ W) as Hd0.
  specialize (Hb1 ltac:(lia)).
  set (B := backjump_level st learned) in *.
  destruct (learn_clause st learned (bump_conflicts stats)) as [[st1 stats1] | |] eqn:El;
    try discriminate.
  cbn [mbind outcome_bind obind].
  pose proof (learn_clause_wf _ _ _ _ _ W Hl El) as W1.
  destruct (learn_clause_fields _ _ _ _ _ El) as (Ha1 & Hdl1 & Hd1 & _).
  assert (wf Vs (backtrack st1 B)) as W2 by (apply backtrack_wf; [assumption | lia]).
  pose proof (decay_scores_wf _ W2) as W3.
  destruct (decay_scores_fields (backtrack st1 B)) as (Ha3 & Hdl3 & Hd3 & _).
  set (st3 := decay_scores (backtrack st1 B)) in *.
  assert (wf Vs (match asserting_literal st1 learned with
                 | Some lit => set_literal st3 lit learned
                 | None => st3
                 end)) as W4.
  { destruct (asserting_literal st1 learned) as [lit |] eqn:Eas; [| exact W3].
    apply asserting_literal_spec in Eas as [Hin Hlev]; [| assumption].
    apply wf_set_literal; auto.
    rewrite Ha3. apply (wf_dom _ _ W2).
    destruct (decision_levels (backtrack st1 B) !! Z.abs lit) as [k |] eqn:Ek; [| reflexivity].
    apply backtrack_levels in Ek as [Ek1 Ek2]. rewrite Hlev in Ek1. injection Ek1 as <-. lia. }
  assert (decision_level (match asserting_literal st1 learned with
                          | Some lit => set_literal st3 lit learned
                          | None => st3
                          end) = B) as Hd4.
  { destruct (asserting_literal st1 learned); simpl; rewrite Hd3; reflexivity. }
  destruct (restart_limit loc <=? conflicts_since_restart loc + 1); intros [= <- <- <-].
  - apply backtrack_wf; [assumption | lia].
  - assumption.
Qed.

Lemma visit_clause_level st opposite idx v :
  visit_clause st opposite idx = Done v -> decision_level (visit_state v) = decision_level st.
Proof.
  unfold visit_clause.
  destruct (nth_error _ _); [| discriminate].
  destruct (watch_map st !! idx) as [[w1 w2] |]; [| discriminate].
  destruct (value_of _ _) as [[|] |];
    try destruct (find_candidate _ _ _ _); intros [= <-]; reflexivity.
Qed.

Lemma visit_watchers_level st opposite watchers q st' q' r :
  visit_watchers st opposite watchers q = Done (st', q', r) ->
  decision_level st' = decision_level st.
Proof.
  revert st q. induction watchers as [| idx rest IH]; intros st q.
  - now intros [= <- <- <-].
  - simpl. destruct (visit_clause st opposite idx) as [v | |] eqn:E; try discriminate.
    cbn [mbind outcome_bind obind]. apply visit_clause_level in E.
    destruct v as [st1 | st1 other | st1 c]; simpl in E.
    + intros H. apply IH in H. congruence.
    + intros H. apply IH in H. congruence.
    + now intros [= <- <- <-].
Qed.

Lemma propagate_loop_level fuel st q st' r :
  propagate_loop fuel st q = Done (st', r) -> decision_level st' = decision_level st.
Proof.
  revert st q. induction fuel as [| fuel IH]; intros st q; [discriminate |].
  simpl. destruct q as [| literal q]; [now intros [= <- <-] |].
  destruct (visit_watchers _ _ _ _) as [[[st1 q1] r1] | |] eqn:E; try discriminate.
  cbn [mbind outcome_bind obind]. apply visit_watchers_level in E.
  destruct r1; [now intros [= <- <-] |]. intros H. apply IH in H. congruence.
Qed.

Lemma propagate_level fuel st stats st' stats' r :
  propagate fuel st stats = Done (st', stats', r) ->
  decision_level st' = decision_level st /\ decisions stats' = decisions stats.
Proof.
  unfold propagate.
  destruct (propagate_loop _ _ _) as [[st1 r1] | |] eqn:E; try discriminate.
  cbn [mbind outcome_bind obind]. apply propagate_loop_level in E.
  destruct r1; intros [= <- <- <-]; auto.
Qed.

(** The decisions a run makes: at most the number of variables between two
    conflicts, so at most [V (k + 1)] when the loop meets [k] conflicts. *)
Lemma cdcl_loop_decisions fuel gas st stats loc sat st' stats' k :
  wf Vs st ->
  decisions stats <= Z.of_nat (size Vs) * Z.of_nat (met loc) + decision_level st ->
  cdcl_loop fuel gas st stats loc = Done (sat, st', stats', k) ->
  decisions stats' <= Z.of_nat (size Vs) * (Z.of_nat k + 1).
Proof.
  revert st stats loc. induction gas as [| gas IH]; intros st stats loc W Hd; [discriminate |].
  cbn [cdcl_loop].
  destruct (propagate fuel st stats) as [[[st1 stats1] r] | |] eqn:Ep; try discriminate.
  cbn [mbind outcome_bind obind].
  pose proof (propagate_wf _ _ _ _ _ _ W Ep) as W1.
  destruct (propagate_level _ _ _ _ _ _ Ep) as [Hl1 Hs1].
  pose proof (wf_level_le _ W1) as Hle.
  pose proof (wf_level0 _ _ W1) as H0.
  destruct r as [[| l ls] |].
  - destruct (select_branch_literal st1) as [[literal |] st2] eqn:Es;
      destruct (select_branch_literal_spec _ _ _ W1 Es) as (W2 & Hl2 & _ & Hlit).
    + destruct (Hlit literal eq_refl) as [Hfresh Hin].
      apply IH; [now apply decide_literal_wf |]. simpl. lia.
    + intros [= <- <- <- <-]. nia.
  - destruct (on_conflict fuel st1 stats1 loc (l :: ls)) as [[next stats2] | |] eqn:Eo;
      try discriminate.
    cbn [mbind outcome_bind obind].
    pose proof (on_conflict_spec _ _ _ _ _ _ _ Eo) as (_ & Hdec & Hn).
    destruct next as [[st2 loc2] |].
    + destruct Hn as (_ & Hm & _).
      apply IH.
      * eapply on_conflict_wf; [exact W1 | | exact Eo].
        apply propagate_spec in Ep as (_ & _ & Hc).
        intros x Hx. eapply (wf_formula _ _ W); [apply Hc; reflexivity | exact Hx].
      * assert (wf Vs st2) as W2.
        { eapply on_conflict_wf; [exact W1 | | exact Eo].
          apply propagate_spec in Ep as (_ & _ & Hc).
          intros x Hx. eapply (wf_formula _ _ W); [apply Hc; reflexivity | exact Hx]. }
        pose proof (wf_level0 _ _ W2). rewrite Hm. nia.
    + intros [= <- <- <- <-]. nia.
  - destruct (select_branch_literal st1) as [[literal |] st2] eqn:Es;
      destruct (select_branch_literal_spec _ _ _ W1 Es) as (W2 & Hl2 & _ & Hlit).
    + destruct (Hlit literal eq_refl) as [Hfresh Hin].
      apply IH; [now apply decide_literal_wf |]. simpl. lia.
    + intros [= <- <- <- <-]. nia.
Qed.

End Cdcl_wf.

(** ** CDCL: the counters of a run *)

Section Cdcl_run.
Import CDCL.

Lemma elem_of_variables cls v :
  v ∈ variables cls <-> exists c l, In c cls /\ In l c /\ v = Z.abs l.
Proof.
  unfold variables. rewrite elem_of_list_to_set, list_elem_of_In, in_map_iff. split.
  - intros (l & <- & Hl). apply in_concat in Hl as (c & Hc & Hl). eauto.
  - intros (c & l & Hc & Hl & ->). exists l. split; [reflexivity |].
    apply in_concat. eauto.
Qed.

Lemma variables_nonneg cls v : v ∈ variables cls -> 0 <= v.
Proof. intros H. apply elem_of_variables in H as (c & l & _ & _ & ->). lia. Qed.

Lemma variables_le cls n :
  (forall c l, In c cls -> In l c -> 1 <= Z.abs l <= n) ->
  Z.of_nat (size (variables cls)) <= Z.max 0 n.
Proof.
  intros H.
  assert (variables cls ⊆ list_to_set (Z.of_nat <$> seq 1 (Z.to_nat n))) as Hsub.
  { intros v Hv. apply elem_of_variables in Hv as (c & l & Hc & Hl & ->).
    specialize (H c l Hc Hl). apply elem_of_list_to_set, list_elem_of_fmap.
    exists (Z.to_nat (Z.abs l)). split; [lia |]. apply list_elem_of_In, in_seq. lia. }
  apply subseteq_size in Hsub. rewrite size_list_to_set in Hsub.
  - rewrite length_fmap, length_seq in Hsub. lia.
  - apply NoDup_fmap_2; [apply _ | apply NoDup_seq].
Qed.

Lemma init_watches_vars (Vs : gset Z) idx cls acc acc' :
  (forall i w1 w2, snd acc !! i = Some (w1, w2) -> Z.abs w1 ∈ Vs /\ Z.abs w2 ∈ Vs) ->
  (forall c l, In c cls -> In l c -> Z.abs l ∈ Vs) ->
  init_watches idx cls acc = Done acc' ->
  forall i w1 w2, snd acc' !! i = Some (w1, w2) -> Z.abs w1 ∈ Vs /\ Z.abs w2 ∈ Vs.
Proof.
  revert idx acc. induction cls as [| c cls IH]; intros idx acc Hacc Hcls.
  - now intros [= <-].
  - simpl. destruct (init_watch acc idx c) as [acc1 | |] eqn:E; try discriminate.
    cbn [mbind outcome_bind obind]. apply IH; [| intros; eapply Hcls; eauto using in_cons].
    destruct acc as [w wm]. unfold init_watch in E.
    destruct c as [| c0 [| c1 rest]]; [discriminate | |]; injection E as <-; simpl;
      intros i w1 w2; (destruct (decide (i = idx)) as [-> | Hne];
        [rewrite lookup_insert_eq; intros [= <- <-];
         split; eapply Hcls; simpl; eauto; simpl; tauto
        | rewrite lookup_insert_ne by congruence; apply Hacc]).
Qed.

Lemma count_vars_keys cls v s :
  count_vars cls !! v = Some s -> v ∈ variables cls.
Proof.
  unfold count_vars, variables.
  assert (forall lits (m : gmap Z float),
            fold_left (fun vsids lit =>
                         <[Z.abs lit := PrimFloat.add (default 0%float (vsids !! Z.abs lit)) 1%float]>
                           vsids) lits m !! v = Some s ->
            (exists s0, m !! v = Some s0) \/ In v (map Z.abs lits)) as K.
  { induction lits as [| lit lits IH]; intros m H; [eauto |].
    simpl in H. apply IH in H as [[s0 H] | H]; [| right; now right].
    destruct (decide (v = Z.abs lit)) as [-> | Hne]; [right; now left |].
    rewrite lookup_insert_ne in H by congruence. eauto. }
  intros H. apply K in H as [[s0 H] | H]; [rewrite lookup_empty in H; discriminate |].
  now apply elem_of_list_to_set, list_elem_of_In.
Qed.

Lemma push_all_heap (Vs : gset Z) (vsids : gmap Z float) q :
  (forall v s, vsids !! v = Some s -> v ∈ Vs) ->
  (forall x, In x (heap q) -> snd x ∈ Vs) ->
  forall x, In x (heap (push_all vsids q)) -> snd x ∈ Vs.
Proof.
  intros Hv. unfold push_all.
  assert (forall kvs, (forall k s, In (k, s) kvs -> k ∈ Vs) ->
            forall q, (forall x, In x (heap q) -> snd x ∈ Vs) ->
            forall x, In x (heap (fold_left (fun q '(var, score) => push q var score) kvs q)) ->
                      snd x ∈ Vs) as K.
  { induction kvs as [| [k s] kvs IH]; intros Hk q0 Hq; [exact Hq |].
    simpl. apply IH; [intros; eapply Hk; right; eauto |].
    intros x [<- | Hx]; [simpl; eapply Hk; left; reflexivity | now apply Hq]. }
  apply K. intros k s Hin. apply list_elem_of_In, elem_of_map_to_list in Hin. eauto.
Qed.

Lemma initialize_state_wf cls st :
  initialize_state cls = Done st -> wf (variables cls) st.
Proof.
  unfold initialize_state.
  destruct (init_watches 0 cls (∅, ∅)) as [[w wm] | |] eqn:E; try discriminate.
  cbn [mbind outcome_bind obind]. intros [= <-].
  assert (forall c l, In c cls -> In l c -> Z.abs l ∈ variables cls) as Hcls.
  { intros c l Hc Hl. apply elem_of_variables. eauto. }
  constructor; simpl.
  - intros v. now rewrite !lookup_empty.
  - intros v k. now rewrite lookup_empty.
  - intros k Hk. lia.
  - lia.
  - intros v k. now rewrite lookup_empty.
  - exact Hcls.
  - intros v c l. now rewrite lookup_empty.
  - apply (init_watches_vars (variables cls) 0 cls (∅, ∅) (w, wm)); [| assumption | assumption].
    simpl. intros i w1 w2. now rewrite lookup_empty.
  - apply push_all_heap; [apply count_vars_keys | simpl; tauto].
  - apply count_vars_keys.
Qed.

Lemma assign_units_wf (Vs : gset Z) clauses st st' :
  (forall c l, In c clauses -> In l c -> Z.abs l ∈ Vs) ->
  wf Vs st -> assign_units clauses st = Some st' ->
  wf Vs st' /\ decision_level st' = decision_level st /\ formula st' = formula st.
Proof.
  revert st. induction clauses as [| c clauses IH]; intros st Hc W.
  - now intros [= <-].
  - assert (forall c0 l, In c0 clauses -> In l c0 -> Z.abs l ∈ Vs) as Hc'
      by (intros; eapply Hc; eauto using in_cons).
    simpl. destruct c as [| lit [| l2 rest]]; try (now apply IH).
    destruct (assignment st !! Z.abs lit) as [val |] eqn:Ea.
    + destruct (negb (Bool.eqb val (0 <? lit))); [discriminate | now apply IH].
    + intros H. apply IH in H as (H1 & H2 & H3); [auto | assumption |].
      apply wf_set_literal; [assumption | assumption | | intros l []].
      eapply Hc; [now left | now left].
Qed.

(** The tally of a run of the loop that meets [k - met loc] conflicts: two
    counted conflicts for each, and at most one learned clause. *)
Lemma cdcl_loop_tally fuel gas st stats loc sat st' stats' k :
  nonempty_clauses (formula st) ->
  cdcl_loop fuel gas st stats loc = Done (sat, st', stats', k) ->
  conflicts stats' = conflicts stats + 2 * (Z.of_nat k - Z.of_nat (met loc))
  /\ learned_clauses stats' <= learned_clauses stats + (Z.of_nat k - Z.of_nat (met loc))
  /\ Z.of_nat (met loc) <= Z.of_nat k.
Proof.
  revert st stats loc. induction gas as [| gas IH]; intros st stats loc Hne; [discriminate |].
  cbn [cdcl_loop].
  destruct (propagate fuel st stats) as [[[st1 stats1] r] | |] eqn:Ep; try discriminate.
  cbn [mbind outcome_bind obind].
  apply propagate_spec in Ep as (Hf & -> & Hc).
  assert (nonempty_clauses (formula st1)) as Hne1 by now rewrite Hf.
  destruct r as [[| l ls] |].
  - exfalso. unfold nonempty_clauses in Hne. rewrite Forall_forall in Hne.
    apply (Hne []); [apply list_elem_of_In, Hc |]; reflexivity.
  - destruct (on_conflict fuel st1 (bump_conflicts stats) loc (l :: ls))
      as [[next stats2] | |] eqn:Eo; try discriminate.
    cbn [mbind outcome_bind obind].
    apply on_conflict_spec in Eo as (Hcf & Hd & Hn). simpl in Hcf.
    destruct next as [[st2 loc2] |].
    + destruct Hn as (Hl & Hm & clause & Hcl & Hf2).
      intros H. apply IH in H as (Hcs & Hls & Hk).
      * rewrite Hm in *. simpl in Hl. lia.
      * unfold nonempty_clauses. rewrite Hf2. apply Forall_app. split; [exact Hne1 |].
        now constructor.
    + intros [= <- <- <- <-]. simpl in Hn. lia.
  - pose proof (select_branch_literal_formula st1) as Hs.
    destruct (select_branch_literal st1) as [[literal |] st2]; simpl in Hs.
    + intros H. apply IH in H as (Hcs & Hls & Hk).
      * simpl in Hcs, Hls. auto.
      * simpl. now rewrite Hs.
    + intros [= <- <- <- <-]. lia.
Qed.

(** X1: in every CDCL run that returns, the learned clauses are at most the
    conflicts (indeed at most half of them), and the decisions are at most
    [V (conflicts / 2 + 1)], where [V] is the number of distinct variables
    of the clauses; [V] is at most [num_vars] when every literal of the
    input lies in [1 .. num_vars]. *)
Theorem cdcl_counter_bounds fuel data r :
  run_solver fuel data = Done r ->
  exists f d c l,
    Parser.parse_dimacs data = Done f
    /\ field "decisions" r = Some (VInt d)
    /\ field "conflicts" r = Some (VInt c)
    /\ field "learned_clauses" r = Some (VInt l)
    /\ l <= c /\ 2 * l <= c
    /\ 2 * d <= Z.of_nat (size (variables (Parser.clauses f))) * (c + 2)
    /\ (0 <= Parser.num_vars f ->
        (forall clause lit, In clause (Parser.clauses f) -> In lit clause ->
           1 <= Z.abs lit <= Parser.num_vars f) ->
        2 * d <= Parser.num_vars f * (c + 2)).
Proof.
  unfold run_solver. destruct (Parser.parse_dimacs data) as [f | |]; try discriminate.
  cbn [mbind outcome_bind obind].
  destruct (initialize_state (Parser.clauses f)) as [st0 | |] eqn:Ei; try discriminate.
  cbn [mbind outcome_bind obind].
  set (V := Z.of_nat (size (variables (Parser.clauses f)))).
  assert (0 <= V) as HV by (unfold V; lia).
  assert (forall d c, 0 <= c -> 2 * d <= V * (c + 2) ->
            0 <= Parser.num_vars f ->
            (forall clause lit, In clause (Parser.clauses f) -> In lit clause ->
               1 <= Z.abs lit <= Parser.num_vars f) ->
            2 * d <= Parser.num_vars f * (c + 2)) as Hnum.
  { intros d c Hc Hd Hn Hwf. pose proof (variables_le _ _ Hwf) as Hle. fold V in Hle. nia. }
  pose proof (initialize_state_wf _ _ Ei) as W0.
  destruct (initialize_state_spec _ _ Ei) as [Hf0 Hne0].
  destruct (assign_units (formula st0) st0) as [st1 |] eqn:Eu.
  - apply assign_units_wf with (Vs := variables (Parser.clauses f)) in Eu
      as (W1 & Hl1 & Hf1); [| apply (wf_formula _ _ W0) | assumption].
    destruct (propagate fuel st1 stats0) as [[[st2 stats2] conflict] | |] eqn:Ep;
      try discriminate.
    cbn [mbind outcome_bind obind].
    pose proof (propagate_wf _ _ _ _ _ _ _ W1 Ep) as W2.
    destruct (propagate_level _ _ _ _ _ _ Ep) as [Hl2 _].
    apply propagate_spec in Ep as (Hf2 & Hs2 & _).
    destruct conflict as [c |].
    + intros [= <-]. exists f, 0, 0, 0. split; [reflexivity |]. do 3 (split; [reflexivity |]).
      split; [lia |]. split; [lia |]. split; [lia |].
      intros Hn Hwf. apply Hnum; [lia | lia | assumption | assumption].
    + subst stats2. unfold cdcl.
      destruct (cdcl_loop fuel fuel st2 stats0 locals0) as [[[[sat st3] stats3] k] | |] eqn:Ec;
        try discriminate.
      cbn [mbind outcome_bind obind]. intros [= <-].
      pose proof (wf_level0 _ _ W2) as Hlev.
      assert (decisions stats0
              <= Z.of_nat (size (variables (Parser.clauses f))) * Z.of_nat (met locals0)
                 + decision_level st2) as Hd0 by (simpl; lia).
      pose proof (cdcl_loop_decisions _ (variables_nonneg _) _ _ _ _ _ _ _ _ _ W2 Hd0 Ec) as Hd.
      apply cdcl_loop_tally in Ec as (Hcf & Hln & _);
        [| rewrite Hf2, Hf1, Hf0; exact Hne0].
      simpl in Hcf, Hln.
      exists f, (decisions stats3), (conflicts stats3), (learned_clauses stats3).
      fold V in Hd.
      split; [reflexivity |]. do 3 (split; [reflexivity |]).
      split; [lia |]. split; [lia |]. split; [nia |].
      intros Hn Hwf. apply Hnum; [lia | nia | assumption | assumption].
  - intros [= <-]. exists f, 0, 0, 0. split; [reflexivity |]. do 3 (split; [reflexivity |]).
    split; [lia |]. split; [lia |]. split; [lia |].
    intros Hn Hwf. apply Hnum; [lia | lia | assumption | assumption].
Qed.

Lemma cdcl_counter_bounds_witness :
  exists r f d c l,
    run_solver 100 padded_formula_text = Done r
    /\ Parser.parse_dimacs padded_formula_text = Done f
    /\ field "decisions" r = Some (VInt d)
    /\ field "conflicts" r = Some (VInt c)
    /\ field "learned_clauses" r = Some (VInt l)
    /\ l <= c /\ 2 * d <= Parser.num_vars f * (c + 2).
Proof.
  destruct (run_solver 100 padded_formula_text) as [r | |] eqn:E;
    [| exfalso; vm_compute in E; discriminate ..].
  destruct (cdcl_counter_bounds _ _ _ E) as (f & d & c & l & Hp & Hd & Hc & Hl & H1 & _ & _ & H2).
  exists r, f, d, c, l. repeat (split; [assumption || reflexivity |]).
  apply H2.
  - vm_compute in Hp. injection Hp as <-. simpl. lia.
  - vm_compute in Hp. injection Hp as <-. simpl.
    intros clause lit Hin Hlit.
    repeat (destruct Hin as [<- | Hin]; [simpl in Hlit; intuition lia |]). destruct Hin.
Defined.

End Cdcl_run.

(** ** Local search: models, budgets and exceptions *)

Section Local_search.
Import LocalSearch.

Lemma clause_satisfied_value clause a :
  Harness.clause_satisfied clause a = clause_value clause a.
Proof. induction clause as [| l c IH]; simpl; [reflexivity |]. now rewrite IH. Qed.

Lemma unsatisfied_none clauses a :
  unsatisfied_clauses clauses a = [] ->
  forallb (fun clause => Harness.clause_satisfied clause a) clauses = true.
Proof.
  intros H. apply forallb_forall. intros c Hc. rewrite clause_satisfied_value.
  destruct (clause_value c a) eqn:E; [reflexivity |]. exfalso.
  assert (c ∈ unsatisfied_clauses clauses a) as Hin.
  { apply list_elem_of_filter. split; [rewrite E; exact I | now apply list_elem_of_In]. }
  rewrite H in Hin. inversion Hin.
Qed.

Lemma walk_steps_ok R steps clauses noise a stats g r stats' g' :
  WalkSAT.walk_steps R steps clauses noise a stats g = Done (r, stats', g') ->
  attempt_ok clauses (Z.of_nat steps) stats r stats'.
Proof.
  unfold attempt_ok.
  revert a stats g. induction steps as [| steps IH]; intros a stats g.
  { intros [= <- <- <-]. split; [discriminate | lia]. }
  cbn [WalkSAT.walk_steps].
  destruct (unsatisfied_clauses clauses a) as [| u us] eqn:Eu.
  - intros [= <- <- <-]. split; [now intros ? [= <-] | lia].
  - destruct (choice R (u :: us) g) as [[clause g1] | |]; try discriminate.
    cbn [mbind outcome_bind obind].
    destruct (random R g1) as [x g2].
    destruct (PrimFloat.ltb x noise).
    + destruct (choice R clause g2) as [[lit g3] | |]; try discriminate.
      cbn [mbind outcome_bind obind].
      destruct (flip_variable a (Z.abs lit)) as [a1 | |]; try discriminate.
      cbn [mbind outcome_bind obind].
      intros H. apply IH in H as (H1 & H2 & H3). simpl in H2, H3. split; [assumption | lia].
    + destruct (WalkSAT.best_flip clauses a clause None None) as [best | |]; try discriminate.
      cbn [mbind outcome_bind obind].
      destruct (match best with Some v => Done (v, g2) | None => _ end) as [[bv g3] | |];
        try discriminate.
      cbn [mbind outcome_bind obind].
      destruct (flip_variable a bv) as [a1 | |]; try discriminate.
      cbn [mbind outcome_bind obind].
      intros H. apply IH in H as (H1 & H2 & H3). simpl in H2, H3. split; [assumption | lia].
Qed.

Lemma prob_steps_ok math_pow R steps clauses epsilon a stats g r stats' g' :
  ProbSAT.prob_steps math_pow R steps clauses epsilon a stats g = Done (r, stats', g') ->
  attempt_ok clauses (Z.of_nat steps) stats r stats'.
Proof.
  unfold attempt_ok.
  revert a stats g. induction steps as [| steps IH]; intros a stats g.
  { intros [= <- <- <-]. split; [discriminate | lia]. }
  cbn [ProbSAT.prob_steps].
  destruct (unsatisfied_clauses clauses a) as [| u us] eqn:Eu.
  - intros [= <- <- <-]. split; [now intros ? [= <-] | lia].
  - destruct (choice R (u :: us) g) as [[clause g1] | |]; try discriminate.
    cbn [mbind outcome_bind obind].
    destruct (ProbSAT.select_variable_probabilistic math_pow R clause clauses a epsilon g1)
      as [[var g2] | |]; try discriminate.
    cbn [mbind outcome_bind obind].
    destruct (flip_variable a var) as [a1 | |]; try discriminate.
    cbn [mbind outcome_bind obind].
    intros H. apply IH in H as (H1 & H2 & H3). simpl in H2, H3. split; [assumption | lia].
Qed.

Lemma walk_sat_ok R clauses num_vars max_flips noise stats g r stats' g' :
  WalkSAT.walk_sat R clauses num_vars max_flips noise stats g = Done (r, stats', g') ->
  attempt_ok clauses (Z.of_nat (Z.to_nat max_flips)) stats r stats'.
Proof.
  unfold WalkSAT.walk_sat.
  destruct (initialize_assignment R num_vars g) as [[a g1] | |]; try discriminate.
  apply walk_steps_ok.
Qed.

Lemma prob_sat_ok math_pow R clauses num_vars max_flips epsilon stats g r stats' g' :
  ProbSAT.prob_sat math_pow R clauses num_vars max_flips epsilon stats g = Done (r, stats', g') ->
  attempt_ok clauses (Z.of_nat (Z.to_nat max_flips)) stats r stats'.
Proof.
  unfold ProbSAT.prob_sat.
  destruct (initialize_assignment R num_vars g) as [[a g1] | |]; try discriminate.
  apply prob_steps_ok.
Qed.

(** The restart loop over attempts of that kind. *)
Lemma attempts_ok R attempt clauses m n stats g r stats' g' :
  0 <= m ->
  (forall s g0 r0 s' g1, attempt s g0 = Done (r0, s', g1) -> attempt_ok clauses m s r0 s') ->
  attempts R attempt n stats g = Done (r, stats', g') ->
  (forall a, r = Some a -> unsatisfied_clauses clauses a = [])
  /\ restarts stats <= restarts stats' <= restarts stats + Z.of_nat n
  /\ (r = None -> restarts stats' = restarts stats + Z.of_nat n)
  /\ flips stats <= flips stats'
  /\ flips stats' <= flips stats + m * Z.of_nat n
  /\ flips stats' <= flips stats + m * (restarts stats' - restarts stats + 1).
Proof.
  intros Hm Hat. revert stats g. induction n as [| n IH]; intros stats g.
  { intros [= <- <- <-]. split; [discriminate |]. repeat split; try lia. }
  cbn [attempts].
  destruct (attempt stats g) as [[[r0 s1] g1] | |] eqn:E; try discriminate.
  cbn [mbind outcome_bind obind]. apply Hat in E as (H1 & H2 & H3).
  destruct r0 as [a |].
  - intros [= <- <- <-]. split; [assumption |]. split; [lia |]. split; [discriminate |]. nia.
  - intros H. apply IH in H as (K1 & K2 & K3 & K4 & K5 & K6). simpl in *.
    split; [assumption |]. split; [lia |]. split; [intros Hr; specialize (K3 Hr); lia |]. nia.
Qed.

(** The record of a run, from what the restart loop returned. *)
Lemma result_sat name f stats best :
  status_of (result name f stats best) = Some (VStr "SAT") ->
  exists a, best = Some a /\ a <> ∅ /\ field "assignment" (result name f stats best) = Some (VAssign a).
Proof.
  unfold status_of, result. destruct best as [a |]; simpl; [| discriminate].
  destruct (bool_decide (a = ∅)) eqn:E; simpl; [discriminate |].
  intros _. exists a. apply bool_decide_eq_false in E. auto.
Qed.

Lemma verify_model clauses a :
  a <> ∅ -> unsatisfied_clauses clauses a = [] -> Harness.verify_assignment clauses a = true.
Proof.
  intros Ha Hu. unfold Harness.verify_assignment.
  rewrite bool_decide_eq_false_2 by assumption. now apply unsatisfied_none.
Qed.

(** A WalkSAT or probSAT record with status SAT carries an assignment that
    the harness's [verify_assignment] accepts for the parsed clauses. *)
Theorem local_search_sat_verified (R : Rng) (math_pow : float -> Z -> float)
  (data : Parser.text) (max_flips restarts : Z) (noise epsilon : float) (g : gen R) f :
  Parser.parse_dimacs data = Done f ->
  (forall r g', WalkSAT.run_solver R data max_flips noise restarts g = Done (r, g') ->
     status_of r = Some (VStr "SAT") ->
     exists a, field "assignment" r = Some (VAssign a)
               /\ Harness.verify_assignment (Parser.clauses f) a = true)
  /\ (forall r g', ProbSAT.run_solver math_pow R data max_flips epsilon restarts g = Done (r, g') ->
       status_of r = Some (VStr "SAT") ->
       exists a, field "assignment" r = Some (VAssign a)
                 /\ Harness.verify_assignment (Parser.clauses f) a = true).
Proof.
  intros Hp. split; intros r g'.
  - unfold WalkSAT.run_solver. rewrite Hp. cbn [mbind outcome_bind obind].
    destruct (attempts _ _ _ _ _) as [[[best stats] g1] | |] eqn:E; try discriminate.
    cbn [mbind outcome_bind obind]. intros [= <- <-] Hs.
    apply result_sat in Hs as (a & -> & Ha & Hf). exists a. split; [assumption |].
    eapply attempts_ok in E as (H1 & _); [| | intros; eapply walk_sat_ok; eassumption]; [| lia].
    apply verify_model; auto.
  - unfold ProbSAT.run_solver. rewrite Hp. cbn [mbind outcome_bind obind].
    destruct (attempts _ _ _ _ _) as [[[best stats] g1] | |] eqn:E; try discriminate.
    cbn [mbind outcome_bind obind]. intros [= <- <-] Hs.
    apply result_sat in Hs as (a & -> & Ha & Hf). exists a. split; [assumption |].
    eapply attempts_ok in E as (H1 & _); [| | intros; eapply prob_sat_ok; eassumption]; [| lia].
    apply verify_model; auto.
Qed.

Lemma result_counters name f stats best :
  field "flips" (result name f stats best) = Some (VInt (flips stats))
  /\ field "restarts" (result name f stats best) = Some (VInt (restarts stats)).
Proof. split; reflexivity. Qed.

(** The counters of a WalkSAT or probSAT record: at most [restarts]
    restarts, and at most [max_flips] flips for each attempt made (negative
    parameters count as zero). *)
Theorem local_search_flips_bounded (R : Rng) (math_pow : float -> Z -> float)
  (data : Parser.text) (max_flips restarts : Z) (noise epsilon : float) (g : gen R) :
  (forall r g', WalkSAT.run_solver R data max_flips noise restarts g = Done (r, g') ->
     within_budget max_flips restarts r)
  /\ (forall r g', ProbSAT.run_solver math_pow R data max_flips epsilon restarts g = Done (r, g') ->
       within_budget max_flips restarts r).
Proof.
  split; intros r g'.
  - unfold WalkSAT.run_solver. destruct (Parser.parse_dimacs data) as [f | |]; try discriminate.
    cbn [mbind outcome_bind obind].
    destruct (attempts _ _ _ _ _) as [[[best stats] g1] | |] eqn:E; try discriminate.
    cbn [mbind outcome_bind obind]. intros [= <- <-].
    eapply attempts_ok in E as (_ & H2 & _ & H4 & H5 & H6);
      [| | intros; eapply walk_sat_ok; eassumption]; [| lia].
    exists (flips stats), (LocalSearch.restarts stats). simpl in *.
    split; [reflexivity |]. split; [reflexivity |]. replace (Z.of_nat (Z.to_nat max_flips)) with (Z.max 0 max_flips) in * by lia.
    replace (Z.of_nat (Z.to_nat restarts)) with (Z.max 0 restarts) in * by lia. lia.
  - unfold ProbSAT.run_solver. destruct (Parser.parse_dimacs data) as [f | |]; try discriminate.
    cbn [mbind outcome_bind obind].
    destruct (attempts _ _ _ _ _) as [[[best stats] g1] | |] eqn:E; try discriminate.
    cbn [mbind outcome_bind obind]. intros [= <- <-].
    eapply attempts_ok in E as (_ & H2 & _ & H4 & H5 & H6);
      [| | intros; eapply prob_sat_ok; eassumption]; [| lia].
    exists (flips stats), (LocalSearch.restarts stats). simpl in *.
    split; [reflexivity |]. split; [reflexivity |]. replace (Z.of_nat (Z.to_nat max_flips)) with (Z.max 0 max_flips) in * by lia.
    replace (Z.of_nat (Z.to_nat restarts)) with (Z.max 0 restarts) in * by lia. lia.
Qed.

(** *** Exceptions *)

Lemma choice_in_range R {A} (l : list A) g :
  rng_in_range R -> l <> [] -> exists x g', choice R l g = Done (x, g') /\ In x l.
Proof.
  intros HR Hl. unfold choice. destruct l as [| x0 l0]; [contradiction |].
  specialize (HR (length (x0 :: l0)) g ltac:(simpl; lia)).
  destruct (randbelow R (length (x0 :: l0)) g) as [i g1]. simpl fst in HR.
  destruct (nth_error (x0 :: l0) i) as [x |] eqn:E.
  - exists x, g1. split; [reflexivity |]. eapply nth_error_In, E.
  - apply nth_error_None in E. lia.
Qed.

Lemma total_on_insert n a v b : total_on n a -> 1 <= v <= n -> total_on n (<[v := b]> a).
Proof.
  intros Ha Hv w. destruct (decide (v = w)) as [-> | Hne].
  - rewrite lookup_insert_eq. split; [intros _; exact Hv | eauto].
  - rewrite lookup_insert_ne by assumption. apply Ha.
Qed.

Lemma flip_total n a v :
  total_on n a -> 1 <= v <= n -> exists a', flip_variable a v = Done a' /\ total_on n a'.
Proof.
  intros Ha Hv. unfold flip_variable. destruct (proj2 (Ha v) Hv) as [b ->].
  eexists. split; [reflexivity |]. now apply total_on_insert.
Qed.

Lemma initialize_fold_total R (vars : list Z) (a : gmap Z bool) (g : gen R) :
  rng_in_range R ->
  exists (a' : gmap Z bool) g',
    foldO (fun '(a, g) var => '(b, g') ← choice R [true; false] g;
                              Done (<[var := b]> (a : gmap Z bool), g'))
          vars (a, g) = Done (a', g')
    /\ (forall v, is_Some (a' !! v) <-> is_Some (a !! v) \/ In v vars).
Proof.
  intros HR. revert a g. induction vars as [| var vars IH]; intros a g.
  - exists a, g. split; [reflexivity |]. intros v. simpl. tauto.
  - cbn [foldO].
    destruct (choice_in_range R [true; false] g HR ltac:(discriminate)) as (b & g1 & -> & _).
    cbn [mbind outcome_bind obind].
    destruct (IH (<[var := b]> a) g1) as (a' & g' & -> & H).
    exists a', g'. split; [reflexivity |]. intros v. rewrite H.
    destruct (decide (var = v)) as [-> | Hne].
    + rewrite lookup_insert_eq. simpl. split; [intros _; right; now left | eauto].
    + rewrite lookup_insert_ne by assumption. simpl. split; [tauto |].
      intros [? | [? | ?]]; [tauto | congruence | tauto].
Qed.

Lemma initialize_assignment_total R num_vars g :
  rng_in_range R ->
  exists a g', initialize_assignment R num_vars g = Done (a, g') /\ total_on num_vars a.
Proof.
  intros HR. unfold initialize_assignment.
  destruct (initialize_fold_total R (range_from 1 (Z.to_nat num_vars + 1)) ∅ g HR)
    as (a & g' & -> & H).
  exists a, g'. split; [reflexivity |]. intros v. rewrite H. rewrite lookup_empty.
  unfold range_from. rewrite in_map_iff. split.
  - intros [[x Hx] | (k & <- & Hk)]; [discriminate |]. apply in_seq in Hk. lia.
  - intros Hv. right. exists (Z.to_nat v). split; [lia |]. apply in_seq. lia.
Qed.

(** Clauses whose literals all name a variable of [1 .. n]. *)
Lemma best_flip_total n clauses a clause bv bs :
  total_on n a -> (forall l, In l clause -> 1 <= Z.abs l <= n) ->
  (exists v, bv = Some v /\ 1 <= v <= n) \/ (bs = None /\ clause <> []) ->
  exists v, WalkSAT.best_flip clauses a clause bv bs = Done (Some v) /\ 1 <= v <= n.
Proof.
  intros Ha. revert bv bs. induction clause as [| lit rest IH]; intros bv bs Hc Hb.
  - destruct Hb as [(v & -> & Hv) | [_ []]]; [| reflexivity]. exists v. now split.
  - cbn [WalkSAT.best_flip].
    assert (1 <= Z.abs lit <= n) as Hl by (apply Hc; now left).
    destruct (flip_total n a (Z.abs lit) Ha Hl) as (a1 & -> & Ha1).
    cbn [mbind outcome_bind obind].
    destruct (flip_total n a1 (Z.abs lit) Ha1 Hl) as (a2 & -> & _).
    cbn [mbind outcome_bind obind].
    assert (forall l, In l rest -> 1 <= Z.abs l <= n) as Hc' by (intros; apply Hc; now right).
    destruct bs as [b |].
    + destruct Hb as [Hb | [Hb _]]; [| discriminate].
      destruct (_ <? _)%nat; apply IH; eauto.
    + apply IH; eauto.
Qed.

Lemma unsatisfied_sub clauses a c : In c (unsatisfied_clauses clauses a) -> In c clauses.
Proof.
  intros H. apply list_elem_of_In in H. apply list_elem_of_filter in H as [_ H].
  now apply list_elem_of_In.
Qed.

Lemma walk_steps_total R n steps clauses noise a stats g :
  rng_in_range R -> total_on n a ->
  (forall c, In c clauses -> c <> [] /\ forall l, In l c -> 1 <= Z.abs l <= n) ->
  exists r stats' g', WalkSAT.walk_steps R steps clauses noise a stats g = Done (r, stats', g').
Proof.
  intros HR Ha Hc. revert a stats g Ha. induction steps as [| steps IH]; intros a stats g Ha.
  { simpl. eauto. }
  cbn [WalkSAT.walk_steps].
  destruct (unsatisfied_clauses clauses a) as [| u us] eqn:Eu; [eauto |].
  destruct (choice_in_range R (u :: us) g HR ltac:(discriminate)) as (clause & g1 & -> & Hin).
  cbn [mbind outcome_bind obind].
  rewrite <- Eu in Hin. apply unsatisfied_sub, Hc in Hin as [Hne Hl].
  destruct (random R g1) as [x g2].
  destruct (PrimFloat.ltb x noise).
  - destruct (choice_in_range R clause g2 HR Hne) as (lit & g3 & -> & Hlit).
    cbn [mbind outcome_bind obind].
    destruct (flip_total n a (Z.abs lit) Ha (Hl _ Hlit)) as (a1 & -> & Ha1).
    cbn [mbind outcome_bind obind]. now apply IH.
  - destruct (best_flip_total n clauses a clause None None Ha Hl) as (v & -> & Hv); [now right |].
    cbn [mbind outcome_bind obind].
    destruct (flip_total n a v Ha Hv) as (a1 & -> & Ha1).
    cbn [mbind outcome_bind obind]. now apply IH.
Qed.

Lemma attempts_total R attempt n stats g :
  (forall s g0, exists r s' g1, attempt s g0 = Done (r, s', g1)) ->
  exists r stats' g', attempts R attempt n stats g = Done (r, stats', g').
Proof.
  intros H. revert stats g. induction n as [| n IH]; intros stats g; [simpl; eauto |].
  cbn [attempts]. destruct (H stats g) as (r & s' & g1 & ->). cbn [mbind outcome_bind obind].
  destruct r; [eauto | apply IH].
Qed.

(** On an input whose literals all name a variable of [1 .. num_vars],
    WalkSAT raises nothing, whatever the generator draws. *)
Theorem walksat_no_exception (R : Rng) (data : Parser.text) (max_flips restarts : Z)
  (noise : float) (g : gen R) f :
  rng_in_range R ->
  Parser.parse_dimacs data = Done f ->
  (forall c l, In c (Parser.clauses f) -> In l c -> 1 <= Z.abs l <= Parser.num_vars f) ->
  exists r g', WalkSAT.run_solver R data max_flips noise restarts g = Done (r, g').
Proof.
  intros HR Hp Hwf. unfold WalkSAT.run_solver. rewrite Hp. cbn [mbind outcome_bind obind].
  destruct (attempts_total R
              (WalkSAT.walk_sat R (Parser.clauses f) (Parser.num_vars f) max_flips noise)
              (Z.to_nat restarts) stats0 g) as (r & stats' & g' & ->).
  - intros s g0. unfold WalkSAT.walk_sat.
    destruct (initialize_assignment_total R (Parser.num_vars f) g0 HR) as (a & g1 & -> & Ha).
    cbn [mbind outcome_bind obind].
    apply walk_steps_total with (n := Parser.num_vars f); [assumption | assumption |].
    intros c Hc. split; [| intros l Hl; now apply (Hwf c l)].
    intros ->. now apply (parse_dimacs_no_empty _ _ Hp).
  - cbn [mbind outcome_bind obind]. eauto.
Qed.

(** Without variables nothing can be flipped. *)
Lemma flip_nothing n a v : total_on n a -> n <= 0 -> flip_variable a v = Raised KeyError.
Proof.
  intros Ha Hn. unfold flip_variable. destruct (a !! v) as [b |] eqn:E; [| reflexivity].
  assert (is_Some (a !! v)) as H by eauto. apply Ha in H. lia.
Qed.

Lemma unsatisfied_all n clauses a :
  total_on n a -> n <= 0 -> unsatisfied_clauses clauses a = clauses.
Proof.
  intros Ha Hn.
  assert (forall c, clause_value c a = false) as Hv.
  { induction c as [| l c IH]; [reflexivity |]. simpl.
    destruct (a !! Z.abs l) as [b |] eqn:E; [| exact IH].
    assert (is_Some (a !! Z.abs l)) as H by eauto. apply Ha in H. lia. }
  unfold unsatisfied_clauses. induction clauses as [| c cs IH]; [reflexivity |].
  rewrite filter_cons_True by (rewrite Hv; exact I). now rewrite IH.
Qed.

Lemma walk_steps_no_variables R n steps clauses noise a stats g :
  rng_in_range R -> total_on n a -> n <= 0 -> clauses <> [] -> ~ In [] clauses ->
  WalkSAT.walk_steps R (S steps) clauses noise a stats g = Raised KeyError.
Proof.
  intros HR Ha Hn Hne Hc. cbn [WalkSAT.walk_steps].
  rewrite (unsatisfied_all n) by assumption.
  destruct clauses as [| c0 cs]; [contradiction |].
  destruct (choice_in_range R (c0 :: cs) g HR ltac:(discriminate)) as (clause & g1 & -> & Hin).
  cbn [mbind outcome_bind obind].
  destruct (random R g1) as [x g2].
  assert (clause <> []) as Hcl by (intros ->; contradiction).
  destruct (PrimFloat.ltb x noise).
  - destruct (choice_in_range R clause g2 HR Hcl) as (lit & g3 & -> & _).
    cbn [mbind outcome_bind obind]. now rewrite (flip_nothing n).
  - destruct clause as [| lit rest]; [contradiction |].
    cbn [WalkSAT.best_flip]. now rewrite (flip_nothing n).
Qed.

Lemma prob_steps_no_variables math_pow R n steps clauses epsilon a stats g :
  rng_in_range R -> total_on n a -> n <= 0 -> clauses <> [] -> ~ In [] clauses ->
  ProbSAT.prob_steps math_pow R (S steps) clauses epsilon a stats g = Raised KeyError.
Proof.
  intros HR Ha Hn Hne Hc. cbn [ProbSAT.prob_steps].
  rewrite (unsatisfied_all n) by assumption.
  destruct clauses as [| c0 cs]; [contradiction |].
  destruct (choice_in_range R (c0 :: cs) g HR ltac:(discriminate)) as (clause & g1 & -> & Hin).
  cbn [mbind outcome_bind obind].
  destruct clause as [| lit rest]; [contradiction |].
  unfold ProbSAT.select_variable_probabilistic. cbn [ProbSAT.weigh].
  unfold ProbSAT.break_score. now rewrite (flip_nothing n).
Qed.

(** A file with clauses but no variable count (no problem line, or a count
    of zero) makes WalkSAT and probSAT raise [KeyError] at the first flip. *)
Theorem local_search_needs_header (R : Rng) (math_pow : float -> Z -> float)
  (data : Parser.text) (max_flips restarts : Z) (noise epsilon : float) (g : gen R) f :
  rng_in_range R ->
  Parser.parse_dimacs data = Done f ->
  Parser.num_vars f <= 0 -> Parser.clauses f <> [] ->
  1 <= max_flips -> 1 <= restarts ->
  WalkSAT.run_solver R data max_flips noise restarts g = Raised KeyError
  /\ ProbSAT.run_solver math_pow R data max_flips epsilon restarts g = Raised KeyError.
Proof.
  intros HR Hp Hn Hne Hm Hr.
  pose proof (parse_dimacs_no_empty _ _ Hp) as Hc.
  destruct (Z.to_nat max_flips) as [| steps] eqn:Es; [lia |].
  destruct (Z.to_nat restarts) as [| n] eqn:En; [lia |].
  destruct (initialize_assignment_total R (Parser.num_vars f) g HR) as (a & g1 & Ei & Ha).
  split.
  - unfold WalkSAT.run_solver. rewrite Hp, En. cbn [mbind outcome_bind obind attempts].
    unfold WalkSAT.walk_sat. rewrite Ei, Es. cbn [mbind outcome_bind obind].
    now rewrite (walk_steps_no_variables R (Parser.num_vars f)).
  - unfold ProbSAT.run_solver. rewrite Hp, En. cbn [mbind outcome_bind obind attempts].
    unfold ProbSAT.prob_sat. rewrite Ei, Es. cbn [mbind outcome_bind obind].
    now rewrite (prob_steps_no_variables math_pow R (Parser.num_vars f)).
Qed.

Lemma local_search_sat_verified_witness :
  exists f r g' a,
    Parser.parse_dimacs padded_formula_text = Done f
    /\ WalkSAT.run_solver counter_rng padded_formula_text 100 0.5 1 0%nat = Done (r, g')
    /\ field "assignment" r = Some (VAssign a)
    /\ Harness.verify_assignment (Parser.clauses f) a = true.
Proof.
  destruct (Parser.parse_dimacs padded_formula_text) as [f | |] eqn:Hp;
    [| exfalso; vm_compute in Hp; discriminate ..].
  destruct (WalkSAT.run_solver counter_rng padded_formula_text 100 0.5 1 0%nat)
    as [[r g'] | |] eqn:E; [| exfalso; vm_compute in E; discriminate ..].
  destruct (local_search_sat_verified counter_rng (fun x _ => x) padded_formula_text
              100 1 0.5 0.5 0%nat f Hp) as [HW _].
  destruct (HW r g' E) as (a & Ha & Hv).
  - vm_compute in E. injection E as <- <-. reflexivity.
  - exists f, r, g', a. auto.
Defined.

Lemma local_search_flips_bounded_witness :
  exists r g',
    WalkSAT.run_solver counter_rng padded_formula_text 100 0.5 1 0%nat = Done (r, g')
    /\ within_budget 100 1 r.
Proof.
  destruct (WalkSAT.run_solver counter_rng padded_formula_text 100 0.5 1 0%nat)
    as [[r g'] | |] eqn:E; [| exfalso; vm_compute in E; discriminate ..].
  exists r, g'. split; [reflexivity |].
  exact (proj1 (local_search_flips_bounded counter_rng (fun x _ => x) padded_formula_text
                  100 1 0.5 0.5 0%nat) r g' E).
Defined.

Lemma counter_rng_in_range : rng_in_range counter_rng.
Proof. intros n g Hn. simpl. apply Nat.mod_upper_bound. lia. Qed.

Lemma walksat_no_exception_witness :
  exists r g', WalkSAT.run_solver counter_rng padded_formula_text 100 0.5 1 0%nat = Done (r, g').
Proof.
  destruct (Parser.parse_dimacs padded_formula_text) as [f | |] eqn:Hp;
    [| exfalso; vm_compute in Hp; discriminate ..].
  apply (walksat_no_exception counter_rng padded_formula_text 100 1 0.5 0%nat f
           counter_rng_in_range Hp).
  vm_compute in Hp. injection Hp as <-. simpl.
  intros c l Hin Hl.
  repeat (destruct Hin as [<- | Hin]; [simpl in Hl; intuition lia |]). destruct Hin.
Defined.

Lemma local_search_needs_header_witness :
  WalkSAT.run_solver counter_rng headless_text 100 0.5 1 0%nat = Raised KeyError
  /\ ProbSAT.run_solver (fun x _ => x) counter_rng headless_text 100 0.5 1 0%nat
     = Raised KeyError.
Proof.
  destruct (Parser.parse_dimacs headless_text) as [f | |] eqn:Hp;
    [| exfalso; vm_compute in Hp; discriminate ..].
  apply (local_search_needs_header counter_rng (fun x _ => x) headless_text 100 1 0.5 0.5
           0%nat f counter_rng_in_range Hp);
    try lia; vm_compute in Hp; injection Hp as <-; simpl; [lia | discriminate].
Defined.

End Local_search.

(** ** DPLL-JW: answers and termination *)

Section Dpll_models.
Import DPLL.

Lemma clause_satisfied_iff c a :
  Harness.clause_satisfied c a = true
  <-> exists l val, In l c /\ a !! Z.abs l = Some val /\ lit_sat l val = true.
Proof.
  induction c as [| x c IH]; simpl.
  - split; [discriminate | now intros (l & val & [] & _)].
  - destruct (a !! Z.abs x) as [v |] eqn:E.
    + destruct (lit_sat x v) eqn:Es.
      * split; [intros _; exists x, v; auto | reflexivity].
      * rewrite IH. split.
        -- intros (l & val & Hl & H). exists l, val. auto.
        -- intros (l & val & [<- | Hl] & Ha & Hs); [congruence | eauto].
    + rewrite IH. split.
      * intros (l & val & Hl & H). exists l, val. auto.
      * intros (l & val & [<- | Hl] & Ha & Hs); [congruence | eauto].
Qed.

Lemma clause_satisfied_mono c (a a' : gmap Z bool) :
  a ⊆ a' -> Harness.clause_satisfied c a = true -> Harness.clause_satisfied c a' = true.
Proof.
  intros Hsub. rewrite !clause_satisfied_iff. intros (l & val & Hl & Ha & Hs).
  exists l, val. split; [assumption |]. split; [| assumption].
  eapply lookup_weaken; eauto.
Qed.

Lemma lit_sat_self l : l <> 0 -> lit_sat l (0 <? l) = true.
Proof.
  intros Hl. unfold lit_sat. destruct (0 <? l) eqn:E1; [reflexivity |].
  simpl. apply Z.ltb_ge in E1. rewrite andb_true_r. apply Z.ltb_lt. lia.
Qed.

Lemma filter_incl {A} (P : A -> Prop) `{forall x, Decision (P x)} (l : list A) :
  incl (filter P l) l.
Proof. intros x Hx. apply list_elem_of_In in Hx. apply list_elem_of_filter in Hx as [_ Hx]. now apply list_elem_of_In. Qed.

Lemma reduce_clauses_parts lit cur cur' :
  reduce_clauses lit cur = Some cur' ->
  (forall c, In c cur -> In lit c \/ exists c', In c' cur' /\ incl c' c)
  /\ drawn_from cur' cur.
Proof.
  revert cur'. induction cur as [| c cur IH]; intros cur'.
  - intros [= <-]. split; [now intros c [] | now intros c []].
  - simpl. destruct (mem lit c) eqn:E1.
    + intros H. destruct (IH _ H) as [H1 H2]. split.
      * intros c0 [<- | Hc0]; [left; now apply mem_In | auto].
      * intros c0 Hc0. destruct (H2 c0 Hc0) as (c1 & Hc1 & Hi). eauto using in_cons.
    + assert (forall u x, reduce_clauses lit cur = Some u -> incl x c ->
                (forall c0, In c0 (c :: cur) ->
                   In lit c0 \/ exists c', In c' (x :: u) /\ incl c' c0)
                /\ drawn_from (x :: u) (c :: cur)) as K.
      { intros u x Hu Hx. destruct (IH _ Hu) as [H1 H2]. split.
        - intros c0 [<- | Hc0]; [right; exists x; split; [now left | assumption] |].
          destruct (H1 c0 Hc0) as [? | (c' & Hc' & Hi)]; [now left | right; eauto using in_cons].
        - intros c0 [<- | Hc0]; [exists c; split; [now left | assumption] |].
          destruct (H2 c0 Hc0) as (c1 & Hc1 & Hi). eauto using in_cons. }
      destruct (mem (- lit) c).
      * destruct (filter _ c) as [| x red] eqn:Ef; [discriminate |].
        destruct (reduce_clauses lit cur) as [u |]; [| discriminate].
        intros [= <-]. apply K; [reflexivity |]. rewrite <- Ef. apply filter_incl.
      * destruct (reduce_clauses lit cur) as [u |]; [| discriminate].
        intros [= <-]. apply K; [reflexivity | apply incl_refl].
Qed.

Lemma assign_literal_done cur a lit cur' a' :
  assign_literal cur a lit = (cur', false, a') ->
  reduce_clauses lit cur = Some cur'
  /\ a' = <[Z.abs lit := 0 <? lit]> a
  /\ a ⊆ a'.
Proof.
  unfold assign_literal. destruct (a !! Z.abs lit) as [existing |] eqn:E.
  - destruct (Bool.eqb existing (0 <? lit)) eqn:Eb; simpl; [| discriminate].
    apply Bool.eqb_prop in Eb. subst existing.
    destruct (reduce_clauses lit cur) as [u |]; [| discriminate].
    intros [= <- <-]. split; [reflexivity |]. split; [reflexivity |].
    rewrite insert_id by assumption. reflexivity.
  - destruct (reduce_clauses lit cur) as [u |]; [| discriminate].
    intros [= <- <-]. split; [reflexivity |]. split; [reflexivity |].
    now apply insert_subseteq.
Qed.

Lemma assign_literal_covers orig cur a lit cur' a' :
  lit <> 0 -> covers orig cur a ->
  assign_literal cur a lit = (cur', false, a') ->
  covers orig cur' a' /\ drawn_from cur' cur.
Proof.
  intros Hl Hcov H. apply assign_literal_done in H as (Hr & -> & Hsub).
  apply reduce_clauses_parts in Hr as [H1 H2]. split; [| assumption].
  intros c Hc. destruct (Hcov c Hc) as [Hs | (c' & Hc' & Hi)].
  - left. eapply clause_satisfied_mono; eauto.
  - destruct (H1 c' Hc') as [Hin | (c'' & Hc'' & Hi')].
    + left. apply clause_satisfied_iff. exists lit, (0 <? lit).
      split; [now apply Hi |]. split; [apply lookup_insert_eq | now apply lit_sat_self].
    + right. exists c''. split; [assumption |]. eapply incl_tran; eauto.
Qed.

Lemma drawn_from_nonzero cur cls :
  drawn_from cur cls -> nonzero_clauses cls -> nonzero_clauses cur.
Proof.
  intros Hd Hn c l Hc Hl. destruct (Hd c Hc) as (c0 & Hc0 & Hi). eapply Hn; eauto.
Qed.

Lemma drawn_from_trans c1 c2 c3 : drawn_from c1 c2 -> drawn_from c2 c3 -> drawn_from c1 c3.
Proof.
  intros H1 H2 c Hc. destruct (H1 c Hc) as (c' & Hc' & Hi).
  destruct (H2 c' Hc') as (c'' & Hc'' & Hi'). exists c''. split; [assumption |].
  eapply incl_tran; eauto.
Qed.

Lemma drawn_from_refl cls : drawn_from cls cls.
Proof. intros c Hc. exists c. split; [assumption | apply incl_refl]. Qed.

Lemma find_unit_in a cur l :
  find_unit a cur = ScanUnit l -> exists c, In c cur /\ In l c.
Proof.
  induction cur as [| c cur IH]; [discriminate |].
  simpl. destruct (undecided_of a c) as [[| x [| y u]] |] eqn:E; try discriminate.
  - intros [= <-]. exists c. split; [now left |]. eapply undecided_of_sub; [exact E | now left].
  - intros H. destruct (IH H) as (c' & Hc' & Hl). eauto using in_cons.
  - intros H. destruct (IH H) as (c' & Hc' & Hl). eauto using in_cons.
Qed.

Lemma unit_propagate_covers orig fuel cur a stats cur' a' stats' :
  nonzero_clauses cur -> covers orig cur a ->
  unit_propagate fuel cur a stats = Done (cur', false, a', stats') ->
  covers orig cur' a' /\ drawn_from cur' cur.
Proof.
  revert cur a stats. induction fuel as [| fuel IH]; intros cur a stats Hn Hcov; [discriminate |].
  simpl. destruct (find_unit a cur) as [| l |] eqn:Ef.
  - discriminate.
  - destruct (assign_literal cur a l) as [[cur1 conflict] a1] eqn:Ea.
    destruct conflict; [discriminate |].
    destruct (find_unit_in _ _ _ Ef) as (c & Hc & Hl).
    destruct (assign_literal_covers orig _ _ _ _ _ (Hn c l Hc Hl) Hcov Ea) as [Hcov1 Hd1].
    intros H. apply IH in H as [H1 H2]; [| eapply drawn_from_nonzero; eauto | assumption].
    split; [assumption | eapply drawn_from_trans; eauto].
  - intros [= <- <- <-]. split; [assumption | apply drawn_from_refl].
Qed.

Lemma dict_add_keys {V} (add : V -> V -> V) d k v x :
  In x (map fst (dict_add add d k v)) <-> In x (map fst d) \/ x = k.
Proof.
  induction d as [| [k' n] d IH]; simpl.
  - split; [intros [<- | []]; auto | intros [[] | ->]; auto].
  - destruct (k' =? k) eqn:E; simpl.
    + apply Z.eqb_eq in E. subst. intuition.
    + rewrite IH. tauto.
Qed.

Lemma count_clause_keys a c counts x :
  In x (map fst (count_clause a c counts)) -> In x (map fst counts) \/ In x c.
Proof.
  revert counts. induction c as [| l c IH]; intros counts; simpl; [auto |].
  destruct (a !! Z.abs l) as [val |].
  - destruct (lit_sat l val); [auto |]. intros H. apply IH in H. tauto.
  - intros H. apply IH in H as [H | H]; [| tauto]. apply dict_add_keys in H. intuition.
Qed.

Lemma literal_counts_keys a cls x :
  In x (map fst (literal_counts a cls)) -> exists c, In c cls /\ In x c.
Proof.
  unfold literal_counts.
  assert (forall counts, In x (map fst (fold_left (fun counts clause => count_clause a clause counts) cls counts)) ->
            In x (map fst counts) \/ exists c, In c cls /\ In x c) as K.
  { induction cls as [| c cls IH]; intros counts; simpl; [auto |].
    intros H. apply IH in H as [H | (c' & Hc' & Hx)]; [| eauto].
    apply count_clause_keys in H as [H | H]; eauto. }
  intros H. apply K in H as [[] | H]. exact H.
Qed.

Lemma assign_pures_covers orig pures cur a stats cur' a' stats' :
  Forall (fun l => l <> 0) pures -> covers orig cur a ->
  assign_pures pures cur a stats = (cur', false, a', stats') ->
  covers orig cur' a' /\ drawn_from cur' cur.
Proof.
  revert cur a stats. induction pures as [| l pures IH]; intros cur a stats Hp Hcov.
  - intros [= <- <- <-]. split; [assumption | apply drawn_from_refl].
  - simpl. destruct (assign_literal cur a l) as [[cur1 conflict] a1] eqn:Ea.
    destruct conflict; [discriminate |].
    inversion Hp as [| ? ? Hl Hp']; subst.
    destruct (assign_literal_covers orig _ _ _ _ _ Hl Hcov Ea) as [Hcov1 Hd1].
    intros H. apply IH in H as [H1 H2]; [| assumption | assumption].
    split; [assumption | eapply drawn_from_trans; eauto].
Qed.

Lemma pure_literal_elimination_covers orig cur a stats cur' a' stats' :
  nonzero_clauses cur -> covers orig cur a ->
  pure_literal_elimination cur a stats = (cur', false, a', stats') ->
  covers orig cur' a' /\ drawn_from cur' cur.
Proof.
  intros Hn Hcov. unfold pure_literal_elimination.
  set (pures := map fst (filter _ (literal_counts a cur))).
  assert (Forall (fun l => l <> 0) pures) as Hp.
  { apply Forall_forall. intros l Hl. apply list_elem_of_In in Hl. unfold pures in Hl.
    apply in_map_iff in Hl as ([k n] & <- & Hin). simpl.
    apply list_elem_of_In, list_elem_of_filter in Hin as [_ Hin].
    destruct (literal_counts_keys a cur k) as (c & Hc & Hk).
    { apply in_map_iff. exists (k, n). split; [reflexivity | now apply list_elem_of_In]. }
    eapply Hn; eauto. }
  destruct pures as [| p ps] eqn:Epures.
  - intros [= <- <- <-]. split; [assumption | apply drawn_from_refl].
  - now apply assign_pures_covers.
Qed.

Lemma max_item_in best items : In (max_item best items) (best :: items).
Proof.
  revert best. induction items as [| item rest IH]; intros best; simpl; [auto |].
  destruct (PrimFloat.ltb _ _); [right; apply IH |].
  destruct (IH best) as [H | H]; [now left | right; now right].
Qed.

Lemma score_clause_keys a w c scores x :
  In x (map fst (score_clause a w c scores)) -> In x (map fst scores) \/ In x c.
Proof.
  revert scores. induction c as [| l c IH]; intros scores; simpl; [auto |].
  destruct (a !! Z.abs l) as [val |].
  - destruct (lit_sat l val); [auto |]. intros H. apply IH in H. tauto.
  - intros H. apply IH in H as [H | H]; [| tauto]. apply dict_add_keys in H. intuition.
Qed.

Lemma jw_scores_keys a cls x :
  In x (map fst (jw_scores a cls)) -> exists c, In c cls /\ In x c.
Proof.
  unfold jw_scores.
  assert (forall scores,
            In x (map fst (fold_left (fun scores clause =>
                     let weight := match clause with [] => 0%float | _ => half_pow (length clause) end in
                     score_clause a weight clause scores) cls scores)) ->
            In x (map fst scores) \/ exists c, In c cls /\ In x c) as K.
  { induction cls as [| c cls IH]; intros scores; simpl; [auto |].
    intros H. apply IH in H as [H | (c' & Hc' & Hx)]; [| eauto].
    apply score_clause_keys in H as [H | H]; eauto. }
  intros H. apply K in H as [[] | H]. exact H.
Qed.

Lemma pick_literal_in cur a l :
  pick_literal cur a = Done l -> exists c, In c cur /\ In l c.
Proof.
  unfold pick_literal. destruct (jw_scores a cur) as [| item rest] eqn:E.
  - destruct (first_unassigned a cur) as [x |] eqn:Ef; [| discriminate].
    intros [= <-]. unfold first_unassigned in Ef. apply find_some in Ef as [Hin _].
    apply in_concat in Hin as (c & Hc & Hx). eauto.
  - intros [= <-]. apply jw_scores_keys with (a := a). rewrite E.
    apply in_map. apply max_item_in.
Qed.

Lemma covers_nil orig a : covers orig [] a -> forall c, In c orig -> Harness.clause_satisfied c a = true.
Proof. intros H c Hc. destruct (H c Hc) as [? | (c' & [] & _)]. assumption. Qed.

Lemma dpll_covers orig fuel cur a stats a' stats' :
  nonzero_clauses cur -> covers orig cur a ->
  dpll fuel cur a stats = Done (true, a', stats') ->
  forall c, In c orig -> Harness.clause_satisfied c a' = true.
Proof.
  revert cur a stats a' stats'.
  induction fuel as [| fuel IH]; intros cur a stats a' stats' Hn Hcov; [discriminate |].
  cbn [dpll].
  destruct (unit_propagate (S fuel) cur a stats) as [[[[cur1 conflict] a1] stats1] | |] eqn:Eu;
    try discriminate.
  cbn [mbind outcome_bind obind].
  destruct conflict; [discriminate |].
  destruct (unit_propagate_covers orig _ _ _ _ _ _ _ Hn Hcov Eu) as [Hcov1 Hd1].
  pose proof (drawn_from_nonzero _ _ Hd1 Hn) as Hn1.
  destruct (pure_literal_elimination cur1 a1 stats1) as [[[cur2 conflict] a2] stats2] eqn:Ep.
  destruct conflict; [discriminate |].
  destruct (pure_literal_elimination_covers orig _ _ _ _ _ _ Hn1 Hcov1 Ep) as [Hcov2 Hd2].
  pose proof (drawn_from_nonzero _ _ Hd2 Hn1) as Hn2.
  destruct cur2 as [| c2 cur2].
  { intros [= <- <-]. now apply covers_nil. }
  destruct (pick_literal (c2 :: cur2) a2) as [literal | |] eqn:Ek; try discriminate.
  cbn [mbind outcome_bind obind].
  destruct (pick_literal_in _ _ _ Ek) as (c & Hc & Hl).
  assert (Z.abs literal <> 0) as Hv by (specialize (Hn2 c literal Hc Hl); lia).
  assert (forall lit stats0 r s,
            lit <> 0 ->
            (let '(new_clauses, branch_conflict, trial_assignment) :=
               assign_literal (c2 :: cur2) a2 lit in
             if (branch_conflict : bool) then Done (None, bump_decisions stats0)
             else '(result, final_assignment, stats) ←
                    dpll fuel new_clauses trial_assignment (bump_decisions stats0);
                  Done (if (result : bool) then Some final_assignment else None, stats))
            = Done (Some r, s) ->
            forall c, In c orig -> Harness.clause_satisfied c r = true) as Hbranch.
  { intros lit st0 r s Hlit.
    destruct (assign_literal (c2 :: cur2) a2 lit) as [[new conflict] trial] eqn:Ea.
    destruct conflict; [discriminate |].
    destruct (assign_literal_covers orig _ _ _ _ _ Hlit Hcov2 Ea) as [Hcov3 Hd3].
    destruct (dpll fuel new trial (bump_decisions st0)) as [[[result final] st1] | |] eqn:Ed;
      try discriminate.
    cbn [mbind outcome_bind obind]. destruct result; [| discriminate].
    intros [= <- <-]. eapply IH; [| exact Hcov3 | exact Ed].
    eapply drawn_from_nonzero; eauto. }
  match goal with
  | |- (?m ≫= _) = _ -> _ => destruct m as [[r1 s1] | |] eqn:E1; try discriminate
  end.
  cbn [mbind outcome_bind obind].
  destruct r1 as [final |].
  { intros [= <- <-]. eapply Hbranch; [| exact E1]. assumption. }
  match goal with
  | |- (?m ≫= _) = _ -> _ => destruct m as [[r2 s2] | |] eqn:E2; try discriminate
  end.
  cbn [mbind outcome_bind obind].
  destruct r2 as [final |]; [| discriminate].
  intros [= <- <-]. eapply Hbranch; [| exact E2]. lia.
Qed.

(** *** Refutations *)

Lemma filter_all {A} (P : A -> Prop) `{forall x, Decision (P x)} (l : list A) :
  (forall x, In x l -> P x) -> filter P l = l.
Proof.
  induction l as [| x l IH]; intros Hall; [reflexivity |].
  rewrite filter_cons_True by (apply Hall; now left).
  rewrite IH; [reflexivity |]. intros; apply Hall; now right.
Qed.

Lemma reduce_clauses_some lit cur cur' :
  reduce_clauses lit cur = Some cur' ->
  forall c', In c' cur' ->
    exists c, In c cur /\ ~ In lit c /\ c' = filter (fun x => negb (x =? - lit)) c.
Proof.
  revert cur'. induction cur as [| c cur IH]; intros cur'.
  - now intros [= <-] c' [].
  - simpl. destruct (mem lit c) eqn:E1.
    + intros H c' Hc'. destruct (IH _ H c' Hc') as (c0 & Hc0 & K). eauto using in_cons.
    + assert (~ In lit c) as Hnot by (rewrite <- mem_In, E1; discriminate).
      destruct (mem (- lit) c) eqn:E2.
      * destruct (filter _ c) as [| x red] eqn:Ef; [discriminate |].
        destruct (reduce_clauses lit cur) as [u |]; [| discriminate].
        intros [= <-] c' [<- | Hc'].
        -- exists c. split; [now left |]. split; [assumption | now rewrite Ef].
        -- destruct (IH _ eq_refl c' Hc') as (c0 & Hc0 & K). eauto using in_cons.
      * destruct (reduce_clauses lit cur) as [u |]; [| discriminate].
        intros [= <-] c' [<- | Hc'].
        -- exists c. split; [now left |]. split; [assumption |].
           symmetry. apply filter_all. intros x Hx.
           destruct (x =? - lit) eqn:Ex; [| exact I]. apply Z.eqb_eq in Ex. subst.
           apply mem_In in Hx. congruence.
        -- destruct (IH _ eq_refl c' Hc') as (c0 & Hc0 & K). eauto using in_cons.
Qed.

Lemma reduce_clauses_none lit cur :
  reduce_clauses lit cur = None ->
  exists c, In c cur /\ ~ In lit c /\ c <> [] /\ forall x, In x c -> x = - lit.
Proof.
  induction cur as [| c cur IH]; [discriminate |].
  simpl. destruct (mem lit c) eqn:E1.
  - intros H. destruct (IH H) as (c0 & Hc0 & K). eauto using in_cons.
  - assert (~ In lit c) as Hnot by (rewrite <- mem_In, E1; discriminate).
    destruct (mem (- lit) c) eqn:E2.
    + destruct (filter _ c) as [| x red] eqn:Ef.
      * intros _. exists c. split; [now left |]. split; [assumption |]. split.
        -- intros ->. discriminate.
        -- intros x Hx. destruct (x =? - lit) eqn:Ex; [now apply Z.eqb_eq |].
           assert (x ∈ filter (fun x => negb (x =? - lit)) c) as Hin.
           { apply list_elem_of_filter. split; [rewrite Ex; exact I | now apply list_elem_of_In]. }
           rewrite Ef in Hin. inversion Hin.
      * destruct (reduce_clauses lit cur) as [u |]; [discriminate |].
        intros _. destruct (IH eq_refl) as (c0 & Hc0 & K). eauto using in_cons.
    + destruct (reduce_clauses lit cur) as [u |]; [discriminate |].
      intros _. destruct (IH eq_refl) as (c0 & Hc0 & K). eauto using in_cons.
Qed.

Lemma lit_holds_opp M l : l <> 0 -> lit_holds M (- l) = negb (lit_holds M l).
Proof.
  intros Hl. unfold lit_holds, lit_sat. rewrite Z.abs_opp.
  destruct (M (Z.abs l)); destruct (0 <? l) eqn:E1; destruct (l <? 0) eqn:E2;
    destruct (0 <? - l) eqn:E3; destruct (- l <? 0) eqn:E4; simpl; try reflexivity; lia.
Qed.

Lemma holds_iff M c : holds M c = true <-> exists l, In l c /\ lit_holds M l = true.
Proof. unfold holds. apply existsb_exists. Qed.

Lemma models_reduce M lit cur cur' :
  lit <> 0 -> lit_holds M lit = true -> reduce_clauses lit cur = Some cur' ->
  models M cur -> models M cur'.
Proof.
  intros Hl Hm Hr HM c' Hc'. destruct (reduce_clauses_some _ _ _ Hr c' Hc') as (c & Hc & _ & ->).
  apply holds_iff. destruct (proj1 (holds_iff M c) (HM c Hc)) as (x & Hx & Hh).
  exists x. split; [| assumption]. apply list_elem_of_In, list_elem_of_filter.
  split; [| now apply list_elem_of_In].
  destruct (x =? - lit) eqn:Ex; [| exact I]. apply Z.eqb_eq in Ex. subst x.
  rewrite lit_holds_opp, Hm in Hh by assumption. discriminate.
Qed.

Lemma models_reduce_none M lit cur :
  lit <> 0 -> lit_holds M lit = true -> reduce_clauses lit cur = None -> ~ models M cur.
Proof.
  intros Hl Hm Hr HM. destruct (reduce_clauses_none _ _ Hr) as (c & Hc & _ & _ & Hall).
  destruct (proj1 (holds_iff M c) (HM c Hc)) as (x & Hx & Hh).
  rewrite (Hall x Hx), lit_holds_opp, Hm in Hh by assumption. discriminate.
Qed.

Lemma fresh_reduce lit cur cur' a :
  lit <> 0 -> unassigned_in cur a -> reduce_clauses lit cur = Some cur' ->
  unassigned_in cur' (<[Z.abs lit := 0 <? lit]> a).
Proof.
  intros Hl Hf Hr c' x Hc' Hx. destruct (reduce_clauses_some _ _ _ Hr c' Hc') as (c & Hc & Hn & ->).
  apply list_elem_of_In, list_elem_of_filter in Hx as [Hne Hx]. apply list_elem_of_In in Hx.
  rewrite lookup_insert_ne; [now apply (Hf c x) |].
  destruct (x =? - lit) eqn:Ex; [destruct Hne |]. apply Z.eqb_neq in Ex.
  assert (x <> lit) by (intros ->; contradiction). lia.
Qed.

(** When the clauses are unassigned, assigning never meets an assigned variable. *)
Lemma assign_literal_fresh cur a lit :
  a !! Z.abs lit = None ->
  assign_literal cur a lit
  = match reduce_clauses lit cur with
    | Some updated => (updated, false, <[Z.abs lit := 0 <? lit]> a)
    | None => (cur, true, <[Z.abs lit := 0 <? lit]> a)
    end.
Proof. intros H. unfold assign_literal. now rewrite H. Qed.

Lemma undecided_fresh a c :
  (forall l, In l c -> a !! Z.abs l = None) -> undecided_of a c = Some c.
Proof.
  induction c as [| x c IH]; intros H; [reflexivity |].
  simpl. rewrite (H x) by now left. rewrite IH; [reflexivity |]. intros; apply H; now right.
Qed.

Lemma find_unit_fresh a cur :
  unassigned_in cur a ->
  match find_unit a cur with
  | ScanConflict => In [] cur
  | ScanUnit l => In [l] cur
  | ScanNone => forall c, In c cur -> (2 <= length c)%nat
  end.
Proof.
  induction cur as [| c cur IH]; intros Hf; [now intros c [] |].
  simpl. rewrite undecided_fresh by (intros; eapply Hf; [now left | eassumption]).
  assert (unassigned_in cur a) as Hf' by (intros c0 l Hc0; apply Hf; now right).
  specialize (IH Hf').
  destruct c as [| x [| y u]]; [now left | now left |].
  destruct (find_unit a cur); [now right | now right |].
  intros c0 [<- | Hc0]; [simpl; lia | auto].
Qed.

Lemma weight_ge_length cls : (length cls <= weight cls)%nat.
Proof. induction cls as [| c cls IH]; simpl; lia. Qed.

Lemma filter_length_le {A} (P : A -> Prop) `{forall x, Decision (P x)} (l : list A) :
  (length (filter P l) <= length l)%nat.
Proof. apply length_filter. Qed.

Lemma reduce_clauses_weight lit cur cur' :
  reduce_clauses lit cur = Some cur' ->
  (weight cur' <= weight cur)%nat
  /\ ((exists c, In c cur /\ (In lit c \/ In (- lit) c)) -> (weight cur' < weight cur)%nat).
Proof.
  revert cur'. induction cur as [| c cur IH]; intros cur'.
  - intros [= <-]. split; [reflexivity |]. now intros (c & [] & _).
  - simpl. destruct (mem lit c) eqn:E1.
    + intros H. destruct (IH _ H) as [Hle _]. split; [lia | intros _; lia].
    + assert (~ In lit c) as Hnot by (rewrite <- mem_In, E1; discriminate).
      destruct (mem (- lit) c) eqn:E2.
      * destruct (filter _ c) as [| x red] eqn:Ef; [discriminate |].
        destruct (reduce_clauses lit cur) as [u |]; [| discriminate].
        intros [= <-]. destruct (IH _ eq_refl) as [Hle Hlt].
        assert (length (x :: red) < length c)%nat as Hlen.
        { rewrite <- Ef. apply mem_In in E2.
          apply (length_filter_lt _ c (- lit)); [now apply list_elem_of_In |].
          rewrite Z.eqb_refl. intros []. }
        simpl in *. split; [lia | intros _; lia].
      * destruct (reduce_clauses lit cur) as [u |]; [| discriminate].
        intros [= <-]. destruct (IH _ eq_refl) as [Hle Hlt]. simpl. split; [lia |].
        intros (c0 & [<- | Hc0] & Hor).
        -- destruct Hor as [? | Hm]; [contradiction |]. apply mem_In in Hm. congruence.
        -- assert (weight u < weight cur)%nat by (apply Hlt; eauto). lia.
Qed.

(** Unit propagation when the clauses are unassigned: the loop runs out of fuel only when it
    has no more fuel than clauses; otherwise it reports a conflict only if
    no valuation satisfies the clauses, and else leaves clauses that the
    same valuations satisfy. *)
Lemma unit_propagate_fresh fuel cur a stats :
  unassigned_in cur a -> nonzero_clauses cur ->
  (unit_propagate fuel cur a stats = Starved /\ (fuel <= length cur)%nat)
  \/ exists cur' conflict a' stats',
       unit_propagate fuel cur a stats = Done (cur', conflict, a', stats')
       /\ if (conflict : bool) then forall M, ~ models M cur
          else (forall M, models M cur -> models M cur')
               /\ unassigned_in cur' a' /\ drawn_from cur' cur
               /\ (weight cur' <= weight cur)%nat
               /\ (forall c, In c cur' -> c <> []).
Proof.
  revert cur a stats. induction fuel as [| fuel IH]; intros cur a stats Hf Hn.
  { left. split; [reflexivity | lia]. }
  simpl. pose proof (find_unit_fresh a cur Hf) as Hu.
  destruct (find_unit a cur) as [| l |] eqn:Ef.
  - right. exists cur, true, a, stats. split; [reflexivity |].
    intros M HM. specialize (HM [] Hu). discriminate.
  - assert (l <> 0) as Hl by (apply (Hn [l] l Hu); now left).
    assert (forall M, models M cur -> lit_holds M l = true) as Hunit.
    { intros M HM. specialize (HM [l] Hu). simpl in HM. now rewrite orb_false_r in HM. }
    rewrite assign_literal_fresh by (apply (Hf [l] l Hu); now left).
    destruct (reduce_clauses l cur) as [cur1 |] eqn:Er.
    + destruct (reduce_clauses_length _ _ _ Er) as [_ Hlt].
      specialize (Hlt ltac:(exists [l]; split; [assumption | now left])).
      pose proof (fresh_reduce _ _ _ _ Hl Hf Er) as Hf1.
      destruct (reduce_clauses_parts _ _ _ Er) as [_ Hd1].
      destruct (reduce_clauses_weight _ _ _ Er) as [Hw1 _].
      destruct (IH cur1 (<[Z.abs l := 0 <? l]> a) (bump_units stats) Hf1
                  (drawn_from_nonzero _ _ Hd1 Hn))
        as [[-> Hfuel] | (cur' & conflict & a' & stats' & -> & Hres)].
      { left. split; [reflexivity | lia]. }
      right. exists cur', conflict, a', stats'. split; [reflexivity |].
      destruct conflict.
      * intros M HM. apply (Hres M). eapply models_reduce; eauto.
      * destruct Hres as (H1 & H2 & H3 & H4 & H5). split; [| split; [| split; [| split]]].
        -- intros M HM. apply H1. eapply models_reduce; eauto.
        -- assumption.
        -- eapply drawn_from_trans; eauto.
        -- lia.
        -- assumption.
    + right. eexists _, true, _, _. split; [reflexivity |].
      intros M HM. eapply models_reduce_none; eauto.
  - right. exists cur, false, a, stats. split; [reflexivity |].
    split; [auto |]. split; [assumption |]. split; [apply drawn_from_refl |].
    split; [lia |]. intros c Hc ->. specialize (Hu [] Hc). simpl in Hu. lia.
Qed.

Lemma dict_has_keys {V} (d : list (Z * V)) k : dict_has d k = true <-> In k (map fst d).
Proof.
  unfold dict_has. rewrite existsb_exists, in_map_iff. split.
  - intros ([k' v] & Hin & E). apply Z.eqb_eq in E. simpl in E. subst. exists (k, v). auto.
  - intros ([k' v] & E & Hin). simpl in E. subst. exists (k, v). split; [assumption | apply Z.eqb_refl].
Qed.

Lemma count_clause_complete a c counts x :
  (forall l, In l c -> a !! Z.abs l = None) ->
  In x (map fst counts) \/ In x c -> In x (map fst (count_clause a c counts)).
Proof.
  revert counts. induction c as [| l c IH]; intros counts Hf; simpl.
  - intros [H | []]. exact H.
  - rewrite (Hf l) by now left. intros H. apply IH; [intros; apply Hf; now right |].
    rewrite dict_add_keys. intuition.
Qed.

Lemma literal_counts_complete a cur x :
  unassigned_in cur a -> (exists c, In c cur /\ In x c) -> In x (map fst (literal_counts a cur)).
Proof.
  unfold literal_counts. intros Hf.
  assert (forall counts, In x (map fst counts) \/ (exists c, In c cur /\ In x c) ->
            In x (map fst (fold_left (fun counts clause => count_clause a clause counts)
                                     cur counts))) as K.
  { induction cur as [| c cur IH]; intros counts; simpl.
    - intros [H | (c & [] & _)]. exact H.
    - assert (unassigned_in cur a) as Hf' by (intros c0 l Hc0; apply Hf; now right).
      intros H. apply IH; [assumption |].
      destruct H as [H | (c0 & [<- | Hc0] & Hx)].
      + left. apply count_clause_complete; [intros; eapply Hf; [now left | eassumption] | auto].
      + left. apply count_clause_complete; [intros; eapply Hf; [now left | eassumption] | auto].
      + right. eauto. }
  intros H. apply K. now right.
Qed.

Lemma reduce_pure p cur :
  (forall c, In c cur -> ~ In (- p) c) ->
  exists cur', reduce_clauses p cur = Some cur'
               /\ (forall c, In c cur' -> In c cur /\ ~ In p c).
Proof.
  induction cur as [| c cur IH]; intros Hp.
  - exists []. split; [reflexivity | now intros c []].
  - destruct IH as (cur' & E & H); [intros; apply Hp; now right |].
    simpl. rewrite E. destruct (mem p c) eqn:E1.
    + exists cur'. split; [reflexivity |]. intros c0 Hc0. destruct (H c0 Hc0). auto using in_cons.
    + assert (~ In p c) as Hnot by (rewrite <- mem_In, E1; discriminate).
      destruct (mem (- p) c) eqn:E2.
      * apply mem_In in E2. exfalso. apply (Hp c); [now left | assumption].
      * exists (c :: cur'). split; [reflexivity |].
        intros c0 [<- | Hc0]; [split; [now left | assumption] |].
        destruct (H c0 Hc0). auto using in_cons.
Qed.

Lemma assign_pures_fresh cur0 pures cur a stats :
  (forall p, In p pures ->
     p <> 0 /\ (exists c, In c cur0 /\ In p c) /\ (forall c, In c cur0 -> ~ In (- p) c)) ->
  (forall c, In c cur -> In c cur0) -> unassigned_in cur a ->
  (forall p, In p pures -> a !! Z.abs p = None \/ a !! Z.abs p = Some (0 <? p)) ->
  exists cur' a' stats',
    assign_pures pures cur a stats = (cur', false, a', stats')
    /\ (forall c, In c cur' -> In c cur) /\ unassigned_in cur' a' /\ (weight cur' <= weight cur)%nat.
Proof.
  revert cur a stats. induction pures as [| p pures IH]; intros cur a stats Hp Hsub Hf Ha.
  - exists cur, a, stats. split; [reflexivity |]. split; [auto |]. split; [assumption | lia].
  - destruct (Hp p ltac:(now left)) as (Hp0 & (cp & Hcp & Hpc) & Hneg).
    destruct (reduce_pure p cur) as (cur1 & Er & H1); [intros c Hc; apply Hneg, Hsub, Hc |].
    assert (assign_literal cur a p = (cur1, false, <[Z.abs p := 0 <? p]> a)) as Ea.
    { unfold assign_literal. rewrite Er.
      destruct (Ha p ltac:(now left)) as [-> | ->]; [reflexivity |].
      now rewrite Bool.eqb_reflx. }
    simpl. rewrite Ea.
    destruct (reduce_clauses_weight _ _ _ Er) as [Hw _].
    destruct (IH cur1 (<[Z.abs p := 0 <? p]> a) (bump_pures stats))
      as (cur' & a' & stats' & -> & K1 & K2 & K3).
    + intros q Hq. apply Hp. now right.
    + intros c Hc. apply Hsub. now apply H1.
    + intros c x Hc Hx. destruct (H1 c Hc) as [Hc1 Hnp].
      rewrite lookup_insert_ne; [now apply (Hf c x) |].
      assert (x <> p) by (intros ->; contradiction).
      assert (x <> - p) by (intros ->; apply (Hneg c); auto).
      lia.
    + intros q Hq. destruct (Hp q ltac:(now right)) as (Hq0 & _ & Hqneg).
      destruct (decide (Z.abs p = Z.abs q)) as [E | E].
      * assert (q = p \/ - q = p) as [-> | <-] by lia.
        -- right. apply lookup_insert_eq.
        -- exfalso. apply (Hqneg cp Hcp Hpc).
      * rewrite lookup_insert_ne by assumption. apply Ha. now right.
    + exists cur', a', stats'. split; [reflexivity |].
      split; [intros c Hc; now apply H1, K1 |]. split; [assumption | lia].
Qed.

Lemma pure_literal_elimination_fresh cur a stats :
  unassigned_in cur a -> nonzero_clauses cur ->
  exists cur' a' stats',
    pure_literal_elimination cur a stats = (cur', false, a', stats')
    /\ (forall c, In c cur' -> In c cur) /\ unassigned_in cur' a' /\ (weight cur' <= weight cur)%nat.
Proof.
  intros Hf Hn. unfold pure_literal_elimination.
  set (pures := map fst (filter _ (literal_counts a cur))).
  assert (forall p, In p pures ->
            p <> 0 /\ (exists c, In c cur /\ In p c) /\ (forall c, In c cur -> ~ In (- p) c))
    as Hp.
  { intros p Hin. unfold pures in Hin.
    apply in_map_iff in Hin as ([k n] & <- & Hin). simpl.
    apply list_elem_of_In, list_elem_of_filter in Hin as [Hpure Hin]. simpl in Hpure.
    destruct (literal_counts_keys a cur k) as (c & Hc & Hk).
    { apply in_map_iff. exists (k, n). split; [reflexivity | now apply list_elem_of_In]. }
    split; [eapply Hn; eauto |]. split; [eauto |].
    intros c0 Hc0 Hneg. destruct (dict_has (literal_counts a cur) (- k)) eqn:Eh; [destruct Hpure |].
    assert (dict_has (literal_counts a cur) (- k) = true) as Ht.
    { apply dict_has_keys. apply literal_counts_complete; eauto. }
    congruence. }
  destruct (assign_pures_fresh cur pures cur a stats Hp) as (cur' & a' & stats' & E & K);
    [auto | assumption | |].
  { intros p Hin. left. destruct (Hp p Hin) as (_ & (c & Hc & Hpc) & _). eapply Hf; eauto. }
  destruct pures as [| p ps].
  - exists cur, a, stats. split; [reflexivity |]. split; [auto |]. split; [assumption | lia].
  - exists cur', a', stats'. split; [exact E | exact K].
Qed.

Lemma pick_literal_fresh cur a :
  unassigned_in cur a -> (exists c l, In c cur /\ In l c) ->
  exists l, pick_literal cur a = Done l /\ exists c, In c cur /\ In l c.
Proof.
  intros Hf (c & l & Hc & Hl).
  destruct (pick_literal cur a) as [x | e |] eqn:E.
  - exists x. split; [reflexivity |]. eapply pick_literal_in; eauto.
  - exfalso. unfold pick_literal in E. destruct (jw_scores a cur); [| discriminate].
    destruct (first_unassigned a cur) as [y |] eqn:Ef; [discriminate |].
    unfold first_unassigned in Ef. eapply find_none in Ef; [| apply in_concat; eauto].
    rewrite (Hf c l Hc Hl) in Ef. rewrite bool_decide_eq_false_2 in Ef; [discriminate |].
    intros [? ?]. discriminate.
  - exfalso. unfold pick_literal in E. destruct (jw_scores a cur); [| discriminate].
    destruct (first_unassigned a cur); discriminate.
Qed.

Lemma models_sub M cur cur' : (forall c, In c cur' -> In c cur) -> models M cur -> models M cur'.
Proof. intros Hs HM c Hc. apply HM, Hs, Hc. Qed.

(** The procedure decides: it runs out of fuel only when it has no more
    fuel than the size of the clause list; otherwise it returns, and an
    answer [False] means that no valuation satisfies the clauses. *)
Lemma dpll_decides fuel cur a stats :
  unassigned_in cur a -> nonzero_clauses cur ->
  (dpll fuel cur a stats = Starved /\ (fuel <= weight cur)%nat)
  \/ exists sat a' stats',
       dpll fuel cur a stats = Done (sat, a', stats')
       /\ (sat = false -> forall M, ~ models M cur).
Proof.
  revert cur a stats. induction fuel as [| fuel IH]; intros cur a stats Hf Hn.
  { left. split; [reflexivity | lia]. }
  cbn [dpll]. pose proof (weight_ge_length cur) as Hwl.
  destruct (unit_propagate_fresh (S fuel) cur a stats Hf Hn)
    as [[-> Hfuel] | (cur1 & conflict & a1 & stats1 & -> & Hu)].
  { left. split; [reflexivity | lia]. }
  cbn [mbind outcome_bind obind].
  destruct conflict.
  { right. exists false, a1, stats1. split; [reflexivity | auto]. }
  destruct Hu as (HM1 & Hf1 & Hd1 & Hw1 & Hne1).
  pose proof (drawn_from_nonzero _ _ Hd1 Hn) as Hn1.
  destruct (pure_literal_elimination_fresh cur1 a1 stats1 Hf1 Hn1)
    as (cur2 & a2 & stats2 & -> & Hs2 & Hf2 & Hw2).
  assert (nonzero_clauses cur2) as Hn2 by (intros c l Hc; apply Hn1; auto).
  assert (forall M, models M cur -> models M cur2) as HM2.
  { intros M HM. eapply models_sub; eauto. }
  destruct cur2 as [| c2 cur2].
  { right. exists true, a2, stats2. split; [reflexivity | discriminate]. }
  destruct (pick_literal_fresh (c2 :: cur2) a2 Hf2) as (literal & -> & c & Hc & Hl).
  { assert (c2 <> []) as Hc2 by (apply Hne1, Hs2; now left).
    destruct c2 as [| x c2]; [contradiction |]. exists (x :: c2), x. split; now left. }
  cbn [mbind outcome_bind obind].
  assert (Z.abs literal <> 0) as Hv by (specialize (Hn2 c literal Hc Hl); lia).
  set (branch := fun (lit : Z) (st0 : SolverStats) =>
         let '(new_clauses, branch_conflict, trial_assignment) :=
           assign_literal (c2 :: cur2) a2 lit in
         if (branch_conflict : bool) then Done (None, bump_decisions st0)
         else '(result, final_assignment, stats) ←
                dpll fuel new_clauses trial_assignment (bump_decisions st0);
              Done (if (result : bool) then Some final_assignment else None, stats)).
  assert (forall lit st0,
            Z.abs lit = Z.abs literal ->
            (branch lit st0 = Starved /\ (S fuel <= weight cur)%nat)
            \/ exists r s,
                 branch lit st0 = Done (r, s)
                 /\ (r = None -> forall M, lit_holds M lit = true -> ~ models M (c2 :: cur2)))
    as Hbranch.
  { intros lit st0 Habs. unfold branch.
    assert (lit <> 0) as Hlit by lia.
    rewrite assign_literal_fresh by (rewrite Habs; eapply Hf2; eauto).
    destruct (reduce_clauses lit (c2 :: cur2)) as [new |] eqn:Er.
    - destruct (reduce_clauses_weight _ _ _ Er) as [_ Hlt].
      specialize (Hlt ltac:(exists c; split; [assumption |];
                            assert (literal = lit \/ literal = - lit) as [<- | ->] by lia; auto)).
      destruct (reduce_clauses_parts _ _ _ Er) as [_ Hd3].
      destruct (IH new (<[Z.abs lit := 0 <? lit]> a2) (bump_decisions st0))
        as [[-> Hfuel] | (sat & a' & s' & -> & Hsat)].
      + eapply fresh_reduce; eauto.
      + eapply drawn_from_nonzero; eauto.
      + left. split; [reflexivity | lia].
      + right. cbn [mbind outcome_bind obind]. destruct sat.
        * eexists _, _. split; [reflexivity | discriminate].
        * eexists _, _. split; [reflexivity |].
          intros _ M Hm HM. apply (Hsat eq_refl M). eapply models_reduce; eauto.
    - right. eexists _, _. split; [reflexivity |].
      intros _ M Hm. eapply models_reduce_none; eauto. }
  fold (branch (Z.abs literal) stats2).
  destruct (Hbranch (Z.abs literal) stats2 ltac:(lia)) as [[-> Hfuel] | (r1 & s1 & -> & H1)].
  { left. split; [reflexivity | assumption]. }
  cbn [mbind outcome_bind obind].
  destruct r1 as [final |].
  { right. eexists _, _, _. split; [reflexivity | discriminate]. }
  fold (branch (- Z.abs literal) s1).
  destruct (Hbranch (- Z.abs literal) s1 ltac:(lia)) as [[-> Hfuel] | (r2 & s2 & -> & H2)].
  { left. split; [reflexivity | assumption]. }
  cbn [mbind outcome_bind obind].
  destruct r2 as [final |].
  { right. eexists _, _, _. split; [reflexivity | discriminate]. }
  right. eexists _, _, _. split; [reflexivity |].
  intros _ M HM. apply HM2 in HM.
  destruct (lit_holds M (Z.abs literal)) eqn:Eh.
  - exact (H1 eq_refl M Eh HM).
  - apply (H2 eq_refl M); [| assumption]. rewrite lit_holds_opp by assumption. now rewrite Eh.
Qed.

Lemma fresh_empty cls : unassigned_in cls ∅.
Proof. intros c l _ _. apply lookup_empty. Qed.

Lemma covers_refl cls a : covers cls cls a.
Proof. intros c Hc. right. exists c. split; [assumption | apply incl_refl]. Qed.

Lemma satisfied_holds a c :
  Harness.clause_satisfied c a = true -> holds (valuation a) c = true.
Proof.
  rewrite clause_satisfied_iff, holds_iff. intros (l & val & Hl & Ha & Hs).
  exists l. split; [assumption |]. unfold lit_holds, valuation. now rewrite Ha.
Qed.

Lemma forallb_false {A} (f : A -> bool) l :
  forallb f l = false -> exists x, In x l /\ f x = false.
Proof.
  induction l as [| x l IH]; [discriminate |].
  simpl. destruct (f x) eqn:E; simpl.
  - intros H. destruct (IH H) as (y & Hy & Hf). eauto.
  - intros _. eauto.
Qed.

Lemma dpll_run fuel data f r :
  Parser.parse_dimacs data = Done f -> run_solver fuel data = Done r ->
  exists sat a stats,
    dpll fuel (Parser.clauses f) ∅ stats0 = Done (sat, a, stats)
    /\ status_of r = Some (VStr (if sat then "SAT" else "UNSAT"))
    /\ field "assignment" r = Some (VAssign (if sat then a else ∅)).
Proof.
  intros Hp. unfold run_solver. rewrite Hp. cbn [mbind outcome_bind obind].
  destruct (dpll fuel (Parser.clauses f) ∅ stats0) as [[[sat a] stats] | |]; try discriminate.
  cbn [mbind outcome_bind obind]. intros [= <-]. exists sat, a, stats. repeat split.
Qed.

(** Every SAT answer of DPLL-JW is a model: when no literal of the file is
    0, the assignment of a record with status SAT satisfies every parsed
    clause, so the harness's [verify_assignment] accepts it (it refuses the
    empty assignment, which a file without clauses gets). *)
Theorem dpll_sat_verified fuel data f r :
  Parser.parse_dimacs data = Done f ->
  nonzero_clauses (Parser.clauses f) ->
  run_solver fuel data = Done r ->
  status_of r = Some (VStr "SAT") ->
  exists a, field "assignment" r = Some (VAssign a)
            /\ (forall c, In c (Parser.clauses f) -> Harness.clause_satisfied c a = true)
            /\ (Parser.clauses f <> [] ->
                Harness.verify_assignment (Parser.clauses f) a = true).
Proof.
  intros Hp Hn Hr Hs. destruct (dpll_run _ _ _ _ Hp Hr) as (sat & a & stats & Ed & Hst & Ha).
  rewrite Hs in Hst. destruct sat; [| discriminate].
  exists a. split; [assumption |].
  assert (forall c, In c (Parser.clauses f) -> Harness.clause_satisfied c a = true) as Hall.
  { eapply dpll_covers; [exact Hn | apply covers_refl | exact Ed]. }
  split; [assumption |]. intros Hne. unfold Harness.verify_assignment.
  rewrite bool_decide_eq_false_2.
  - apply forallb_forall. assumption.
  - intros ->. destruct (Parser.clauses f) as [| c cs]; [contradiction |].
    specialize (Hall c ltac:(now left)). apply clause_satisfied_iff in Hall.
    destruct Hall as (l & val & _ & Hl & _). rewrite lookup_empty in Hl. discriminate.
Qed.

(** Every UNSAT answer of DPLL-JW is right: when no literal of the file is
    0 and the record has status UNSAT, every assignment leaves some parsed
    clause unsatisfied. *)
Theorem dpll_unsat_correct fuel data f r :
  Parser.parse_dimacs data = Done f ->
  nonzero_clauses (Parser.clauses f) ->
  run_solver fuel data = Done r ->
  status_of r = Some (VStr "UNSAT") ->
  forall a, exists c, In c (Parser.clauses f) /\ Harness.clause_satisfied c a = false.
Proof.
  intros Hp Hn Hr Hs a'. destruct (dpll_run _ _ _ _ Hp Hr) as (sat & a & stats & Ed & Hst & _).
  rewrite Hs in Hst. destruct sat; [discriminate |].
  destruct (dpll_decides fuel (Parser.clauses f) ∅ stats0 (fresh_empty _) Hn)
    as [[E _] | (sat & a1 & s1 & E & Hno)]; rewrite E in Ed; [discriminate |].
  injection Ed as -> _ _.
  destruct (forallb (fun c => Harness.clause_satisfied c a') (Parser.clauses f)) eqn:Ef.
  - exfalso. apply (Hno eq_refl (valuation a')). intros c Hc.
    apply satisfied_holds. rewrite forallb_forall in Ef. now apply Ef.
  - now apply forallb_false in Ef.
Qed.

(** DPLL-JW returns a record once its depth budget exceeds the size of the
    parsed clause list (clauses plus literals), when no literal is 0: the
    propagation loop and the recursion end, and [pick_literal] never calls
    [max] on an empty table. *)
Theorem dpll_terminates fuel data f :
  Parser.parse_dimacs data = Done f ->
  nonzero_clauses (Parser.clauses f) ->
  (weight (Parser.clauses f) < fuel)%nat ->
  exists r, run_solver fuel data = Done r.
Proof.
  intros Hp Hn Hw. unfold run_solver. rewrite Hp. cbn [mbind outcome_bind obind].
  destruct (dpll_decides fuel (Parser.clauses f) ∅ stats0 (fresh_empty _) Hn)
    as [[_ Hfuel] | (sat & a1 & s1 & -> & _)]; [lia |].
  cbn [mbind outcome_bind obind]. eauto.
Qed.

Ltac concrete_clauses Hp :=
  vm_compute in Hp; injection Hp as <-; simpl;
  let c := fresh "c" in let l := fresh "l" in
  let Hin := fresh "Hin" in let Hl := fresh "Hl" in
  intros c l Hin Hl;
  repeat (destruct Hin as [<- | Hin]; [simpl in Hl; intuition lia |]); destruct Hin.

Lemma dpll_sat_verified_witness :
  exists f r a,
    Parser.parse_dimacs padded_formula_text = Done f
    /\ run_solver 30 padded_formula_text = Done r
    /\ field "assignment" r = Some (VAssign a)
    /\ forall c, In c (Parser.clauses f) -> Harness.clause_satisfied c a = true.
Proof.
  destruct (Parser.parse_dimacs padded_formula_text) as [f | |] eqn:Hp;
    [| exfalso; vm_compute in Hp; discriminate ..].
  destruct (run_solver 30 padded_formula_text) as [r | |] eqn:E;
    [| exfalso; vm_compute in E; discriminate ..].
  destruct (dpll_sat_verified 30 padded_formula_text f r Hp) as (a & Ha & Hall & _).
  - clear E. concrete_clauses Hp.
  - exact E.
  - vm_compute in E. injection E as <-. reflexivity.
  - exists f, r, a. auto.
Defined.

Lemma dpll_unsat_correct_witness :
  exists f, Parser.parse_dimacs unsat_formula_text = Done f
            /\ forall a, exists c, In c (Parser.clauses f)
                                   /\ Harness.clause_satisfied c a = false.
Proof.
  destruct (Parser.parse_dimacs unsat_formula_text) as [f | |] eqn:Hp;
    [| exfalso; vm_compute in Hp; discriminate ..].
  destruct (run_solver 30 unsat_formula_text) as [r | |] eqn:E;
    [| exfalso; vm_compute in E; discriminate ..].
  exists f. split; [reflexivity |].
  apply (dpll_unsat_correct 30 unsat_formula_text f r Hp).
  - clear E. concrete_clauses Hp.
  - exact E.
  - vm_compute in E. injection E as <-. reflexivity.
Defined.

Lemma dpll_terminates_witness : exists r, run_solver 30 unsat_formula_text = Done r.
Proof.
  destruct (Parser.parse_dimacs unsat_formula_text) as [f | |] eqn:Hp;
    [| exfalso; vm_compute in Hp; discriminate ..].
  apply (dpll_terminates 30 unsat_formula_text f Hp).
  - concrete_clauses Hp.
  - vm_compute in Hp. injection Hp as <-. vm_compute. lia.
Defined.

End Dpll_models.

(** ** The Sudoku encoder: counts and files *)

Section Sudoku_pipeline.
Import Parser Sudoku.

Lemma flat_map_length_ext {A B C} (f : A -> list B) (g : A -> list C) l :
  (forall x, In x l -> length (f x) = length (g x)) ->
  length (flat_map f l) = length (flat_map g l).
Proof.
  induction l as [| x l IH]; intros H; [reflexivity |].
  simpl. rewrite !length_app, (H x) by now left. rewrite IH; [reflexivity |].
  intros; apply H; now right.
Qed.

Lemma indexed_length {A B} (h : nat -> A -> list B) (w : A -> nat) (l : list A) :
  (forall i x, nth_error l i = Some x -> length (h i x) = w x) ->
  length (flat_map (fun i => match nth_error l i with
                             | Some x => h i x
                             | None => []
                             end) (seq 0 (length l)))
  = list_sum (map w l).
Proof.
  induction l as [| x l IH] using rev_ind; intros H; [reflexivity |].
  replace (length (l ++ [x])) with (S (length l)) by (rewrite length_app; simpl; lia).
  rewrite seq_S, flat_map_app, length_app.
  simpl. rewrite nth_error_app2, Nat.sub_diag by lia. simpl. rewrite app_nil_r.
  rewrite (H (length l) x) by (rewrite nth_error_app2, Nat.sub_diag by lia; reflexivity).
  rewrite map_app, list_sum_app. simpl. f_equal; [| lia].
  rewrite <- IH.
  - apply flat_map_length_ext. intros i Hi. apply in_seq in Hi.
    rewrite nth_error_app1 by lia. reflexivity.
  - intros i y Hy. apply H. rewrite nth_error_app1; [assumption |].
    apply nth_error_Some. congruence.
Qed.

Lemma filter_length_sum (p : Z -> bool) (row : list Z) :
  length (List.filter p row) = list_sum (map (fun v => if p v then 1%nat else 0%nat) row).
Proof.
  induction row as [| v row IH]; [reflexivity |].
  simpl. destruct (p v); simpl; rewrite IH; reflexivity.
Qed.

Lemma clues_of_length puzzle :
  grid9 puzzle -> length (clues_of puzzle) = givens puzzle.
Proof.
  intros [Hlen Hrows]. unfold clues_of, givens.
  rewrite <- Hlen at 1.
  rewrite (flat_map_length_ext _
             (fun r => match nth_error puzzle r with
                       | Some row => List.filter (fun v => negb (v =? 0)) row
                       | None => []
                       end)).
  - rewrite (indexed_length (fun _ row => List.filter (fun v => negb (v =? 0)) row)
               (fun row => length (List.filter (fun v => negb (v =? 0)) row))) by reflexivity.
    clear. induction puzzle as [| row puzzle IH]; [reflexivity |].
    simpl. rewrite List.filter_app, length_app, IH. reflexivity.
  - intros r Hr. apply in_seq in Hr. unfold cell.
    destruct (nth_error puzzle r) as [row |] eqn:Er; [| apply nth_error_None in Er; lia].
    assert (length row = 9%nat) as Hrow.
    { rewrite Forall_forall in Hrows. apply (Hrows row).
      apply list_elem_of_In. eapply nth_error_In; eauto. }
    rewrite <- Hrow.
    rewrite (flat_map_length_ext _
               (fun c => match nth_error row c with
                         | Some v => if v =? 0 then []
                                     else [[var_index (Z.of_nat r) (Z.of_nat c) v]]
                         | None => []
                         end))
      by (intros c _; destruct (nth_error row c); reflexivity).
    rewrite (indexed_length (fun c v => if v =? 0 then []
                                        else [[var_index (Z.of_nat r) (Z.of_nat c) v]])
               (fun v => if negb (v =? 0) then 1%nat else 0%nat)).
    + now rewrite filter_length_sum.
    + intros i v _. destruct (v =? 0); reflexivity.
Qed.

Lemma fixed_clauses_count :
  Z.of_nat (length (cell_clauses ++ row_clauses ++ column_clauses ++ box_clauses)) = 11988.
Proof. vm_compute. reflexivity. Qed.

Lemma encode_grid9 puzzle :
  grid9 puzzle ->
  encode puzzle
  = Done (cell_clauses ++ row_clauses ++ column_clauses ++ box_clauses ++ clues_of puzzle).
Proof.
  intros G. unfold encode. rewrite clue_clauses_spec; [reflexivity |].
  intros r c Hr Hc. apply in_seq in Hr, Hc.
  destruct (grid9_cell puzzle r c G) as (v & Hv & _); [lia | lia | eauto].
Qed.

(** The encoder emits 11988 clauses for the rules of the game and one unit
    clause for each filled cell. *)
Theorem sudoku_clause_count (puzzle : list (list Z)) :
  grid9 puzzle ->
  exists cls, encode puzzle = Done cls
              /\ Z.of_nat (length cls) = 11988 + Z.of_nat (givens puzzle).
Proof.
  intros G. rewrite (encode_grid9 _ G). eexists. split; [reflexivity |].
  rewrite !app_assoc, length_app, <- !app_assoc, Nat2Z.inj_add, fixed_clauses_count.
  now rewrite clues_of_length.
Qed.

Lemma sudoku_clause_count_witness :
  exists p cls, parse_puzzle sample_puzzle_text = Done p
                /\ encode p = Done cls /\ Z.of_nat (length cls) = 11988 + 30.
Proof.
  destruct (parse_puzzle sample_puzzle_text) as [p | |] eqn:Hp;
    [| exfalso; vm_compute in Hp; discriminate ..].
  vm_compute in Hp. injection Hp as <-.
  match goal with |- exists p cls, Done ?g = _ /\ _ =>
    destruct (sudoku_clause_count g) as (cls & E & Hlen)
  end.
  - split; [reflexivity |]. repeat constructor; lia.
  - eexists _, cls. split; [reflexivity |]. split; [exact E |]. exact Hlen.
Defined.

(** *** Reading a puzzle *)

Lemma py_int_digit ch v : py_int [ch] = Done v -> 0 <= v <= 9.
Proof.
  unfold py_int. destruct (Ascii.eqb ch "-"); [discriminate |].
  destruct (Ascii.eqb ch "+"); [discriminate |].
  simpl. unfold digit_of. destruct (_ && _) eqn:E.
  - intros [= <-]. lia.
  - destruct (Ascii.eqb ch "_"); discriminate.
Qed.

Lemma mapO_length {A B} (f : A -> outcome B) l r : mapO f l = Done r -> length r = length l.
Proof.
  revert r. induction l as [| x l IH]; intros r; [now intros [= <-] |].
  simpl. destruct (f x) as [y | |]; try discriminate. cbn [mbind outcome_bind obind].
  destruct (mapO f l) as [ys | |]; try discriminate. cbn [mbind outcome_bind obind].
  intros [= <-]. simpl. now rewrite (IH ys).
Qed.

Lemma mapO_Forall {A B} (f : A -> outcome B) (P : B -> Prop) l r :
  (forall x y, f x = Done y -> P y) -> mapO f l = Done r -> Forall P r.
Proof.
  intros Hf. revert r. induction l as [| x l IH]; intros r; [intros [= <-]; constructor |].
  simpl. destruct (f x) as [y | |] eqn:E; try discriminate. cbn [mbind outcome_bind obind].
  destruct (mapO f l) as [ys | |]; try discriminate. cbn [mbind outcome_bind obind].
  intros [= <-]. constructor; [eapply Hf; eauto | now apply IH].
Qed.

Lemma parse_puzzle_rows ls rows rows' :
  Forall (fun row => length row = 9%nat /\ Forall (fun v => 0 <= v <= 9) row) rows ->
  foldO (fun rows line =>
           let text := strip line in
           match text with
           | [] => Done rows
           | _ =>
               if negb (length text =? 9)%nat then Raised ValueError
               else row ← mapO (fun ch => py_int [ch]) text;
                    Done (rows ++ [row])
           end) ls rows = Done rows' ->
  Forall (fun row => length row = 9%nat /\ Forall (fun v => 0 <= v <= 9) row) rows'.
Proof.
  revert rows. induction ls as [| line ls IH]; intros rows Hrows; [now intros [= <-] |].
  cbn [foldO]. cbv zeta. destruct (strip line) as [| ch text] eqn:Es.
  - cbn [mbind outcome_bind obind]. now apply IH.
  - destruct (length (ch :: text) =? 9)%nat eqn:El; [| discriminate].
    cbn [negb]. destruct (mapO (fun ch => py_int [ch]) (ch :: text)) as [row | |] eqn:Em;
      try discriminate.
    cbn [mbind outcome_bind obind]. apply IH. apply Forall_app. split; [assumption |].
    constructor; [| constructor]. split.
    + rewrite (mapO_length _ _ _ Em). now apply Nat.eqb_eq.
    + eapply mapO_Forall; [| exact Em]. intros x y. apply py_int_digit.
Qed.

Lemma parse_puzzle_grid data p : parse_puzzle data = Done p -> grid9 p.
Proof.
  unfold parse_puzzle.
  destruct (foldO _ (splitlines data) []) as [rows | |] eqn:E; try discriminate.
  cbn [mbind outcome_bind obind].
  destruct (length rows =? 9)%nat eqn:El; [| discriminate].
  intros [= <-]. split; [now apply Nat.eqb_eq |].
  eapply parse_puzzle_rows; [| exact E]. constructor.
Qed.

Lemma clues_proper puzzle : grid9 puzzle -> Forall proper_clause (clues_of puzzle).
Proof.
  intros G. apply Forall_forall. intros clause Hin. apply list_elem_of_In in Hin.
  unfold clues_of in Hin. apply in_flat_map in Hin as (r & Hr & Hin).
  apply in_flat_map in Hin as (c & Hc & Hin). apply in_seq in Hr, Hc.
  destruct (grid9_cell puzzle r c G) as (v & Hv & Hrange); [lia | lia |].
  rewrite Hv in Hin. destruct (v =? 0) eqn:E; [destruct Hin |].
  destruct Hin as [<- | []]. apply Z.eqb_neq in E.
  split; [discriminate |]. constructor; [| constructor].
  pose proof (var_index_range r c v ltac:(lia) ltac:(lia) ltac:(lia)). lia.
Qed.

Lemma proper_clause_check cls :
  forallb (fun c => negb (Nat.eqb (length c) 0) && forallb (fun z => negb (z =? 0)) c) cls = true ->
  Forall proper_clause cls.
Proof.
  intros H. rewrite forallb_forall in H. apply Forall_forall. intros c Hc.
  apply list_elem_of_In, H, andb_prop in Hc as [H1 H2]. split.
  - intros ->. discriminate.
  - apply Forall_forall. intros z Hz. apply list_elem_of_In in Hz.
    rewrite forallb_forall in H2. apply H2 in Hz. intros ->. discriminate.
Qed.

Lemma fixed_clauses_proper :
  Forall proper_clause cell_clauses /\ Forall proper_clause row_clauses
  /\ Forall proper_clause column_clauses /\ Forall proper_clause box_clauses.
Proof. repeat split; apply proper_clause_check; vm_compute; reflexivity. Qed.

Lemma encoded_length p :
  grid9 p ->
  Z.of_nat (length (cell_clauses ++ row_clauses ++ column_clauses ++ box_clauses ++ clues_of p))
  = 11988 + Z.of_nat (givens p).
Proof.
  intros G.
  rewrite !app_assoc, length_app, <- !app_assoc, Nat2Z.inj_add, fixed_clauses_count.
  now rewrite clues_of_length.
Qed.

Lemma encoded_proper p :
  grid9 p ->
  Forall proper_clause
    (cell_clauses ++ row_clauses ++ column_clauses ++ box_clauses ++ clues_of p).
Proof.
  intros G. destruct fixed_clauses_proper as (H1 & H2 & H3 & H4).
  repeat (apply Forall_app; split; [assumption |]). now apply clues_proper.
Qed.

Lemma written_parses cls n :
  Forall proper_clause cls -> Z.of_nat (length cls) = n -> n <> 0 ->
  parse_dimacs (write_dimacs cls) = Done {| num_vars := 729; num_clauses := n; clauses := cls |}.
Proof.
  intros Hproper Hlen Hn.
  unfold parse_dimacs, write_dimacs, lines.
  rewrite header_line_split, lines_from_line by apply header_no_newline.
  cbn [foldO rev app]. rewrite parse_line_header.
  cbn [mbind outcome_bind obind]. rewrite parse_written_rows by assumption.
  cbn [mbind outcome_bind obind num_clauses num_vars clauses app].
  rewrite Hlen. destruct (n =? 0) eqn:E0; [lia | reflexivity].
Qed.

(** The encoder's command line, end to end: whenever it writes a file, the
    puzzle it read is a 9 by 9 grid of digits, and the file parses back to
    exactly the encoded clauses, with 729 variables and a clause count of
    11988 plus the number of filled cells. *)
Theorem encoder_main_parses (input out : text) :
  main input = Done out ->
  exists p cls,
    parse_puzzle input = Done p /\ grid9 p /\ encode p = Done cls
    /\ parse_dimacs out
       = Done {| num_vars := 729; num_clauses := 11988 + Z.of_nat (givens p); clauses := cls |}.
Proof.
  unfold main. destruct (parse_puzzle input) as [p | |] eqn:Hp; try discriminate.
  cbn [mbind outcome_bind obind]. pose proof (parse_puzzle_grid _ _ Hp) as G.
  pose proof (encode_grid9 _ G) as E.
  pose proof (encoded_length _ G) as Hlen.
  pose proof (encoded_proper _ G) as Hproper.
  revert E Hlen Hproper.
  generalize (cell_clauses ++ row_clauses ++ column_clauses ++ box_clauses ++ clues_of p).
  intros cls E Hlen Hproper. rewrite E. cbn [mbind outcome_bind obind]. intros [= <-].
  exists p, cls.
  split; [reflexivity |]. split; [assumption |]. split; [assumption |].
  apply written_parses; [assumption | assumption | lia].
Qed.

Lemma encoder_main_parses_witness :
  exists out p cls,
    main sample_puzzle_text = Done out /\ parse_puzzle sample_puzzle_text = Done p
    /\ encode p = Done cls
    /\ parse_dimacs out
       = Done {| num_vars := 729; num_clauses := 11988 + Z.of_nat (givens p); clauses := cls |}.
Proof.
  assert (exists out, main sample_puzzle_text = Done out) as [out Hm].
  { unfold main.
    destruct (parse_puzzle sample_puzzle_text) as [p | |] eqn:Hp;
      [| exfalso; vm_compute in Hp; discriminate ..].
    cbn [mbind outcome_bind obind].
    rewrite (encode_grid9 _ (parse_puzzle_grid _ _ Hp)). cbn [mbind outcome_bind obind]. eauto. }
  destruct (encoder_main_parses _ _ Hm) as (p & cls & Hp & _ & E & Hparse).
  exists out, p, cls. auto.
Defined.

(** *** The dataset generator's grid strings *)

Lemma str_Z_digit v : 0 <= v <= 9 -> exists ch, str_Z v = [ch] /\ py_int [ch] = Done v.
Proof.
  intros Hv. assert (v = 0 \/ v = 1 \/ v = 2 \/ v = 3 \/ v = 4 \/ v = 5 \/ v = 6 \/ v = 7
                     \/ v = 8 \/ v = 9) as H by lia.
  repeat (destruct H as [-> | H]; [eexists; split; reflexivity |]). subst. eexists; split; reflexivity.
Qed.

Lemma row_string_roundtrip row :
  Forall (fun v => 0 <= v <= 9) row ->
  mapO (fun c => py_int [c]) (concat (map str_Z row)) = Done row.
Proof.
  induction 1 as [| v row Hv _ IH]; [reflexivity |].
  destruct (str_Z_digit v Hv) as (ch & E & Hch).
  simpl. rewrite E. simpl. rewrite Hch. cbn [mbind outcome_bind obind].
  rewrite IH. reflexivity.
Qed.

(** The generator's row strings read back as the grid they were made from,
    when every cell is a digit from 0 to 9. *)
Theorem grid_string_roundtrip (grid : list (list Z)) :
  Forall (Forall (fun v => 0 <= v <= 9)) grid ->
  Generator.parse_grid_from_string (Generator.GridRows (Generator.grid_to_string grid))
  = Done grid.
Proof.
  unfold Generator.parse_grid_from_string, Generator.grid_to_string.
  induction 1 as [| row grid Hrow _ IH]; [reflexivity |].
  simpl. rewrite (row_string_roundtrip row Hrow). cbn [mbind outcome_bind obind].
  rewrite IH. reflexivity.
Qed.

Lemma grid_string_roundtrip_witness :
  Generator.parse_grid_from_string
    (Generator.GridRows (Generator.grid_to_string [[5; 3; 0]; [0; 9; 8]]))
  = Done [[5; 3; 0]; [0; 9; 8]].
Proof. apply (grid_string_roundtrip [[5; 3; 0]; [0; 9; 8]]). repeat constructor; lia. Defined.

End Sudoku_pipeline.

(** ** The two parsers *)

Section Two_parsers.
Import Parser.

Lemma fold_drop_empty ls f : foldO parse_line ls f = foldO parse_line (drop_empty ls) f.
Proof.
  revert f. induction ls as [| l ls IH]; intros f; [reflexivity |].
  destruct l as [| c l].
  - simpl. apply IH.
  - cbn [drop_empty List.filter foldO]. destruct (parse_line f (c :: l)); try reflexivity.
    cbn [mbind outcome_bind obind]. apply IH.
Qed.

Lemma newline_linebreak c : is_newline c = true -> is_linebreak c = true.
Proof.
  unfold is_newline, is_linebreak. intros H. apply orb_prop in H.
  destruct H as [H | H]; apply Z.eqb_eq in H; rewrite H; reflexivity.
Qed.

Lemma rev_nil_iff {A} (l : list A) : rev l = [] -> l = [].
Proof. destruct l as [| x l]; [reflexivity |]. simpl. intros H. now destruct (rev l). Qed.

Lemma lines_splitlines n s cur :
  (length s <= n)%nat -> plain_line_ends s ->
  drop_empty (lines_from cur s) = drop_empty (splitlines_from cur s).
Proof.
  revert s cur. induction n as [| n IH]; intros s cur Hn Hp.
  - destruct s; [| simpl in Hn; lia]. simpl.
    destruct cur as [| x cur]; [reflexivity |].
    destruct (rev (x :: cur)) eqn:E; [apply rev_nil_iff in E; discriminate | reflexivity].
  - destruct s as [| c s'].
    + simpl. destruct cur as [| x cur]; [reflexivity |].
      destruct (rev (x :: cur)) eqn:E; [apply rev_nil_iff in E; discriminate | reflexivity].
    + assert (plain_line_ends s') as Hp' by (intros x Hx; apply Hp; now right).
      simpl in Hn. cbn [lines_from splitlines_from].
      destruct (is_newline c) eqn:Ec.
      * rewrite (newline_linebreak c Ec).
        assert (drop_empty (lines_from [] s')
                = drop_empty match s' with
                             | c' :: s'' =>
                                 if (Z.of_nat (nat_of_ascii c) =? 13)
                                    && (Z.of_nat (nat_of_ascii c') =? 10)
                                 then splitlines_from [] s''
                                 else splitlines_from [] s'
                             | [] => []
                             end) as K.
        { destruct s' as [| c' s'']; [reflexivity |].
          destruct ((Z.of_nat (nat_of_ascii c) =? 13) && (Z.of_nat (nat_of_ascii c') =? 10))
            eqn:E.
          - apply andb_prop in E as [_ E]. cbn [lines_from].
            assert (is_newline c' = true) as -> by (unfold is_newline; now rewrite E).
            simpl. apply IH; [simpl in Hn; lia |]. intros x Hx; apply Hp'; now right.
          - apply IH; [lia | assumption]. }
        cbn [drop_empty List.filter]. fold (drop_empty (lines_from [] s')). rewrite K.
        reflexivity.
      * destruct (is_linebreak c) eqn:El.
        -- rewrite (Hp c (or_introl eq_refl) El) in Ec. discriminate.
        -- apply IH; [lia | assumption].
Qed.

(** [parse_from_string] reads a text as [parse_dimacs] reads a file with
    the same contents, when the text has no line ends but LF and CR. *)
Theorem parse_from_string_agrees (data : text) :
  plain_line_ends data -> parse_from_string data = parse_dimacs data.
Proof.
  intros Hp. unfold parse_from_string, parse_dimacs, splitlines, lines.
  rewrite (fold_drop_empty (splitlines_from [] data)), (fold_drop_empty (lines_from [] data)).
  now rewrite (lines_splitlines (length data) data []).
Qed.

Lemma parse_from_string_agrees_witness :
  parse_from_string padded_formula_text = parse_dimacs padded_formula_text.
Proof.
  apply (parse_from_string_agrees padded_formula_text).
  intros c Hin. vm_compute in Hin.
  repeat (destruct Hin as [<- | Hin]; [vm_compute; tauto |]). destruct Hin.
Defined.

(** The hypothesis is needed: a form feed or a NEL is a blank inside a line
    for [parse_dimacs] and a line end for [parse_from_string]. *)
Example form_feed_splits_clause :
  parse_dimacs form_feed_text
  = Done {| num_vars := 3; num_clauses := 1; clauses := [[1; 2; 3]] |}
  /\ parse_from_string form_feed_text
     = Done {| num_vars := 3; num_clauses := 1; clauses := [[1; 2]; [3]] |}.
Proof. split; vm_compute; reflexivity. Qed.

Example next_line_splits_clause :
  parse_dimacs next_line_text
  = Done {| num_vars := 0; num_clauses := 1; clauses := [[1; 2; 3; 4]] |}
  /\ parse_from_string next_line_text
     = Done {| num_vars := 0; num_clauses := 2; clauses := [[1; 2]; [3; 4]] |}
  /\ ~ plain_line_ends next_line_text.
Proof.
  split; [vm_compute; reflexivity |]. split; [vm_compute; reflexivity |].
  intros H. specialize (H (ascii_of_nat 133)). discriminate H; [| reflexivity].
  unfold next_line_text. apply in_or_app. right. now left.
Qed.

End Two_parsers.

(** ** The Sudoku encoder: what the clauses mean *)

Section Sudoku_meaning.
Import Sudoku.

(** The clauses of the rules, group by group. *)
Lemma fixed_clauses_groups :
  cell_clauses = flat_map group_clauses (map cell_group all_cells)
  /\ row_clauses ++ column_clauses ++ box_clauses
     = flat_map group_clauses (flat_map (fun u => map (unit_group u) DIGITS) units).
Proof. split; vm_compute; reflexivity. Qed.

Lemma in_DIGITS v : In v DIGITS <-> 1 <= v <= 9.
Proof.
  unfold DIGITS, range_from. rewrite in_map_iff. split.
  - intros (k & <- & Hk). apply in_seq in Hk. lia.
  - intros Hv. exists (Z.to_nat v). split; [lia |]. apply in_seq. lia.
Qed.

Lemma units_in_grid u p : In u units -> In p u -> (fst p < 9)%nat /\ (snd p < 9)%nat.
Proof.
  assert (forallb (forallb (fun p => Nat.ltb (fst p) 9 && Nat.ltb (snd p) 9)) units = true) as H
    by (vm_compute; reflexivity).
  intros Hu Hp. rewrite forallb_forall in H. specialize (H u Hu).
  rewrite forallb_forall in H. specialize (H p Hp).
  apply andb_prop in H as [H1 H2]. apply Nat.ltb_lt in H1, H2. auto.
Qed.

Lemma all_cells_in_grid p : In p all_cells <-> (fst p < 9)%nat /\ (snd p < 9)%nat.
Proof.
  unfold all_cells. rewrite in_flat_map. split.
  - intros (r & Hr & Hp). apply in_map_iff in Hp as (c & <- & Hc).
    apply in_seq in Hr, Hc. simpl. lia.
  - intros [Hr Hc]. exists (fst p). split; [apply in_seq; lia |].
    apply in_map_iff. exists (snd p). split; [now destruct p | apply in_seq; lia].
Qed.

Lemma var_index_pos r c v : 1 <= v -> 0 < var_index (Z.of_nat r) (Z.of_nat c) v.
Proof. unfold var_index, SIZE. lia. Qed.

(** *** Groups *)

Lemma nth_map_default {A B} (f : A -> B) l i d d' :
  (i < length l)%nat -> nth i (map f l) d = f (nth i l d').
Proof.
  intros Hi. rewrite (nth_indep _ d (f d')) by (now rewrite length_map). apply map_nth.
Qed.

Lemma in_pairs G cl :
  In cl (pairs G)
  <-> exists i j, (i < j < length G)%nat /\ cl = [- nth i G 0; - nth j G 0].
Proof.
  unfold pairs. rewrite in_flat_map. split.
  - intros (i & Hi & Hcl). apply in_map_iff in Hcl as (j & <- & Hj).
    apply in_seq in Hi, Hj. exists i, j. split; [lia | reflexivity].
  - intros (i & j & Hij & ->). exists i. split; [apply in_seq; lia |].
    apply in_map_iff. exists j. split; [reflexivity | apply in_seq; lia].
Qed.

Lemma lit_sat_pos x val : 0 < x -> lit_sat x val = val.
Proof.
  intros Hx. unfold lit_sat. replace (0 <? x) with true by (symmetry; now apply Z.ltb_lt).
  replace (x <? 0) with false by (symmetry; apply Z.ltb_ge; lia).
  simpl. now rewrite orb_false_r.
Qed.

Lemma lit_sat_neg x val : 0 < x -> lit_sat (- x) val = negb val.
Proof.
  intros Hx. unfold lit_sat. replace (0 <? - x) with false by (symmetry; apply Z.ltb_ge; lia).
  replace (- x <? 0) with true by (symmetry; apply Z.ltb_lt; lia). reflexivity.
Qed.

(** A group's clauses hold exactly when one member is true and the others
    are not. *)
Lemma group_holds (G : list Z) (a : gmap Z bool) i :
  (forall x, In x G -> 0 < x) -> (i < length G)%nat ->
  a !! nth i G 0 = Some true ->
  (forall j, (j < length G)%nat -> j <> i -> a !! nth j G 0 = Some false) ->
  forall cl, In cl (group_clauses G) -> Harness.clause_satisfied cl a = true.
Proof.
  intros Hpos Hi Ht Hf cl [<- | Hcl].
  - apply clause_satisfied_iff. exists (nth i G 0), true.
    assert (In (nth i G 0) G) as Hin by now apply nth_In.
    split; [assumption |]. split; [| apply lit_sat_pos, Hpos, Hin].
    now rewrite Z.abs_eq by (specialize (Hpos _ Hin); lia).
  - apply in_pairs in Hcl as (j & k & Hjk & ->).
    assert (0 < nth j G 0) as Hj by (apply Hpos, nth_In; lia).
    assert (0 < nth k G 0) as Hk by (apply Hpos, nth_In; lia).
    apply clause_satisfied_iff.
    destruct (decide (j = i)) as [-> | Hne].
    + exists (- nth k G 0), false. split; [right; now left |].
      rewrite Z.abs_opp, Z.abs_eq by lia. split; [apply Hf; lia | now rewrite lit_sat_neg].
    + exists (- nth j G 0), false. split; [now left |].
      rewrite Z.abs_opp, Z.abs_eq by lia. split; [apply Hf; lia | now rewrite lit_sat_neg].
Qed.

Lemma group_told (G : list Z) (a : gmap Z bool) :
  (forall x, In x G -> 0 < x) ->
  (forall cl, In cl (group_clauses G) -> Harness.clause_satisfied cl a = true) ->
  exists i, (i < length G)%nat /\ a !! nth i G 0 = Some true
            /\ forall j, (j < length G)%nat -> j <> i -> a !! nth j G 0 <> Some true.
Proof.
  intros Hpos Hall.
  assert (exists i, (i < length G)%nat /\ a !! nth i G 0 = Some true) as (i & Hi & Ht).
  { specialize (Hall G ltac:(now left)). apply clause_satisfied_iff in Hall.
    destruct Hall as (x & val & Hx & Ha & Hs).
    specialize (Hpos x Hx). rewrite Z.abs_eq in Ha by lia. rewrite lit_sat_pos in Hs by assumption.
    subst val. apply (In_nth _ _ 0) in Hx as (i & Hi & <-). eauto. }
  exists i. split; [assumption |]. split; [assumption |].
  intros j Hj Hne Htj.
  assert (forall j k, (j < k < length G)%nat -> a !! nth j G 0 = Some true ->
                      a !! nth k G 0 = Some true -> False) as K.
  { intros j0 k0 Hjk H1 H2.
    specialize (Hall [- nth j0 G 0; - nth k0 G 0]
                     ltac:(right; apply in_pairs; eauto)).
    assert (0 < nth j0 G 0) as Hj0 by (apply Hpos, nth_In; lia).
    assert (0 < nth k0 G 0) as Hk0 by (apply Hpos, nth_In; lia).
    apply clause_satisfied_iff in Hall. destruct Hall as (x & val & Hx & Ha & Hs).
    destruct Hx as [<- | [<- | []]]; rewrite Z.abs_opp, Z.abs_eq in Ha by lia;
      rewrite lit_sat_neg in Hs by assumption; destruct val; try discriminate; congruence. }
  destruct (Nat.lt_total i j) as [Hlt | [-> | Hlt]]; [| congruence |].
  - apply (K i j); [lia | assumption | assumption].
  - apply (K j i); [lia | assumption | assumption].
Qed.

(** *** Counting *)

Lemma count_once_iff (vals : list Z) v :
  count_occ Z.eq_dec vals v = 1%nat
  <-> exists i, (i < length vals)%nat /\ nth i vals 0 = v
                /\ forall j, (j < length vals)%nat -> j <> i -> nth j vals 0 <> v.
Proof.
  induction vals as [| x vals IH].
  - simpl. split; [discriminate | intros (i & Hi & _); lia].
  - simpl. destruct (Z.eq_dec x v) as [-> | Hne].
    + split.
      * intros [= H0]. exists 0%nat. split; [lia |]. split; [reflexivity |].
        intros [| j] Hj Hji; [congruence |]. simpl.
        apply count_occ_not_In in H0. intros E. apply H0. rewrite <- E. apply nth_In. lia.
      * intros (i & Hi & Hv & Hother). f_equal. apply count_occ_not_In. intros Hin.
        apply (In_nth _ _ 0) in Hin as (j & Hj & Ej).
        destruct i as [| i].
        -- apply (Hother (S j)); [lia | lia | exact Ej].
        -- apply (Hother 0%nat); [lia | lia | reflexivity].
    + rewrite IH. split.
      * intros (i & Hi & Hv & Hother). exists (S i). split; [lia |]. split; [exact Hv |].
        intros [| j] Hj Hji; [simpl; congruence |]. simpl. apply Hother; lia.
      * intros (i & Hi & Hv & Hother). destruct i as [| i]; [simpl in Hv; congruence |].
        exists i. split; [lia |]. split; [exact Hv |].
        intros j Hj Hji. apply (Hother (S j)); lia.
Qed.


(** *** From a solved grid to a model *)

Lemma told_by_var g r c v :
  (r < 9)%nat -> (c < 9)%nat -> 1 <= v <= 9 ->
  told_by g (var_index (Z.of_nat r) (Z.of_nat c) v) = (value_at g r c =? v).
Proof.
  intros Hr Hc Hv. unfold told_by, var_index, SIZE.
  assert ((Z.of_nat r * 9 * 9 + Z.of_nat c * 9 + v - 1) / 81 = Z.of_nat r) as ->.
  { symmetry. apply (Z.div_unique _ _ _ (Z.of_nat c * 9 + v - 1)); lia. }
  assert ((Z.of_nat r * 9 * 9 + Z.of_nat c * 9 + v - 1) mod 81 = Z.of_nat c * 9 + v - 1) as ->.
  { symmetry. apply (Z.mod_unique _ _ (Z.of_nat r)); lia. }
  assert ((Z.of_nat c * 9 + v - 1) / 9 = Z.of_nat c) as ->.
  { symmetry. apply (Z.div_unique _ _ _ (v - 1)); lia. }
  assert ((Z.of_nat r * 9 * 9 + Z.of_nat c * 9 + v - 1) mod 9 = v - 1) as ->.
  { symmetry. apply (Z.mod_unique _ _ (Z.of_nat r * 9 + Z.of_nat c)); lia. }
  rewrite !Nat2Z.id. f_equal. lia.
Qed.

Lemma grid_assignment_lookup g x :
  1 <= x <= 729 -> grid_assignment g !! x = Some (told_by g x).
Proof.
  intros Hx. unfold grid_assignment. apply elem_of_list_to_map_1.
  - rewrite <- list_fmap_compose.
    replace (fst ∘ (fun x => (x, told_by g x))) with (@id Z) by reflexivity.
    rewrite list_fmap_id. apply NoDup_fmap_2; [intros n m; apply Nat2Z.inj | apply NoDup_seq].
  - apply list_elem_of_In, in_map_iff. exists x. split; [reflexivity |].
    apply in_map_iff. exists (Z.to_nat x). split; [lia |]. apply in_seq. lia.
Qed.

Lemma grid_assignment_var g r c v :
  (r < 9)%nat -> (c < 9)%nat -> 1 <= v <= 9 ->
  grid_assignment g !! var_index (Z.of_nat r) (Z.of_nat c) v = Some (value_at g r c =? v).
Proof.
  intros Hr Hc Hv. rewrite grid_assignment_lookup, told_by_var by
    (assumption || (unfold var_index, SIZE; lia)). reflexivity.
Qed.

Lemma solved_cells g r c :
  solved g = true -> (r < 9)%nat -> (c < 9)%nat -> 1 <= value_at g r c <= 9.
Proof.
  unfold solved. intros H Hr Hc. apply andb_prop in H as [H _].
  rewrite forallb_forall in H. specialize (H r ltac:(apply in_seq; lia)).
  rewrite forallb_forall in H. specialize (H c ltac:(apply in_seq; lia)). lia.
Qed.

Lemma solved_units g u v :
  solved g = true -> In u units -> 1 <= v <= 9 ->
  count_occ Z.eq_dec (unit_values g u) v = 1%nat.
Proof.
  unfold solved. intros H Hu Hv. apply andb_prop in H as [_ H].
  rewrite forallb_forall in H. specialize (H u Hu).
  rewrite forallb_forall in H. specialize (H v ltac:(now apply in_DIGITS)).
  now apply Nat.eqb_eq in H.
Qed.

Lemma cell_group_nth p i :
  (i < 9)%nat ->
  nth i (cell_group p) 0 = var_index (Z.of_nat (fst p)) (Z.of_nat (snd p)) (Z.of_nat i + 1).
Proof.
  intros Hi. unfold cell_group.
  do 9 (destruct i as [| i]; [reflexivity |]). lia.
Qed.

Lemma cell_group_length p : length (cell_group p) = 9%nat.
Proof. reflexivity. Qed.

Lemma cell_group_pos p x : In x (cell_group p) -> 0 < x.
Proof.
  unfold cell_group. intros H. apply in_map_iff in H as (v & <- & Hv).
  apply in_DIGITS in Hv. apply var_index_pos. lia.
Qed.

Lemma unit_group_nth u v i :
  (i < length u)%nat ->
  nth i (unit_group u v) 0
  = var_index (Z.of_nat (fst (nth i u (0, 0)%nat))) (Z.of_nat (snd (nth i u (0, 0)%nat))) v.
Proof. intros Hi. unfold unit_group. now rewrite (nth_map_default _ _ _ _ (0, 0)%nat). Qed.

Lemma unit_group_pos u v x : 1 <= v -> In x (unit_group u v) -> 0 < x.
Proof.
  unfold unit_group. intros Hv H. apply in_map_iff in H as (p & <- & _).
  now apply var_index_pos.
Qed.

Lemma unit_values_nth g u i :
  (i < length u)%nat ->
  nth i (unit_values g u) 0 = value_at g (fst (nth i u (0, 0)%nat)) (snd (nth i u (0, 0)%nat)).
Proof. intros Hi. unfold unit_values. now rewrite (nth_map_default _ _ _ _ (0, 0)%nat). Qed.

Lemma rules_hold g cl :
  solved g = true ->
  In cl (cell_clauses ++ row_clauses ++ column_clauses ++ box_clauses) ->
  Harness.clause_satisfied cl (grid_assignment g) = true.
Proof.
  intros Hs Hin. destruct fixed_clauses_groups as [E1 E2].
  apply in_app_or in Hin as [Hin | Hin].
  - rewrite E1 in Hin. clear E1 E2. apply in_flat_map in Hin as (G & HG & Hcl).
    apply in_map_iff in HG as (p & <- & Hp). apply all_cells_in_grid in Hp as [Hr Hc].
    pose proof (solved_cells g _ _ Hs Hr Hc) as Hv.
    apply (group_holds (cell_group p) _ (Z.to_nat (value_at g (fst p) (snd p) - 1)));
      [apply cell_group_pos | rewrite cell_group_length; lia | | | assumption].
    + rewrite cell_group_nth, grid_assignment_var by lia. f_equal. apply Z.eqb_eq. lia.
    + intros j Hj Hne. rewrite cell_group_length in Hj.
      rewrite cell_group_nth, grid_assignment_var by lia. f_equal. apply Z.eqb_neq. lia.
  - rewrite E2 in Hin. clear E1 E2. apply in_flat_map in Hin as (G & HG & Hcl).
    apply in_flat_map in HG as (u & Hu & HG). apply in_map_iff in HG as (v & <- & Hv).
    apply in_DIGITS in Hv.
    pose proof (solved_units g u v Hs Hu Hv) as Hone.
    apply count_once_iff in Hone as (i & Hi & Hval & Hother).
    unfold unit_values in Hi. rewrite length_map in Hi.
    assert (forall j, (j < length u)%nat ->
              (fst (nth j u (0, 0)%nat) < 9)%nat /\ (snd (nth j u (0, 0)%nat) < 9)%nat) as Hgrid.
    { intros j Hj. apply (units_in_grid u); [assumption | now apply nth_In]. }
    apply (group_holds (unit_group u v) _ i);
      [intros x; apply unit_group_pos; lia | unfold unit_group; now rewrite length_map | | |
       assumption].
    + destruct (Hgrid i Hi). rewrite unit_group_nth, grid_assignment_var by (assumption || lia).
      f_equal. apply Z.eqb_eq. now rewrite <- unit_values_nth.
    + intros j Hj Hne. unfold unit_group in Hj. rewrite length_map in Hj.
      destruct (Hgrid j Hj). rewrite unit_group_nth, grid_assignment_var by (assumption || lia).
      f_equal. apply Z.eqb_neq. rewrite <- unit_values_nth by assumption.
      apply Hother; [unfold unit_values; now rewrite length_map | assumption].
Qed.

Lemma grid9_value puzzle r c :
  grid9 puzzle -> (r < 9)%nat -> (c < 9)%nat ->
  cell puzzle r c = Done (value_at puzzle r c) /\ 0 <= value_at puzzle r c <= 9.
Proof.
  intros G Hr Hc. destruct (grid9_cell puzzle r c G Hr Hc) as (v & Hv & Hrange).
  unfold value_at. rewrite Hv. auto.
Qed.

Lemma in_clues_of puzzle cl :
  grid9 puzzle ->
  In cl (clues_of puzzle)
  <-> exists r c, (r < 9)%nat /\ (c < 9)%nat /\ value_at puzzle r c <> 0
                  /\ cl = [var_index (Z.of_nat r) (Z.of_nat c) (value_at puzzle r c)].
Proof.
  intros G. unfold clues_of. rewrite in_flat_map. split.
  - intros (r & Hr & Hin). apply in_flat_map in Hin as (c & Hc & Hin).
    apply in_seq in Hr, Hc. destruct (grid9_value puzzle r c G) as [E _]; [lia | lia |].
    rewrite E in Hin. destruct (value_at puzzle r c =? 0) eqn:E0; [destruct Hin |].
    destruct Hin as [<- | []]. apply Z.eqb_neq in E0. exists r, c. repeat split; (lia || auto).
  - intros (r & c & Hr & Hc & Hv & ->). exists r. split; [apply in_seq; lia |].
    apply in_flat_map. exists c. split; [apply in_seq; lia |].
    destruct (grid9_value puzzle r c G Hr Hc) as [E _]. rewrite E.
    apply Z.eqb_neq in Hv. rewrite Hv. now left.
Qed.

Lemma extends_cell g puzzle r c :
  extends g puzzle = true -> (r < 9)%nat -> (c < 9)%nat -> value_at puzzle r c <> 0 ->
  value_at g r c = value_at puzzle r c.
Proof.
  unfold extends. intros H Hr Hc Hv.
  rewrite forallb_forall in H. specialize (H r ltac:(apply in_seq; lia)).
  rewrite forallb_forall in H. specialize (H c ltac:(apply in_seq; lia)).
  apply orb_prop in H as [H | H]; [apply Z.eqb_eq in H; contradiction | now apply Z.eqb_eq].
Qed.

(** The encoding is satisfied by every solution: a solved grid that keeps
    the filled cells of the puzzle gives an assignment under which every
    clause the encoder emits holds. *)
Theorem sudoku_solution_is_model (puzzle g : list (list Z)) :
  grid9 puzzle -> solved g = true -> extends g puzzle = true ->
  exists cls, encode puzzle = Done cls
              /\ forall cl, In cl cls -> Harness.clause_satisfied cl (grid_assignment g) = true.
Proof.
  intros G Hs He. rewrite (encode_grid9 _ G). eexists. split; [reflexivity |].
  intros cl Hin. rewrite !app_assoc in Hin. apply in_app_or in Hin as [Hin | Hin].
  - rewrite <- !app_assoc in Hin. now apply rules_hold.
  - apply (in_clues_of _ _ G) in Hin as (r & c & Hr & Hc & Hv & ->).
    destruct (grid9_value puzzle r c G Hr Hc) as [_ Hrange].
    apply clause_satisfied_iff. eexists _, true. split; [now left |].
    pose proof (var_index_pos r c (value_at puzzle r c) ltac:(lia)) as Hpos.
    rewrite Z.abs_eq by lia. split; [| now apply lit_sat_pos].
    rewrite grid_assignment_var by (assumption || lia). f_equal. apply Z.eqb_eq.
    now apply extends_cell.
Qed.

(** *** From a model to a solved grid *)

Lemma Done_inj {A} (x y : A) : Done x = Done y -> x = y.
Proof. intros H. now injection H. Qed.

Lemma value_at_grid_of a r c :
  (r < 9)%nat -> (c < 9)%nat -> value_at (grid_of a) r c = digit_of_cell a r c.
Proof.
  intros Hr Hc. unfold value_at, cell, grid_of.
  do 9 (destruct r as [| r]; [do 9 (destruct c as [| c]; [reflexivity |]); lia |]). lia.
Qed.

Lemma rules_groups (a : gmap Z bool) :
  (forall cl, In cl (cell_clauses ++ row_clauses ++ column_clauses ++ box_clauses) ->
              Harness.clause_satisfied cl a = true) ->
  (forall p cl, In p all_cells -> In cl (group_clauses (cell_group p)) ->
                Harness.clause_satisfied cl a = true)
  /\ (forall u v cl, In u units -> In v DIGITS -> In cl (group_clauses (unit_group u v)) ->
                     Harness.clause_satisfied cl a = true).
Proof.
  intros H. destruct fixed_clauses_groups as [E1 E2]. split.
  - intros p cl Hp Hcl. apply H, in_or_app. left. rewrite E1.
    apply in_flat_map. exists (cell_group p). split; [now apply in_map | assumption].
  - intros u v cl Hu Hv Hcl. apply H, in_or_app. right. rewrite E2.
    apply in_flat_map. exists (unit_group u v). split; [| assumption].
    apply in_flat_map. exists u. split; [assumption | now apply in_map].
Qed.

(** The digit an assignment tells for a cell, when it satisfies the
    clauses of the cell. *)
Lemma cell_told (a : gmap Z bool) r c :
  (r < 9)%nat -> (c < 9)%nat ->
  (forall cl, In cl (group_clauses (cell_group (r, c))) -> Harness.clause_satisfied cl a = true) ->
  1 <= digit_of_cell a r c <= 9
  /\ forall v, 1 <= v <= 9 ->
       (a !! var_index (Z.of_nat r) (Z.of_nat c) v = Some true <-> digit_of_cell a r c = v).
Proof.
  intros Hr Hc Hall.
  destruct (group_told (cell_group (r, c)) a (cell_group_pos _) Hall) as (i & Hi & Ht & Hother).
  rewrite cell_group_length in Hi. rewrite cell_group_nth in Ht by assumption. simpl in Ht.
  assert (forall v, 1 <= v <= 9 ->
            a !! var_index (Z.of_nat r) (Z.of_nat c) v = Some true -> v = Z.of_nat i + 1) as Huniq.
  { intros v Hv Hav. destruct (decide (Z.to_nat (v - 1) = i)) as [<- | Hne]; [lia |].
    exfalso. apply (Hother (Z.to_nat (v - 1))); [rewrite cell_group_length; lia | assumption |].
    rewrite cell_group_nth by lia. simpl. now replace (Z.of_nat (Z.to_nat (v - 1)) + 1) with v by lia. }
  assert (digit_of_cell a r c = Z.of_nat i + 1) as Hd.
  { unfold digit_of_cell.
    destruct (find _ DIGITS) as [v |] eqn:Ef.
    - apply find_some in Ef as [Hv Hav]. apply in_DIGITS in Hv.
      apply bool_decide_eq_true in Hav. now apply Huniq.
    - exfalso. eapply find_none in Ef; [| apply in_DIGITS with (v := Z.of_nat i + 1); lia].
      simpl in Ef. apply bool_decide_eq_false in Ef. contradiction. }
  rewrite Hd. split; [lia |]. intros v Hv. split; [intros Hav; symmetry; now apply Huniq |].
  now intros <-.
Qed.

(** Every model of the encoding is a solution: an assignment under which
    every clause the encoder emits holds tells a solved grid that keeps the
    filled cells of the puzzle. *)
Theorem sudoku_model_is_solution (puzzle cls : list (list Z)) (a : gmap Z bool) :
  grid9 puzzle -> encode puzzle = Done cls ->
  (forall cl, In cl cls -> Harness.clause_satisfied cl a = true) ->
  solved (grid_of a) = true /\ extends (grid_of a) puzzle = true.
Proof.
  intros G E Hall. rewrite (encode_grid9 _ G) in E. apply Done_inj in E. subst cls.
  assert (forall cl, In cl (cell_clauses ++ row_clauses ++ column_clauses ++ box_clauses) ->
            Harness.clause_satisfied cl a = true) as Hrules.
  { intros cl Hin. apply Hall. rewrite !app_assoc. apply in_or_app. left.
    now rewrite <- !app_assoc. }
  assert (forall cl, In cl (clues_of puzzle) -> Harness.clause_satisfied cl a = true) as Hclues.
  { intros cl Hin. apply Hall. rewrite !app_assoc. apply in_or_app. now right. }
  clear Hall. destruct (rules_groups a Hrules) as [Hcells Hunits]. clear Hrules.
  assert (forall r c, (r < 9)%nat -> (c < 9)%nat ->
            1 <= value_at (grid_of a) r c <= 9
            /\ forall v, 1 <= v <= 9 ->
                 (a !! var_index (Z.of_nat r) (Z.of_nat c) v = Some true
                  <-> value_at (grid_of a) r c = v)) as Hcell.
  { intros r c Hr Hc. rewrite value_at_grid_of by assumption.
    apply cell_told; [assumption | assumption |].
    intros cl. apply Hcells. apply all_cells_in_grid. simpl. auto. }
  split.
  - unfold solved. apply andb_true_intro. split.
    + apply forallb_forall. intros r Hr. apply forallb_forall. intros c Hc.
      apply in_seq in Hr, Hc. destruct (Hcell r c ltac:(lia) ltac:(lia)) as [Hv _]. lia.
    + apply forallb_forall. intros u Hu. apply forallb_forall. intros v Hv.
      unfold once. apply Nat.eqb_eq. apply count_once_iff.
      pose proof Hv as Hv'. apply in_DIGITS in Hv'.
      destruct (group_told (unit_group u v) a) as (i & Hi & Ht & Hother).
      { intros x. apply unit_group_pos. lia. }
      { intros cl. now apply Hunits. }
      unfold unit_group in Hi. rewrite length_map in Hi.
      assert (forall j, (j < length u)%nat ->
                (fst (nth j u (0, 0)%nat) < 9)%nat /\ (snd (nth j u (0, 0)%nat) < 9)%nat)
        as Hgrid.
      { intros j Hj. apply (units_in_grid u); [assumption | now apply nth_In]. }
      exists i. split; [unfold unit_values; now rewrite length_map |]. split.
      * rewrite unit_values_nth by assumption. rewrite unit_group_nth in Ht by assumption.
        destruct (Hgrid i Hi) as [H1 H2]. now apply (Hcell _ _ H1 H2).
      * intros j Hj Hne. unfold unit_values in Hj. rewrite length_map in Hj.
        rewrite unit_values_nth by assumption. intros Hval.
        apply (Hother j); [unfold unit_group; now rewrite length_map | assumption |].
        rewrite unit_group_nth by assumption.
        destruct (Hgrid j Hj) as [H1 H2]. now apply (Hcell _ _ H1 H2).
  - unfold extends. apply forallb_forall. intros r Hr. apply forallb_forall. intros c Hc.
    apply in_seq in Hr, Hc.
    destruct (value_at puzzle r c =? 0) eqn:E0; [reflexivity |]. simpl.
    apply Z.eqb_neq in E0. apply Z.eqb_eq.
    destruct (grid9_value puzzle r c G) as [_ Hrange]; [lia | lia |].
    destruct (Hcell r c ltac:(lia) ltac:(lia)) as [_ Hiff]. apply Hiff; [lia |].
    specialize (Hclues [var_index (Z.of_nat r) (Z.of_nat c) (value_at puzzle r c)]).
    rewrite clause_satisfied_iff in Hclues.
    destruct Hclues as (x & val & [<- | []] & Ha & Hsat).
    { apply in_clues_of; [assumption |]. exists r, c. repeat split; (lia || auto). }
    pose proof (var_index_pos r c (value_at puzzle r c) ltac:(lia)) as Hpos.
    rewrite Z.abs_eq in Ha by lia. rewrite lit_sat_pos in Hsat by assumption. now subst val.
Qed.

Lemma sample_puzzle_grid9 : grid9 sample_puzzle.
Proof. split; [reflexivity |]. repeat constructor; lia. Qed.

Lemma sudoku_solution_is_model_witness :
  exists cls, encode sample_puzzle = Done cls
              /\ forall cl, In cl cls ->
                   Harness.clause_satisfied cl (grid_assignment sample_solution) = true.
Proof.
  apply (sudoku_solution_is_model sample_puzzle sample_solution).
  - apply sample_puzzle_grid9.
  - vm_compute. reflexivity.
  - vm_compute. reflexivity.
Defined.

Lemma sample_model_check :
  let a := grid_assignment sample_solution in
  forallb (fun cl => Harness.clause_satisfied cl a)
          (cell_clauses ++ row_clauses ++ column_clauses ++ box_clauses
           ++ clues_of sample_puzzle) = true.
Proof. vm_compute. reflexivity. Qed.

Lemma sudoku_model_is_solution_witness :
  solved (grid_of (grid_assignment sample_solution)) = true
  /\ extends (grid_of (grid_assignment sample_solution)) sample_puzzle = true.
Proof.
  apply (sudoku_model_is_solution sample_puzzle
           (cell_clauses ++ row_clauses ++ column_clauses ++ box_clauses
            ++ clues_of sample_puzzle)
           (grid_assignment sample_solution)).
  - apply sample_puzzle_grid9.
  - apply encode_grid9, sample_puzzle_grid9.
  - exact (proj1 (forallb_forall _ _) sample_model_check).
Defined.

End Sudoku_meaning.

(** ** CDCL: contradictory unit clauses *)

Section Cdcl_units.
Import CDCL.

Lemma init_watches_total cls :
  ~ In [] cls -> forall idx acc, exists r, init_watches idx cls acc = Done r.
Proof.
  induction cls as [| c cls IH]; intros Hne idx acc; [eexists; reflexivity |].
  cbn [init_watches]. destruct acc as [w wm].
  destruct c as [| c0 [| c1 c]]; [exfalso; apply Hne; left; reflexivity | |];
    cbn [init_watch mbind outcome_bind obind]; apply IH; intros H; apply Hne; right; exact H.
Qed.

Lemma initialize_state_total cls :
  ~ In [] cls -> exists st, initialize_state cls = Done st.
Proof.
  intros Hne. unfold initialize_state.
  destruct (init_watches_total cls Hne 0%nat (∅, ∅)) as [[w wm] ->].
  cbn [mbind outcome_bind obind]. eexists; reflexivity.
Qed.

(** A unit clause against the value its variable already has ends the loop. *)
Lemma assign_units_clash cls :
  forall st m, In [m] cls -> assignment st !! Z.abs m = Some (negb (0 <? m)) ->
    assign_units cls st = None.
Proof.
  induction cls as [| c cls IH]; intros st m Hin Hm; [destruct Hin |].
  destruct Hin as [-> | Hin].
  - cbn [assign_units]. rewrite Hm. destruct (0 <? m); reflexivity.
  - destruct c as [| x [| y c]]; cbn [assign_units]; try (eapply IH; eassumption).
    destruct (assignment st !! Z.abs x) as [val |] eqn:Ex.
    + destruct (negb (Bool.eqb val (0 <? x))); [reflexivity | eapply IH; eassumption].
    + apply (IH _ m Hin). cbn [set_literal assignment].
      rewrite lookup_insert_ne; [exact Hm |]. intros E. rewrite E in Ex. congruence.
Qed.

Lemma assign_units_opposite cls l :
  l <> 0 -> In [l] cls -> In [- l] cls -> forall st, assign_units cls st = None.
Proof.
  intros Hl. induction cls as [| c cls IH]; intros H1 H2 st; [destruct H1 |].
  assert (forall x, (x = l \/ x = - l) -> In [- x] cls ->
            assign_units ([x] :: cls) st = None) as Hhead.
  { intros x Hx Hin. cbn [assign_units].
    destruct (assignment st !! Z.abs x) as [val |] eqn:Ex.
    - destruct (negb (Bool.eqb val (0 <? x))) eqn:Eb; [reflexivity |].
      apply (assign_units_clash cls st (- x) Hin).
      rewrite Z.abs_opp, Ex. f_equal.
      apply negb_false_iff, Bool.eqb_prop in Eb. subst val.
      destruct (Z.ltb_spec 0 x), (Z.ltb_spec 0 (- x)); try reflexivity; lia.
    - apply (assign_units_clash cls _ (- x) Hin). cbn [set_literal assignment].
      rewrite Z.abs_opp, lookup_insert_eq. f_equal.
      destruct (Z.ltb_spec 0 x), (Z.ltb_spec 0 (- x)); try reflexivity; lia. }
  destruct H1 as [-> | H1].
  - destruct H2 as [H2 | H2]; [injection H2; lia |].
    apply Hhead; [left; reflexivity | exact H2].
  - destruct H2 as [-> | H2].
    + apply Hhead; [right; reflexivity | rewrite Z.opp_involutive; exact H1].
    + destruct c as [| x [| y c]]; cbn [assign_units]; try (apply IH; assumption).
      destruct (assignment st !! Z.abs x) as [val |].
      * destruct (negb (Bool.eqb val (0 <? x))); [reflexivity | apply IH; assumption].
      * apply IH; assumption.
Qed.

Lemma opposite_units_no_model cls l M :
  In [l] cls -> In [- l] cls -> ~ models M cls.
Proof.
  intros H1 H2 HM. pose proof (HM _ H1) as A. pose proof (HM _ H2) as B.
  unfold holds, lit_holds, lit_sat in A, B. cbn [existsb] in A, B.
  rewrite Z.abs_opp in B. destruct (M (Z.abs l));
    destruct (Z.ltb_spec 0 l), (Z.ltb_spec l 0), (Z.ltb_spec 0 (- l)), (Z.ltb_spec (- l) 0);
    cbn in A, B; try discriminate; lia.
Qed.

(** On a file that holds a unit clause and its opposite, CDCL answers UNSAT
    from the loop over the unit clauses, before any propagation or search:
    every counter of the record is 0, whatever the other clauses are, and
    the answer is right, as no valuation satisfies both units. *)
Theorem cdcl_opposite_units fuel data f l :
  Parser.parse_dimacs data = Done f ->
  In [l] (Parser.clauses f) -> In [- l] (Parser.clauses f) -> l <> 0 ->
  run_solver fuel data
  = Done [ ("solver", VStr "cdcl"); ("status", VStr "UNSAT");
           ("decisions", VInt 0); ("conflicts", VInt 0);
           ("learned_clauses", VInt 0); ("restarts", VInt 0);
           ("assignment", VAssign ∅);
           ("num_clauses", VInt (Z.of_nat (length (Parser.clauses f)))) ]%string
  /\ forall M, ~ models M (Parser.clauses f).
Proof.
  intros Hp H1 H2 Hl. split; [| intros M; exact (opposite_units_no_model _ l M H1 H2)].
  unfold run_solver. rewrite Hp. cbn [mbind outcome_bind obind].
  destruct (initialize_state_total (Parser.clauses f)) as [st Ei];
    [eapply parse_dimacs_no_empty; eassumption |].
  rewrite Ei. cbn [mbind outcome_bind obind].
  destruct (initialize_state_spec _ _ Ei) as [Hf _].
  rewrite Hf, (assign_units_opposite _ l Hl H1 H2). unfold unsat_record. rewrite Hf. reflexivity.
Qed.

Lemma cdcl_opposite_units_witness :
  run_solver 0 clashing_units_text
  = Done [ ("solver", VStr "cdcl"); ("status", VStr "UNSAT");
           ("decisions", VInt 0); ("conflicts", VInt 0);
           ("learned_clauses", VInt 0); ("restarts", VInt 0);
           ("assignment", VAssign ∅); ("num_clauses", VInt 3) ]%string
  /\ forall M, ~ models M [[1]; [2; -1]; [-1]].
Proof.
  apply (cdcl_opposite_units 0 clashing_units_text
           {| Parser.num_vars := 2; Parser.num_clauses := 3;
              Parser.clauses := [[1]; [2; -1]; [-1]] |} 1).
  - vm_compute. reflexivity.
  - left. reflexivity.
  - right. right. left. reflexivity.
  - lia.
Defined.

End Cdcl_units.
